(** * The identifier factory of wormholes (services/generator/factory.go)

    A shallow embedding of the Factory: the warm-up of the membership filter
    ([Prepare]), the fill loop ([populateBucket]), the scheduler of [Run], the
    two allocate operations ([GetBucket], [GetLocalBucket]), [Shutdown] and
    [fasterByte].  Goroutines are modelled by interleaving: every statement
    that touches shared state is one event of [exec]; the statements between
    [mutex.Lock] and [mutex.Unlock] form a single event.  The goroutine that
    line 96 starts inside such a section is created by that event; what it
    does before the lock is released touches neither a status nor the lock,
    so it commutes with the assignment of line 97. *)

From Stdlib.Strings Require Import Byte Ascii String.
From stdpp Require Import base option list strings.


(** ** fasterByte *)

(** The [Data] field of the string header of [s] points to the first byte of
    [s]; [byteAt s i] is the byte found [i] places after it. *)
Definition byteAt (s : string) (i : nat) : byte :=
  match String.get i s with
  | Some a => byte_of_ascii a
  | None => "000"%byte
  end.

(** [unsafe.Slice(p, n)] is the slice of length [n] whose [i]-th element is
    [p[i]]; here [p] is the data pointer of [s] and [n] is [len(s)]. *)
Definition fasterByte (s : string) : list byte :=
  byteAt s <$> seq 0 (String.length s).

(** ** The membership filter *)

Module Bloom.

(** Modelled from the spec: bloom.go (the type [Bloom] with [NewBloom],
    [Add] and [Exists]) is not among the sources.  The spec gives the
    filter as an interface: it is sized at construction by a maximum
    cardinality and a target error rate, [Add] records a key and [Exists]
    answers whether a key is possibly present.  The Go methods mutate the
    receiver; here [Add] returns the filter after the call. *)
Record Impl : Type := {
  t : Type;
  rate : Type;
  New : nat → rate → t;
  Add : list byte → t → t;
  Exists : list byte → t → bool;
}.

(** Modelled from the spec: the contract of the filter (bloom.go is not
    among the sources): [Exists] never answers false for a key that was
    [Add]-ed, now or earlier; it may answer true for any other key. *)
Record Laws (I : Impl) : Prop := {
  Exists_Add : ∀ k b, Exists I k (Add I k b) = true;
  Exists_mono : ∀ k k' b, Exists I k b = true → Exists I k (Add I k' b) = true;
}.

End Bloom.

(** A filter that satisfies the contract: the positions set so far, under a
    given family of hash functions.  Two keys that hash alike are confused,
    so it has false positives. *)
Definition PositionBloom (hashes : list (list byte → nat)) : Bloom.Impl := {|
  Bloom.t := list nat;
  Bloom.rate := unit;
  Bloom.New := λ _ _, [];
  Bloom.Add := λ k b, ((λ h, h k) <$> hashes) ++ b;
  Bloom.Exists := λ k b, forallb (λ h, bool_decide (h k ∈ b)) hashes;
|}.

Definition byteSum (k : list byte) : nat :=
  foldr (λ c n, Byte.to_nat c + n) 0 k.

(** The instance used in the examples: two hash functions into 64 positions. *)
Definition SmallBloom : Bloom.Impl :=
  PositionBloom [λ k, byteSum k `mod` 64; λ k, (3 * length k + byteSum k) `mod` 64].

(** ** The bucket pool *)

Inductive BucketStatus := BucketEmpty | BucketBusy | BucketFull.

#[global] Instance BucketStatus_eq_dec : EqDecision BucketStatus.
Proof. solve_decision. Defined.

(** The fields of [MemStore] that factory.go uses: [buckets], [status] and
    [capacity].  The mutex is the atomicity of the events of [exec]. *)
Record MemStore : Type := {
  buckets : list (list string);
  status : list BucketStatus;
  capacity : nat;
}.

(** Modelled from the spec: [NewMemStore] (store.go is not among the
    sources): S buckets of C slots each, all of them Empty. *)
Definition NewMemStore (size capacity : nat) : MemStore := {|
  buckets := replicate size (replicate capacity "");
  status := replicate size BucketEmpty;
  capacity := capacity;
|}.

(** Modelled from the spec: [GetEmpty], the spec's ListEmpty (store.go is not
    among the sources): the indices of the buckets that are Empty, in
    ascending order, read under the lock. *)
Definition GetEmpty (m : MemStore) : list nat :=
  filter (λ i, status m !! i = Some BucketEmpty) (seq 0 (length (status m))).

Fixpoint firstFull (i : nat) (st : list BucketStatus) : option nat :=
  match st with
  | [] => None
  | BucketFull :: _ => Some i
  | _ :: st' => firstFull (S i) st'
  end.

(** Modelled from the spec: [Pop] (store.go is not among the sources): under
    the lock, the first Full bucket in ascending index order is copied out
    and reset to Empty, with found = true; when no bucket is Full the result
    is found = false with no identifiers.  The call sites in factory.go bind
    the identifiers only. *)
Definition Pop (m : MemStore) : (list string * bool) * MemStore :=
  match firstFull 0 (status m) with
  | Some i =>
      (default [] (buckets m !! i), true,
       {| buckets := buckets m;
          status := <[i := BucketEmpty]> (status m);
          capacity := capacity m |})
  | None => ([], false, m)
  end.

(** Every bucket has [capacity] slots and a status. *)
Definition store_wf (m : MemStore) : Prop :=
  length (status m) = length (buckets m) ∧
  Forall (λ b, length b = capacity m) (buckets m).

(** ** Collaborators of the Factory *)

Definition error : Type := string.

(** [time.Ticker]: [running] until [Stop]; [C] tells whether a tick waits in
    the channel, which buffers one tick. *)
Record Ticker : Type := { running : bool; C : bool }.

Definition NewTicker : Ticker := {| running := true; C := false |}.

Definition Stop (t : Ticker) : Ticker := {| running := false; C := C t |}.

Inductive ScanResult := ScanOk (id : string) | ScanErr (e : error).

(** What the record store answers to the two queries of [Prepare]:
    [countScan] is the value left in [idCount] by [QueryRow(..).Scan] and
    the error it returned; [idsQuery] is the error of [Query] or else the
    rows that [rows.Next] delivers before it returns false, each with the
    result of its [Scan]. *)
Record DB : Type := {
  countScan : N * option error;
  idsQuery : error + list ScanResult;
}.

Inductive Level := InfoLevel | WarnLevel | ErrorLevel | FatalLevel | PanicLevel.

(** One zerolog event: level, the error attached with [Err], the message (a
    format for [Msgf]) and its argument. *)
Record LogEntry : Type := {
  level : Level;
  cause : option error;
  message : string;
  arg : option N;
}.

Definition warn (e : error) (m : string) : LogEntry :=
  {| level := WarnLevel; cause := Some e; message := m; arg := None |}.

Inductive Code := ResourceExhausted | OtherCode (c : nat).

(** A gRPC status turned into an error with [Err]. *)
Record Status : Type := { code : Code; msg : string }.

Record protos_Bucket : Type := { Ids : list string }.

(** What [nanoid.New] returned: the identifier and the error. *)
Definition Gen : Type := string * option error.

Section Factory.

Context (BF : Bloom.Impl).

(** The fields of [Config] that [NewFactory] reads. *)
Record Config : Type := {
  BloomMaxLimit : nat;
  BloomErrorRate : Bloom.rate BF;
  BucketSize : nat;
  BucketCapacity : nat;
  IDSize : nat;
}.

Record Factory : Type := {
  db : DB;
  bloom : Bloom.t BF;
  store : MemStore;
  size : nat;
  tick : Ticker;
}.

Definition NewFactory (config : Config) (db : DB) : Factory := {|
  db := db;
  bloom := Bloom.New BF (BloomMaxLimit config) (BloomErrorRate config);
  store := NewMemStore (BucketSize config) (BucketCapacity config);
  size := IDSize config;
  tick := NewTicker;
|}.

Definition set_bloom (b : Bloom.t BF) (f : Factory) : Factory :=
  {| db := db f; bloom := b; store := store f; size := size f; tick := tick f |}.

Definition set_store (m : MemStore) (f : Factory) : Factory :=
  {| db := db f; bloom := bloom f; store := m; size := size f; tick := tick f |}.

Definition set_tick (t : Ticker) (f : Factory) : Factory :=
  {| db := db f; bloom := bloom f; store := store f; size := size f; tick := t |}.

(** *** Prepare *)

(** The loop [for rows.Next()]: a row that fails to scan is logged and
    skipped, any other is added to the filter. *)
Fixpoint warmRows (rows : list ScanResult) (b : Bloom.t BF)
  : Bloom.t BF * list LogEntry :=
  match rows with
  | [] => (b, [])
  | ScanErr e :: rows' =>
      let '(b', l) := warmRows rows' b in
      (b', warn e "factory: failed to parse ID" :: l)
  | ScanOk id :: rows' => warmRows rows' (Bloom.Add BF (fasterByte id) b)
  end.

(** [Prepare] returns the factory and what it logged.  The progress bar is
    not modelled. *)
Definition Prepare (f : Factory) : Factory * list LogEntry :=
  let '(idCount, err) := countScan (db f) in
  let l0 := match err with
            | Some e => [warn e "factory: failed to get IDs count"]
            | None => []
            end in
  if (0 <? idCount)%N then
    match idsQuery (db f) with
    | inl e => (f, l0 ++ [warn e "factory: failed to get IDs"])
    | inr rows =>
        let '(b, l) := warmRows rows (bloom f) in
        (set_bloom b f,
         l0 ++ l ++ [{| level := InfoLevel; cause := None;
                        message := "factory: cached %s IDs";
                        arg := Some idCount |}])
    end
  else (f, l0).

(** *** Shutdown *)

Definition Shutdown (f : Factory) : Factory := set_tick (Stop (tick f)) f.

(** *** The allocate operations *)

Definition GetBucket (f : Factory)
  : (option protos_Bucket * option Status) * Factory :=
  let '(ids, _, m) := Pop (store f) in
  if decide (length ids = 0) then
    ((None, Some {| code := ResourceExhausted; msg := "factory: it's empty here" |}),
     set_store m f)
  else ((Some {| Ids := ids |}, None), set_store m f).

Definition GetLocalBucket (f : Factory)
  : (list string * option error) * Factory :=
  let '(ids, _, m) := Pop (store f) in
  if decide (length ids = 0) then
    (([], Some "factory: it's empty here"), set_store m f)
  else ((ids, None), set_store m f).

(** *** populateBucket, statement by statement *)

(** Lines 120-122: the identifier when [err == nil], [id != ""] and the
    filter does not know it. *)
Definition candidate (f : Factory) (g : Gen) : option string :=
  match g with
  | (id, None) =>
      if decide (id ≠ "") then
        if Bloom.Exists BF (fasterByte id) (bloom f) then None else Some id
      else None
  | (_, Some _) => None
  end.

(** Line 123, [f.store.buckets[idx][fillCount] = id]; [None] is the index
    panic of Go. *)
Definition put (idx fillCount : nat) (id : string) (f : Factory) : option Factory :=
  match buckets (store f) !! idx with
  | Some b =>
      if decide (fillCount < length b) then
        Some (set_store
                {| buckets := <[idx := <[fillCount := id]> b]> (buckets (store f));
                   status := status (store f);
                   capacity := capacity (store f) |} f)
      else None
  | None => None
  end.

(** Line 124. *)
Definition remember (id : string) (f : Factory) : Factory :=
  set_bloom (Bloom.Add BF (fasterByte id) (bloom f)) f.

(** [f.store.status[idx] = s] under the lock (lines 97 and 130); [None] is
    the index panic of Go. *)
Definition setStatus (idx : nat) (s : BucketStatus) (f : Factory) : option Factory :=
  if decide (idx < length (status (store f))) then
    Some (set_store
            {| buckets := buckets (store f);
               status := <[idx := s]> (status (store f));
               capacity := capacity (store f) |} f)
  else None.

(** How a call of [populateBucket] ends when [nanoid.New] answers with the
    given list: the bucket is filled and some answers are left; or the
    answers run out while the loop is still going; or an index is out of
    range. *)
Inductive FillResult :=
| Filled (f : Factory) (rest : list Gen)
| Spinning (f : Factory) (fillCount : nat)
| Panicked.

Fixpoint fillLoop (gens : list Gen) (f : Factory) (idx fillCount : nat) : FillResult :=
  if decide (fillCount < capacity (store f)) then
    match gens with
    | [] => Spinning f fillCount
    | g :: gens' =>
        match candidate f g with
        | Some id =>
            match put idx fillCount id f with
            | Some f' => fillLoop gens' (remember id f') idx (S fillCount)
            | None => Panicked
            end
        | None => fillLoop gens' f idx fillCount
        end
    end
  else
    match setStatus idx BucketFull f with
    | Some f' => Filled f' gens
    | None => Panicked
    end.

(** [populateBucket] run alone; logging and timing are not modelled. *)
Definition populateBucket (gens : list Gen) (f : Factory) (idx : nat) : FillResult :=
  fillLoop gens f idx 0.

(** *** The running system *)

(** Where a goroutine running [populateBucket] stands: at the loop test of
    line 119, before the store of line 123 with an accepted identifier, or
    before the [Add] of line 124. *)
Inductive PC := AtLoop | AtStore (id : string) | AtAdd (id : string).

Record Task : Type := { t_idx : nat; fillCount : nat; pc : PC }.

(** The factory, the scheduler goroutine of [Run] ([None] before [Run];
    else the indices its [range] loop has still to visit), the goroutines
    that fill buckets, and the batches handed to consumers, latest first.
    [Run] is started once, as the lifecycle of the Factory has it: there is
    one scheduler goroutine.  The critical section of lines 95-98 is one
    event here; [execFine] below takes line 96 and line 97 apart. *)
Record System : Type := {
  fac : Factory;
  sched : option (list nat);
  tasks : list Task;
  handed : list (list string);
}.

Inductive Event :=
| EvRun                      (* Run: the scheduler goroutine starts *)
| EvTimer                    (* the ticker sends on tick.C *)
| EvTick                     (* lines 92-93: receive, GetEmpty *)
| EvMark                     (* lines 95-98, for the next idx of the range *)
| EvGen (n : nat) (g : Gen)  (* task n, lines 119-122 *)
| EvStore (n : nat)          (* task n, line 123 *)
| EvAdd (n : nat)            (* task n, lines 124-125 *)
| EvFull (n : nat)           (* task n, lines 119 and 129-131 *)
| EvGetBucket
| EvGetLocalBucket
| EvShutdown.

Inductive Outcome := Next (s : System) | Disabled | Panic.

Definition set_fac (f : Factory) (s : System) : System :=
  {| fac := f; sched := sched s; tasks := tasks s; handed := handed s |}.

Definition set_task (n : nat) (t : Task) (f : Factory) (s : System) : System :=
  {| fac := f; sched := sched s; tasks := <[n := t]> (tasks s); handed := handed s |}.

Definition exec (e : Event) (s : System) : Outcome :=
  match e with
  | EvRun =>
      match sched s with
      | None => Next {| fac := fac s; sched := Some []; tasks := tasks s;
                        handed := handed s |}
      | Some _ => Disabled
      end
  | EvTimer =>
      if running (tick (fac s)) then
        Next (set_fac (set_tick {| running := true; C := true |} (fac s)) s)
      else Disabled
  | EvTick =>
      match sched s with
      | Some [] =>
          if C (tick (fac s)) then
            Next {| fac := set_tick {| running := running (tick (fac s)); C := false |} (fac s);
                    sched := Some (GetEmpty (store (fac s)));
                    tasks := tasks s; handed := handed s |}
          else Disabled
      | _ => Disabled
      end
  | EvMark =>
      match sched s with
      | Some (idx :: rest) =>
          match setStatus idx BucketBusy (fac s) with
          | Some f' =>
              Next {| fac := f'; sched := Some rest;
                      tasks := tasks s ++ [{| t_idx := idx; fillCount := 0; pc := AtLoop |}];
                      handed := handed s |}
          | None => Panic
          end
      | _ => Disabled
      end
  | EvGen n g =>
      match tasks s !! n with
      | Some {| t_idx := idx; fillCount := k; pc := AtLoop |} =>
          if decide (k < capacity (store (fac s))) then
            match candidate (fac s) g with
            | Some id => Next (set_task n {| t_idx := idx; fillCount := k; pc := AtStore id |}
                                 (fac s) s)
            | None => Next s
            end
          else Disabled
      | _ => Disabled
      end
  | EvStore n =>
      match tasks s !! n with
      | Some {| t_idx := idx; fillCount := k; pc := AtStore id |} =>
          match put idx k id (fac s) with
          | Some f' => Next (set_task n {| t_idx := idx; fillCount := k; pc := AtAdd id |} f' s)
          | None => Panic
          end
      | _ => Disabled
      end
  | EvAdd n =>
      match tasks s !! n with
      | Some {| t_idx := idx; fillCount := k; pc := AtAdd id |} =>
          Next (set_task n {| t_idx := idx; fillCount := S k; pc := AtLoop |}
                  (remember id (fac s)) s)
      | _ => Disabled
      end
  | EvFull n =>
      match tasks s !! n with
      | Some {| t_idx := idx; fillCount := k; pc := AtLoop |} =>
          if decide (k < capacity (store (fac s))) then Disabled
          else
            match setStatus idx BucketFull (fac s) with
            | Some f' => Next {| fac := f'; sched := sched s;
                                 tasks := delete n (tasks s); handed := handed s |}
            | None => Panic
            end
      | _ => Disabled
      end
  | EvGetBucket =>
      let '(r, f') := GetBucket (fac s) in
      Next {| fac := f'; sched := sched s; tasks := tasks s;
              handed := match r with
                        | (Some b, _) => Ids b :: handed s
                        | (None, _) => handed s
                        end |}
  | EvGetLocalBucket =>
      let '(r, f') := GetLocalBucket (fac s) in
      Next {| fac := f'; sched := sched s; tasks := tasks s;
              handed := match r with
                        | (ids, None) => ids :: handed s
                        | (_, Some _) => handed s
                        end |}
  | EvShutdown => Next (set_fac (Shutdown (fac s)) s)
  end.

Fixpoint run (evs : list Event) (s : System) : Outcome :=
  match evs with
  | [] => Next s
  | e :: evs' =>
      match exec e s with
      | Next s' => run evs' s'
      | o => o
      end
  end.

(** The process after [NewFactory(config, db).Prepare()]. *)
Definition boot (config : Config) (d : DB) : System := {|
  fac := (Prepare (NewFactory config d)).1;
  sched := None;
  tasks := [];
  handed := [];
|}.

Definition reachable (config : Config) (d : DB) (s : System) : Prop :=
  ∃ evs, run evs (boot config d) = Next s.

End Factory.

Arguments db {BF} _.
Arguments bloom {BF} _.
Arguments store {BF} _.
Arguments size {BF} _.
Arguments tick {BF} _.
Arguments fac {BF} _.
Arguments sched {BF} _.
Arguments tasks {BF} _.
Arguments handed {BF} _.
Arguments Next {BF} _.
Arguments Disabled {BF}.
Arguments Panic {BF}.
Arguments Filled {BF} _ _.
Arguments Spinning {BF} _ _.
Arguments Panicked {BF}.

(** ** Lines 95-98, statement by statement *)

(** [exec] takes the critical section of the scheduler, lines 95-98, as one
    event.  In the source the goroutine of line 96 exists before line 97
    writes Busy, and it takes the mutex only at line 129: it can run lines
    119-125 while the status of its bucket is still Empty.  The finer
    system has these states: [held] says that the scheduler goroutine is
    between line 96 and line 97 for the first index of [sched], the mutex
    locked. *)
Record FineSystem {BF : Bloom.Impl} : Type := {
  sys : System BF;
  held : bool;
}.

Arguments FineSystem BF : clear implicits.

Inductive FineEvent :=
| EvGo             (* lines 95-96: Lock, go populateBucket(idx) *)
| Ev (e : Event).  (* EvMark: lines 97-98; any other event: as in exec *)

Inductive FineOutcome {BF : Bloom.Impl} :=
| FineNext (s : FineSystem BF) | FineDisabled | FinePanic.

Arguments FineOutcome BF : clear implicits.

Definition fine {BF : Bloom.Impl} (h : bool) (o : Outcome BF) : FineOutcome BF :=
  match o with
  | Next s => FineNext {| sys := s; held := h |}
  | Disabled => FineDisabled
  | Panic => FinePanic
  end.

(** While the scheduler holds the mutex, lines 129-131 and [Pop] wait for
    it; lines 119-125, the ticker and [Shutdown] take no lock. *)
Definition execFine {BF : Bloom.Impl} (e : FineEvent) (s : FineSystem BF)
    : FineOutcome BF :=
  match e with
  | EvGo =>
      match sched (sys s), held s with
      | Some (idx :: _), false =>
          FineNext
            {| sys := {| fac := fac (sys s); sched := sched (sys s);
                         tasks := tasks (sys s) ++
                                  [{| t_idx := idx; fillCount := 0; pc := AtLoop |}];
                         handed := handed (sys s) |};
               held := true |}
      | _, _ => FineDisabled
      end
  | Ev EvMark =>
      match sched (sys s), held s with
      | Some (idx :: rest), true =>
          match setStatus BF idx BucketBusy (fac (sys s)) with
          | Some f' =>
              FineNext
                {| sys := {| fac := f'; sched := Some rest; tasks := tasks (sys s);
                             handed := handed (sys s) |};
                   held := false |}
          | None => FinePanic
          end
      | _, _ => FineDisabled
      end
  | Ev (EvFull n) =>
      if held s then FineDisabled else fine false (exec BF (EvFull n) (sys s))
  | Ev EvGetBucket =>
      if held s then FineDisabled else fine false (exec BF EvGetBucket (sys s))
  | Ev EvGetLocalBucket =>
      if held s then FineDisabled else fine false (exec BF EvGetLocalBucket (sys s))
  | Ev e' => fine (held s) (exec BF e' (sys s))
  end.

Fixpoint runFine {BF : Bloom.Impl} (evs : list FineEvent) (s : FineSystem BF)
    : FineOutcome BF :=
  match evs with
  | [] => FineNext s
  | e :: evs' =>
      match execFine e s with
      | FineNext s' => runFine evs' s'
      | o => o
      end
  end.

Definition bootFine {BF : Bloom.Impl} (config : Config BF) (d : DB) : FineSystem BF :=
  {| sys := boot BF config d; held := false |}.

Definition reachableFine {BF : Bloom.Impl} (config : Config BF) (d : DB)
    (s : FineSystem BF) : Prop :=
  ∃ evs, runFine evs (bootFine config d) = FineNext s.

(** The bucket the scheduler is marking: its goroutine is started and its
    status is not yet written. *)
Definition marking {BF : Bloom.Impl} (s : FineSystem BF) : option nat :=
  if held s then
    match sched (sys s) with
    | Some (idx :: _) => Some idx
    | _ => None
    end
  else None.

(** The state once lines 97-98 have run, if the scheduler is before them. *)
Definition settle {BF : Bloom.Impl} (s : FineSystem BF) : System BF :=
  if held s then
    match sched (sys s) with
    | Some (idx :: rest) =>
        match setStatus BF idx BucketBusy (fac (sys s)) with
        | Some f' => {| fac := f'; sched := Some rest; tasks := tasks (sys s);
                        handed := handed (sys s) |}
        | None => sys s
        end
    | _ => sys s
    end
  else sys s.

(** A run of [exec] as a run of the finer system: each [EvMark] is line 96
    followed at once by line 97. *)
Fixpoint refine (evs : list Event) : list FineEvent :=
  match evs with
  | [] => []
  | EvMark :: evs' => EvGo :: Ev EvMark :: refine evs'
  | e :: evs' => Ev e :: refine evs'
  end.

(** ** The route handlers for links (package main, in the same file) *)

Module Handler.

Record LinkCreateRequest : Type := { Tag : string; Target : string }.

(** A [*fiber.Error] returned by a handler. *)
Inductive FiberError := ErrBadRequest | ErrInternalServerError.

Section Handlers.

(** The struct [Link] and [NewLink] are declared elsewhere: [Link] is any
    type with a zero value and the field [ID]. *)
Context {Link : Type} (zero : Link) (ID : Link → string)
  (NewLink : string → string → string → Link).

(** The states of the collaborators a [Handler] points to: the backend,
    the ingestor, the cache and the reserve.  Each has a state of its own: a
    method of one does not change another. *)
Context {B I K R : Type}.

(** The interface [Store], as far as the handlers call it. *)
Record Store : Type := {
  Store_Get : string → B → (Link * option error) * B;
  Store_Update : Link → B → option error * B;
  Store_Delete : string → B → option error * B;
}.

(** The methods of the other collaborators that the handlers call:
    [HGetAll(ctx, id).Scan(&link)] reads the cache and gives what it left
    in [link] and its error; [HSet] writes; [Push] queues a link; [GetID]
    takes an identifier from the reserve. *)
Record Deps : Type := {
  HGetAllScan : K → string → Link → Link * option error;
  HSet : string → Link → K → K;
  Push : Link → I → I;
  GetID : R → (string * option error) * R;
}.

Context (Sto : Store) (Dep : Deps).

Record World : Type := { backend : B; ingestor : I; cache : K; reserve : R }.

(** What the handler reads from [*fiber.Ctx]: the route parameters and
    what [BodyParser] leaves in its target, with its error. *)
Record Ctx : Type := {
  Params : string → string;
  BodyCreate : LinkCreateRequest * option error;
  BodyLink : Link * option error;
}.

Inductive Body := LinkBody (l : Link) | MapBody (m : list (string * string)).

(** What the handler returns: an error, or the result of
    [c.Status(code).JSON(body)] or of [c.SendStatus(code)]. *)
Inductive Reply := Error (e : FiberError) | JSON (code : nat) (body : Body)
  | SendStatus (code : nat).

Definition StatusOK : nat := 200.

(** Logging is not modelled. *)
Definition Create (c : Ctx) (w : World) : Reply * World :=
  let '(req, err) := BodyCreate c in
  match err with
  | Some _ => (Error ErrBadRequest, w)
  | None =>
      let '((id, err), r) := GetID Dep (reserve w) in
      match err with
      | Some _ =>
          (Error ErrInternalServerError,
           {| backend := backend w; ingestor := ingestor w; cache := cache w;
              reserve := r |})
      | None =>
          let link := NewLink id (Target req) (Tag req) in
          (JSON StatusOK (MapBody [("status", "Link Created"); ("id", ID link)]),
           {| backend := backend w; ingestor := Push Dep link (ingestor w);
              cache := cache w; reserve := r |})
      end
  end.

Definition Update (c : Ctx) (w : World) : Reply * World :=
  let '(link, err) := BodyLink c in
  match err with
  | Some _ => (Error ErrBadRequest, w)
  | None =>
      let '(err, b) := Store_Update Sto link (backend w) in
      let w' := {| backend := b; ingestor := ingestor w; cache := cache w;
                   reserve := reserve w |} in
      match err with
      | Some _ => (Error ErrInternalServerError, w')
      | None => (SendStatus StatusOK, w')
      end
  end.

(** The [link] declared in the [if] block is a new variable: the one that
    [JSON] gets at the end is the outer one, which [Scan] wrote to. *)
Definition Get (c : Ctx) (w : World) : Reply * World :=
  let id := Params c "id" in
  if decide (String.length id = 0) then (Error ErrBadRequest, w)
  else
    let '(link, err) := HGetAllScan Dep (cache w) id zero in
    match err with
    | Some _ =>
        let '((link', err'), b) := Store_Get Sto id (backend w) in
        match err' with
        | Some _ =>
            (Error ErrBadRequest,
             {| backend := b; ingestor := ingestor w; cache := cache w;
                reserve := reserve w |})
        | None =>
            (JSON StatusOK (LinkBody link),
             {| backend := b; ingestor := ingestor w;
                cache := HSet Dep id link' (cache w); reserve := reserve w |})
        end
    | None => (JSON StatusOK (LinkBody link), w)
    end.

Definition Delete (c : Ctx) (w : World) : Reply * World :=
  let id := Params c "id" in
  if decide (String.length id = 0) then (Error ErrBadRequest, w)
  else
    let '(err, b) := Store_Delete Sto id (backend w) in
    let w' := {| backend := b; ingestor := ingestor w; cache := cache w;
                 reserve := reserve w |} in
    match err with
    | Some _ => (Error ErrInternalServerError, w')
    | None => (SendStatus StatusOK, w')
    end.

End Handlers.

End Handler.

(** ** Vocabulary of the statements *)

(** The identifiers of the rows that scanned. *)
Definition scanned (rows : list ScanResult) : list string :=
  omap (λ r, match r with ScanOk id => Some id | ScanErr _ => None end) rows.

(** The filter after [Add] of each identifier of a list, first to last. *)
Definition warm (BF : Bloom.Impl) (ids : list string) (b : Bloom.t BF) : Bloom.t BF :=
  foldl (λ b id, Bloom.Add BF (fasterByte id) b) b ids.

Definition outcome_map {BF : Bloom.Impl} (h : System BF → System BF)
    (o : Outcome BF) : Outcome BF :=
  match o with
  | Next s => Next (h s)
  | Disabled => Disabled
  | Panic => Panic
  end.

(** The fill algorithm in the words of the spec, without pool or bound: each
    generated candidate that the filter knows is discarded; any other is
    added to the filter at once and appended to the batch. *)
Fixpoint accepted (BF : Bloom.Impl) (b : Bloom.t BF) (gens : list Gen) : list string :=
  match gens with
  | [] => []
  | (id, None) :: gens' =>
      if decide (id = "") then accepted BF b gens'
      else if Bloom.Exists BF (fasterByte id) b then accepted BF b gens'
      else id :: accepted BF (Bloom.Add BF (fasterByte id) b) gens'
  | (_, Some _) :: gens' => accepted BF b gens'
  end.

(** [f'] is [f] after a fill goroutine for bucket [idx] put the identifiers
    [acc] into the slots from [k] on and added them to the filter; the
    statuses are not looked at. *)
Definition filled_from {BF : Bloom.Impl} (f : Factory BF) (idx k : nat)
    (acc : list string) (f' : Factory BF) : Prop :=
  db f' = db f ∧ size f' = size f ∧ tick f' = tick f ∧
  capacity (store f') = capacity (store f) ∧
  bloom f' = warm BF acc (bloom f) ∧
  ∃ b0, buckets (store f) !! idx = Some b0 ∧
        buckets (store f') =
          <[idx := take k b0 ++ acc ++ drop (k + length acc) b0]> (buckets (store f)).

(** The status changes an event may make to a bucket. *)
Definition moves (e : Event) (a b : BucketStatus) : Prop :=
  match e with
  | EvMark => a = BucketEmpty ∧ b = BucketBusy
  | EvFull _ => a = BucketBusy ∧ b = BucketFull
  | EvGetBucket | EvGetLocalBucket => a = BucketFull ∧ b = BucketEmpty
  | _ => False
  end.

(** What holds of every state of a run: the pool is well formed; the
    indices the scheduler has still to visit are distinct and Empty; the
    fill goroutines work on distinct buckets, all Busy, and their counters
    stay within the capacity. *)
Record Inv {BF : Bloom.Impl} (s : System BF) : Prop := {
  inv_wf : store_wf (store (fac s));
  inv_sched : ∀ l, sched s = Some l →
      NoDup l ∧ ∀ i, i ∈ l → status (store (fac s)) !! i = Some BucketEmpty;
  inv_busy : ∀ n t, tasks s !! n = Some t →
      status (store (fac s)) !! t_idx t = Some BucketBusy;
  inv_distinct : ∀ n m t u, tasks s !! n = Some t → tasks s !! m = Some u →
      t_idx t = t_idx u → n = m;
  inv_count : ∀ n t, tasks s !! n = Some t →
      fillCount t ≤ capacity (store (fac s)) ∧
      (pc t ≠ AtLoop → fillCount t < capacity (store (fac s)));
}.

(** No fill goroutine stands between the test of line 122 and the end of
    line 125. *)
Definition quiet {BF : Bloom.Impl} (s : System BF) : bool :=
  forallb (λ t, match pc t with AtLoop => true | _ => false end) (tasks s).

(** A run in which lines 120-125 are never entered by one goroutine while
    another is between its test and its [Add]. *)
Fixpoint serial {BF : Bloom.Impl} (evs : list Event) (s : System BF) : bool :=
  match evs with
  | [] => true
  | e :: evs' =>
      match e with EvGen _ _ => quiet s | _ => true end &&
      match exec BF e s with
      | Next s' => serial evs' s'
      | _ => true
      end
  end.

(** [lv] lists, bucket by bucket, the identifiers that are in the pool to be
    handed out: a Full bucket counts whole, a Busy one up to the counter of
    its goroutine, an Empty one not at all.  Together with the identifiers
    already handed out they are distinct and known to the filter; at most
    one goroutine holds an accepted candidate, which the filter does not
    know yet. *)
Record Fresh {BF : Bloom.Impl} (s : System BF) (lv : list (list string)) : Prop := {
  fr_full : ∀ i b, status (store (fac s)) !! i = Some BucketFull →
      buckets (store (fac s)) !! i = Some b → lv !! i = Some b;
  fr_task : ∀ n t b, tasks s !! n = Some t →
      buckets (store (fac s)) !! t_idx t = Some b →
      lv !! t_idx t = Some (take (fillCount t) b);
  fr_empty : ∀ i, status (store (fac s)) !! i = Some BucketEmpty → lv !! i = Some [];
  fr_NoDup : NoDup (concat (handed s) ++ concat lv);
  fr_known : ∀ id, id ∈ concat (handed s) ++ concat lv →
      Bloom.Exists BF (fasterByte id) (bloom (fac s)) = true;
  fr_one : ∀ n m t u, tasks s !! n = Some t → tasks s !! m = Some u →
      pc t ≠ AtLoop → pc u ≠ AtLoop → n = m;
  fr_held : ∀ n t id, tasks s !! n = Some t →
      pc t = AtStore id ∨ pc t = AtAdd id →
      Bloom.Exists BF (fasterByte id) (bloom (fac s)) = false;
  fr_stored : ∀ n t id, tasks s !! n = Some t → pc t = AtAdd id →
      ∃ b, buckets (store (fac s)) !! t_idx t = Some b ∧ b !! fillCount t = Some id;
}.

(** The events of [exec] case by case, as a relation: [step s e s'] holds
    exactly when [exec] takes [s] to [s'] by [e]. *)
Inductive step {BF : Bloom.Impl} (s : System BF) : Event → System BF → Prop :=
| step_Run :
    sched s = None →
    step s EvRun {| fac := fac s; sched := Some []; tasks := tasks s; handed := handed s |}
| step_Timer :
    running (tick (fac s)) = true →
    step s EvTimer (set_fac BF (set_tick BF {| running := true; C := true |} (fac s)) s)
| step_Tick :
    sched s = Some [] → C (tick (fac s)) = true →
    step s EvTick
      {| fac := set_tick BF {| running := running (tick (fac s)); C := false |} (fac s);
         sched := Some (GetEmpty (store (fac s)));
         tasks := tasks s; handed := handed s |}
| step_Mark idx rest f' :
    sched s = Some (idx :: rest) →
    setStatus BF idx BucketBusy (fac s) = Some f' →
    step s EvMark
      {| fac := f'; sched := Some rest;
         tasks := tasks s ++ [{| t_idx := idx; fillCount := 0; pc := AtLoop |}];
         handed := handed s |}
| step_Gen_accept n g idx k id :
    tasks s !! n = Some {| t_idx := idx; fillCount := k; pc := AtLoop |} →
    k < capacity (store (fac s)) →
    candidate BF (fac s) g = Some id →
    step s (EvGen n g)
      (set_task BF n {| t_idx := idx; fillCount := k; pc := AtStore id |} (fac s) s)
| step_Gen_discard n g idx k :
    tasks s !! n = Some {| t_idx := idx; fillCount := k; pc := AtLoop |} →
    k < capacity (store (fac s)) →
    candidate BF (fac s) g = None →
    step s (EvGen n g) s
| step_Store n idx k id f' :
    tasks s !! n = Some {| t_idx := idx; fillCount := k; pc := AtStore id |} →
    put BF idx k id (fac s) = Some f' →
    step s (EvStore n)
      (set_task BF n {| t_idx := idx; fillCount := k; pc := AtAdd id |} f' s)
| step_Add n idx k id :
    tasks s !! n = Some {| t_idx := idx; fillCount := k; pc := AtAdd id |} →
    step s (EvAdd n)
      (set_task BF n {| t_idx := idx; fillCount := S k; pc := AtLoop |}
         (remember BF id (fac s)) s)
| step_Full n idx k f' :
    tasks s !! n = Some {| t_idx := idx; fillCount := k; pc := AtLoop |} →
    ¬ k < capacity (store (fac s)) →
    setStatus BF idx BucketFull (fac s) = Some f' →
    step s (EvFull n)
      {| fac := f'; sched := sched s; tasks := delete n (tasks s); handed := handed s |}
| step_GetBucket :
    step s EvGetBucket
      {| fac := set_store BF (Pop (store (fac s))).2 (fac s);
         sched := sched s; tasks := tasks s;
         handed := match (Pop (store (fac s))).1.1 with
                   | [] => handed s
                   | _ :: _ => (Pop (store (fac s))).1.1 :: handed s
                   end |}
| step_GetLocalBucket :
    step s EvGetLocalBucket
      {| fac := set_store BF (Pop (store (fac s))).2 (fac s);
         sched := sched s; tasks := tasks s;
         handed := match (Pop (store (fac s))).1.1 with
                   | [] => handed s
                   | _ :: _ => (Pop (store (fac s))).1.1 :: handed s
                   end |}
| step_Shutdown :
    step s EvShutdown (set_fac BF (Shutdown BF (fac s)) s).

(** The scheduler cannot start a fill any more: the ticker is stopped, no
    tick waits in its channel and no index is left to mark. *)
Definition stopped {BF : Bloom.Impl} (s : System BF) : Prop :=
  running (tick (fac s)) = false ∧ C (tick (fac s)) = false ∧
  (sched s = None ∨ sched s = Some []).

(** [lv] lists, bucket by bucket, the identifiers that are in the pool to be
    handed out (a Full bucket whole, a Busy one up to the counter of its
    goroutine, an Empty one not at all).  They and the identifiers already
    handed out satisfy [P] for the filter as it is now; the candidate a
    goroutine holds between its test and its [Add] satisfies [H], and sits
    in the slot of its counter once line 123 has run. *)
Record Live {BF : Bloom.Impl} (P : Bloom.t BF → string → Prop) (H : string → Prop)
    (s : System BF) (lv : list (list string)) : Prop := {
  lv_full : ∀ i b, status (store (fac s)) !! i = Some BucketFull →
      buckets (store (fac s)) !! i = Some b → lv !! i = Some b;
  lv_task : ∀ n t b, tasks s !! n = Some t →
      buckets (store (fac s)) !! t_idx t = Some b →
      lv !! t_idx t = Some (take (fillCount t) b);
  lv_empty : ∀ i, status (store (fac s)) !! i = Some BucketEmpty → lv !! i = Some [];
  lv_stored : ∀ n t id, tasks s !! n = Some t → pc t = AtAdd id →
      ∃ b, buckets (store (fac s)) !! t_idx t = Some b ∧ b !! fillCount t = Some id;
  lv_issued : ∀ id, id ∈ concat (handed s) ++ concat lv → P (bloom (fac s)) id;
  lv_held : ∀ n t id, tasks s !! n = Some t →
      pc t = AtStore id ∨ pc t = AtAdd id → H id;
}.

(** What holds between line 96 and line 97: the index is the first of
    [sched], and its bucket is still Empty. *)
Definition FineInv {BF : Bloom.Impl} (s : FineSystem BF) : Prop :=
  held s = true →
  ∃ idx rest, sched (sys s) = Some (idx :: rest) ∧
              status (store (fac (sys s))) !! idx = Some BucketEmpty.

(** ** Examples *)

Definition smallConfig (buckets capacity : nat) : Config SmallBloom :=
  Build_Config SmallBloom 100 tt buckets capacity 4.

(** A record store without history, and one with two identifiers. *)
Definition dbEmpty : DB := {| countScan := (0%N, None); idsQuery := inr [] |}.

Definition dbTwo : DB :=
  {| countScan := (2%N, None); idsQuery := inr [ScanOk "abcd"; ScanOk "efgh"] |}.

(** The state a run ends in ([boot] itself when the run is not possible). *)
Definition stateAfter (config : Config SmallBloom) (d : DB) (evs : list Event)
    : System SmallBloom :=
  match run SmallBloom evs (boot SmallBloom config d) with
  | Next s => s
  | _ => boot SmallBloom config d
  end.

(** One tick of the scheduler up to the snapshot of the empty buckets. *)
Definition ticked : list Event := [EvRun; EvTimer; EvTick].

(** Two buckets of one slot.  Both fill goroutines draw the candidate "aaaa"
    and both ask the filter before either has added it. *)
Definition race : list Event :=
  ticked ++
  [EvMark; EvMark;
   EvGen 0 ("aaaa", None); EvGen 1 ("aaaa", None);
   EvStore 0; EvAdd 0; EvStore 1; EvAdd 1;
   EvFull 0; EvFull 0;
   EvGetLocalBucket; EvGetBucket].

(** A pool of one bucket without slots: the fill goroutine has nothing to
    generate and marks the bucket Full at once. *)
Definition filledWithoutSlots : list Event := ticked ++ [EvMark; EvFull 0].

(** Answers of the generator: a known identifier, an empty one, a failure,
    a fresh one twice, and three more fresh ones. *)
Definition answers : list Gen :=
  [("abcd", None); ("", None); ("", Some "no entropy"); ("wxyz", None);
   ("wxyz", None); ("ijkl", None); ("mnop", None); ("qrst", None)].

(** Scenario A: one bucket of three slots is filled and handed out. *)
Definition scenarioA : list Event :=
  ticked ++
  [EvMark;
   EvGen 0 ("abcd", None); EvStore 0; EvAdd 0;
   EvGen 0 ("abcd", None);
   EvGen 0 ("ijkl", None); EvStore 0; EvAdd 0;
   EvGen 0 ("mnop", None); EvStore 0; EvAdd 0;
   EvFull 0; EvGetLocalBucket].

(** One bucket of one slot, filled with "aaaa". *)
Definition oneFilled : list Event :=
  ticked ++ [EvMark; EvGen 0 ("aaaa", None); EvStore 0; EvAdd 0; EvFull 0].

(** The factory of scenario C: one bucket of three slots, warmed up from
    [dbTwo]. *)
Definition warmed : Factory SmallBloom :=
  (Prepare SmallBloom (NewFactory SmallBloom (smallConfig 1 3) dbTwo)).1.

(** A run over the history of [dbTwo]: the generator gives "abcd" first,
    which the filter knows, and then three fresh identifiers. *)
Definition afterHistory : list Event :=
  ticked ++
  [EvMark;
   EvGen 0 ("abcd", None);
   EvGen 0 ("wxyz", None); EvStore 0; EvAdd 0;
   EvGen 0 ("ijkl", None); EvStore 0; EvAdd 0;
   EvGen 0 ("mnop", None); EvStore 0; EvAdd 0;
   EvFull 0; EvGetLocalBucket].

(** Three calls that need no scheduler. *)
Definition callsOnly : list Event := [EvGetBucket; EvShutdown; EvGetLocalBucket].

(** Handlers over links that are their target, with a backend that knows
    every identifier and a cache that is a list of entries and fails on
    every read. *)
Definition demoStore : @Handler.Store string unit := {|
  Handler.Store_Get := λ id b, (("backend:" +:+ id, None), b);
  Handler.Store_Update := λ _ b, (None, b);
  Handler.Store_Delete := λ _ b, (None, b);
|}.

Definition demoDeps : @Handler.Deps string (list string) (list (string * string)) unit := {|
  Handler.HGetAllScan := λ _ _ l, (l, Some "redis: nil");
  Handler.HSet := λ id l k, (id, l) :: k;
  Handler.Push := λ l q, q ++ [l];
  Handler.GetID := λ r, (("abcd", None), r);
|}.

Definition demoWorld : @Handler.World unit (list string) (list (string * string)) unit :=
  {| Handler.backend := tt; Handler.ingestor := []; Handler.cache := [];
     Handler.reserve := tt |}.

Definition demoCtx (id : string) : @Handler.Ctx string := {|
  Handler.Params := λ _, id;
  Handler.BodyCreate := ({| Handler.Tag := "t"; Handler.Target := "https://example.org" |}, None);
  Handler.BodyLink := ("https://example.org", None);
|}.

(** The state a run of the finer system ends in. *)
Definition fineAfter (config : Config SmallBloom) (d : DB) (evs : list FineEvent)
    : FineSystem SmallBloom :=
  match runFine evs (bootFine config d) with
  | FineNext s => s
  | _ => bootFine config d
  end.

(** The goroutine for bucket 0 draws "aaaa" before the scheduler has
    written Busy. *)
Definition early : list FineEvent :=
  [Ev EvRun; Ev EvTimer; Ev EvTick; EvGo; Ev (EvGen 0 ("aaaa", None))].

(** * Properties *)

(** ** fasterByte *)

Lemma get_lt (s : string) (i : nat) :
  i < String.length s → ∃ a, String.get i s = Some a.
Proof.
  revert i. induction s as [|c s IH]; intros i Hi; simpl in *; [lia|].
  destruct i as [|i]; [by eexists|]. apply IH. lia.
Qed.

Lemma get_ge (s : string) (i : nat) :
  String.length s ≤ i → String.get i s = None.
Proof.
  revert i. induction s as [|c s IH]; intros i Hi; simpl in *; [done|].
  destruct i as [|i]; [lia|]. apply IH. lia.
Qed.

Lemma fasterByte_lookup (s : string) (i : nat) :
  fasterByte s !! i = byte_of_ascii <$> String.get i s.
Proof.
  unfold fasterByte. rewrite list_lookup_fmap.
  destruct (decide (i < String.length s)) as [Hlt|Hge].
  - rewrite lookup_seq_lt by done. simpl.
    destruct (get_lt s i Hlt) as [a Ha]. unfold byteAt. by rewrite Ha.
  - rewrite lookup_seq_ge by lia. by rewrite get_ge by lia.
Qed.

(** C10: [fasterByte s] has the length of [s], and its [i]-th element is the
    [i]-th byte of [s] (there is none past the end on either side). *)
Theorem fasterByte_is_the_bytes (s : string) :
  length (fasterByte s) = String.length s ∧
  ∀ i, fasterByte s !! i = byte_of_ascii <$> String.get i s.
Proof.
  split; [|apply fasterByte_lookup].
  unfold fasterByte. by rewrite length_fmap, length_seq.
Qed.

(** Keys are told apart exactly as identifiers are. *)
Lemma fasterByte_inj (s1 s2 : string) : fasterByte s1 = fasterByte s2 → s1 = s2.
Proof.
  intros Heq. apply String.get_correct. intros n.
  assert (H : byte_of_ascii <$> String.get n s1 = byte_of_ascii <$> String.get n s2)
    by (by rewrite <- !fasterByte_lookup, Heq).
  destruct (String.get n s1) as [a|], (String.get n s2) as [b|]; simpl in H; try done.
  f_equal. rewrite <- (ascii_of_byte_of_ascii a), <- (ascii_of_byte_of_ascii b).
  congruence.
Qed.

(** ** The filter instance *)

Lemma PositionBloom_laws hashes : Bloom.Laws (PositionBloom hashes).
Proof.
  split; simpl.
  - intros k b. apply forallb_forall. intros h Hh.
    apply bool_decide_eq_true. apply elem_of_app. left.
    apply list_elem_of_fmap. exists h. split; [done|]. by apply list_elem_of_In.
  - intros k k' b H. apply forallb_forall. intros h Hh.
    rewrite forallb_forall in H. specialize (H h Hh).
    apply bool_decide_eq_true in H. apply bool_decide_eq_true.
    apply elem_of_app. by right.
Qed.

(** ** The bucket pool *)

Lemma firstFull_Some (st : list BucketStatus) (j i : nat) :
  firstFull j st = Some i →
  j ≤ i ∧ st !! (i - j) = Some BucketFull ∧
  ∀ k, k < i - j → st !! k ≠ Some BucketFull.
Proof.
  revert j. induction st as [|a st IH]; intros j H; simpl in H; [done|].
  destruct a.
  - apply IH in H as (Hle & Hi & Hk). split; [lia|].
    replace (i - j) with (S (i - S j)) by lia. split; [done|].
    intros [|k] Hlt; simpl; [done|]. apply Hk. lia.
  - apply IH in H as (Hle & Hi & Hk). split; [lia|].
    replace (i - j) with (S (i - S j)) by lia. split; [done|].
    intros [|k] Hlt; simpl; [done|]. apply Hk. lia.
  - injection H as <-. split; [lia|]. rewrite Nat.sub_diag. split; [done|]. lia.
Qed.

Lemma firstFull_None (st : list BucketStatus) (j : nat) :
  firstFull j st = None ↔ BucketFull ∉ st.
Proof.
  revert j. induction st as [|a st IH]; intros j; simpl.
  - split; [intros _; apply not_elem_of_nil | done].
  - rewrite not_elem_of_cons. destruct a; rewrite ?IH.
    + split; [by intros ? | by intros [_ ?]].
    + split; [by intros ? | by intros [_ ?]].
    + split; [done | by intros [? _]].
Qed.

Lemma GetEmpty_spec (m : MemStore) (i : nat) :
  i ∈ GetEmpty m ↔ status m !! i = Some BucketEmpty.
Proof.
  unfold GetEmpty. rewrite list_elem_of_filter, elem_of_seq.
  split; [by intros [? _]|]. intros H. split; [done|].
  apply lookup_lt_Some in H. lia.
Qed.

Lemma GetEmpty_NoDup (m : MemStore) : NoDup (GetEmpty m).
Proof. apply NoDup_filter, NoDup_seq. Qed.

Lemma NewMemStore_wf (n c : nat) : store_wf (NewMemStore n c).
Proof.
  split; simpl; [by rewrite !length_replicate|].
  apply Forall_replicate. by rewrite length_replicate.
Qed.

Lemma Pop_found (m : MemStore) ids m' :
  Pop m = (ids, true, m') →
  ∃ i, status m !! i = Some BucketFull ∧
       (∀ k, k < i → status m !! k ≠ Some BucketFull) ∧
       ids = default [] (buckets m !! i) ∧
       buckets m' = buckets m ∧ capacity m' = capacity m ∧
       status m' = <[i := BucketEmpty]> (status m).
Proof.
  unfold Pop. destruct (firstFull 0 (status m)) as [i|] eqn:Hff; [|done].
  intros [= <- <-]. apply firstFull_Some in Hff as (_ & Hi & Hk).
  rewrite Nat.sub_0_r in Hi, Hk. by exists i.
Qed.

Lemma Pop_not_found (m : MemStore) ids m' :
  Pop m = (ids, false, m') → (BucketFull ∉ status m) ∧ ids = [] ∧ m' = m.
Proof.
  unfold Pop. destruct (firstFull 0 (status m)) as [i|] eqn:Hff; [done|].
  intros [= <- <-]. by apply firstFull_None in Hff.
Qed.

Lemma Pop_wf (m : MemStore) : store_wf m → store_wf (Pop m).2.
Proof.
  intros [Hl Hb]. unfold Pop. destruct (firstFull 0 (status m)); simpl; [|done].
  split; simpl; [by rewrite length_insert | done].
Qed.

(** In a well-formed pool, the batch that [Pop] yields has [capacity]
    identifiers when some bucket is Full, and is empty when none is. *)
Lemma Pop_batch (m : MemStore) :
  store_wf m →
  (BucketFull ∈ status m → length (Pop m).1.1 = capacity m ∧ (Pop m).1.2 = true) ∧
  (BucketFull ∉ status m → (Pop m).1.1 = [] ∧ (Pop m).1.2 = false).
Proof.
  intros [Hl Hb]. destruct (Pop m) as [[ids [|]] m'] eqn:HP; simpl.
  - apply Pop_found in HP as (i & Hi & _ & -> & _). split.
    + intros _. split; [|done].
      destruct (buckets m !! i) as [b|] eqn:Hbi.
      * simpl. eapply Forall_lookup_1 in Hb; eauto.
      * apply lookup_ge_None in Hbi. apply lookup_lt_Some in Hi. lia.
    + intros Hno. exfalso. apply Hno. by eapply list_elem_of_lookup_2.
  - apply Pop_not_found in HP as (Hno & -> & _). split; [done|]. done.
Qed.

Lemma Pop_frame (m : MemStore) :
  buckets (Pop m).2 = buckets m ∧ capacity (Pop m).2 = capacity m ∧
  (status (Pop m).2 = status m ∨
   ∃ i, status m !! i = Some BucketFull ∧
        status (Pop m).2 = <[i := BucketEmpty]> (status m)).
Proof.
  destruct (Pop m) as [[ids [|]] m'] eqn:HP; simpl.
  - apply Pop_found in HP as (i & Hi & _ & _ & Hb & Hc & Hs). eauto 8.
  - apply Pop_not_found in HP as (_ & _ & ->). auto.
Qed.

Section Allocate.

Context (BF : Bloom.Impl).

Lemma GetBucket_pool (f : Factory BF) :
  (GetBucket BF f).2 = set_store BF (Pop (store f)).2 f.
Proof.
  unfold GetBucket. destruct (Pop (store f)) as [[ids fnd] m]. simpl.
  by destruct (decide (length ids = 0)).
Qed.

Lemma GetLocalBucket_pool (f : Factory BF) :
  (GetLocalBucket BF f).2 = set_store BF (Pop (store f)).2 f.
Proof.
  unfold GetLocalBucket. destruct (Pop (store f)) as [[ids fnd] m]. simpl.
  by destruct (decide (length ids = 0)).
Qed.

Lemma GetBucket_result (f : Factory BF) :
  (GetBucket BF f).1 =
    match (Pop (store f)).1.1 with
    | [] => (None, Some {| code := ResourceExhausted; msg := "factory: it's empty here" |})
    | _ :: _ => (Some {| Ids := (Pop (store f)).1.1 |}, None)
    end.
Proof.
  unfold GetBucket. destruct (Pop (store f)) as [[ids fnd] m]. simpl.
  by destruct ids.
Qed.

Lemma GetLocalBucket_result (f : Factory BF) :
  (GetLocalBucket BF f).1 =
    match (Pop (store f)).1.1 with
    | [] => ([], Some "factory: it's empty here")
    | _ :: _ => ((Pop (store f)).1.1, None)
    end.
Proof.
  unfold GetLocalBucket. destruct (Pop (store f)) as [[ids fnd] m]. simpl.
  by destruct ids.
Qed.

(** C8: the remote and the local allocate leave the same pool, the one
    [Pop] leaves; either both succeed with the batch that [Pop] yields, or
    both fail, with the same message. *)
Theorem GetBucket_GetLocalBucket_agree (f : Factory BF) :
  (GetBucket BF f).2 = set_store BF (Pop (store f)).2 f ∧
  (GetLocalBucket BF f).2 = set_store BF (Pop (store f)).2 f ∧
  (((Pop (store f)).1.1 ≠ [] ∧
    (GetBucket BF f).1 = (Some {| Ids := (Pop (store f)).1.1 |}, None) ∧
    (GetLocalBucket BF f).1 = ((Pop (store f)).1.1, None))
   ∨
   ((Pop (store f)).1.1 = [] ∧
    (GetBucket BF f).1 =
      (None, Some {| code := ResourceExhausted; msg := "factory: it's empty here" |}) ∧
    (GetLocalBucket BF f).1 = ([], Some "factory: it's empty here"))).
Proof.
  rewrite GetBucket_pool, GetLocalBucket_pool, GetBucket_result,
    GetLocalBucket_result.
  split; [done|]. split; [done|].
  destruct (Pop (store f)).1.1 as [|id ids]; [by right | by left].
Qed.

(** C3, as the code has it: in every well-formed pool the remote and the
    local allocate fail exactly when [Pop] yields no identifiers; a failure
    carries no identifier, the remote one has the code ResourceExhausted, and
    a success carries a batch of [capacity] identifiers.  With at least one
    slot per bucket, [Pop] yields no identifiers exactly when no bucket is
    Full.  Both calls are plain functions of the pool: nothing waits. *)
Theorem Allocate_exhausted (f : Factory BF) :
  store_wf (store f) →
  ((Pop (store f)).1.1 = [] →
     (GetBucket BF f).1 =
       (None, Some {| code := ResourceExhausted; msg := "factory: it's empty here" |}) ∧
     (GetLocalBucket BF f).1 = ([], Some "factory: it's empty here")) ∧
  ((Pop (store f)).1.1 ≠ [] →
     length (Pop (store f)).1.1 = capacity (store f) ∧
     (GetBucket BF f).1 = (Some {| Ids := (Pop (store f)).1.1 |}, None) ∧
     (GetLocalBucket BF f).1 = ((Pop (store f)).1.1, None)) ∧
  (0 < capacity (store f) →
     (BucketFull ∉ status (store f) ↔ (Pop (store f)).1.1 = [])).
Proof.
  intros Hwf. destruct (Pop_batch _ Hwf) as [HF HN].
  rewrite GetBucket_result, GetLocalBucket_result.
  split_and!.
  - by intros ->.
  - intros Hne. split.
    + destruct (decide (BucketFull ∈ status (store f))) as [Hin|Hno].
      * by apply HF.
      * by destruct (HN Hno).
    + by destruct (Pop (store f)).1.1.
  - intros Hc. split; [by intros H; apply HN|].
    intros Hnil Hin. destruct (HF Hin) as [Hlen _]. rewrite Hnil in Hlen.
    simpl in Hlen. lia.
Qed.

End Allocate.

Section Warmup.

Context (BF : Bloom.Impl).

Lemma warmRows_bloom (rows : list ScanResult) (b : Bloom.t BF) :
  (warmRows BF rows b).1 = warm BF (scanned rows) b.
Proof.
  revert b. induction rows as [|[id|e] rows IH]; intros b; simpl; [done| |].
  - apply IH.
  - specialize (IH b). by destruct (warmRows BF rows b).
Qed.

Lemma warmRows_log (rows : list ScanResult) (b : Bloom.t BF) :
  Forall (λ e, level e = WarnLevel) (warmRows BF rows b).2.
Proof.
  revert b. induction rows as [|[id|e] rows IH]; intros b; simpl; [done| |].
  - apply IH.
  - specialize (IH b). destruct (warmRows BF rows b). by constructor.
Qed.

Lemma warm_mono (HL : Bloom.Laws BF) (ids : list string) (b : Bloom.t BF) k :
  Bloom.Exists BF k b = true → Bloom.Exists BF k (warm BF ids b) = true.
Proof.
  revert b. induction ids as [|id ids IH]; intros b H; simpl; [done|].
  apply IH. by apply (Bloom.Exists_mono _ HL).
Qed.

Lemma warm_Exists (HL : Bloom.Laws BF) (ids : list string) (b : Bloom.t BF) id :
  id ∈ ids → Bloom.Exists BF (fasterByte id) (warm BF ids b) = true.
Proof.
  revert b. induction ids as [|x ids IH]; intros b Hin; [by apply elem_of_nil in Hin|].
  apply elem_of_cons in Hin as [->|Hin]; simpl.
  - apply (warm_mono HL). apply (Bloom.Exists_Add _ HL).
  - by apply IH.
Qed.

Lemma Prepare_bloom (f : Factory BF) :
  bloom (Prepare BF f).1 =
    match idsQuery (db f) with
    | inr rows =>
        if (0 <? (countScan (db f)).1)%N then warm BF (scanned rows) (bloom f)
        else bloom f
    | inl _ => bloom f
    end.
Proof.
  unfold Prepare. destruct (countScan (db f)) as [K e]. simpl.
  destruct (0 <? K)%N; [|by destruct (idsQuery (db f))].
  destruct (idsQuery (db f)) as [e'|rows]; [done|].
  rewrite <- warmRows_bloom. by destruct (warmRows BF rows (bloom f)).
Qed.

(** C5: when the count query leaves K > 0 and the stream delivers its
    rows, the filter after [Prepare] is the old one with every scanned
    identifier added, and [Exists] answers true for each of them; these
    are all K identifiers of the store when every row is delivered and
    scans. *)
Theorem Prepare_covers_history (HL : Bloom.Laws BF) (f : Factory BF)
    (K : N) (e : option error) (rows : list ScanResult) :
  countScan (db f) = (K, e) → (0 < K)%N → idsQuery (db f) = inr rows →
  bloom (Prepare BF f).1 = warm BF (scanned rows) (bloom f) ∧
  ∀ id, ScanOk id ∈ rows →
        Bloom.Exists BF (fasterByte id) (bloom (Prepare BF f).1) = true.
Proof.
  intros HK Hpos Hq. rewrite Prepare_bloom, Hq, HK. simpl.
  apply N.ltb_lt in Hpos. rewrite Hpos. split; [done|].
  intros id Hin. apply (warm_Exists HL). unfold scanned.
  apply list_elem_of_omap. by exists (ScanOk id).
Qed.

Lemma Prepare_frame (f : Factory BF) :
  db (Prepare BF f).1 = db f ∧ store (Prepare BF f).1 = store f ∧
  size (Prepare BF f).1 = size f ∧ tick (Prepare BF f).1 = tick f.
Proof.
  unfold Prepare. destruct (countScan (db f)) as [K e]. simpl.
  destruct (0 <? K)%N; [|done].
  destruct (idsQuery (db f)) as [e'|rows]; [done|].
  by destruct (warmRows BF rows (bloom f)).
Qed.

Lemma Prepare_log (f : Factory BF) :
  Forall (λ e, level e = InfoLevel ∨ level e = WarnLevel) (Prepare BF f).2.
Proof.
  unfold Prepare. destruct (countScan (db f)) as [K e].
  assert (H0 : Forall (λ e, level e = InfoLevel ∨ level e = WarnLevel)
                 match e with
                 | Some e0 => [warn e0 "factory: failed to get IDs count"]
                 | None => []
                 end)
    by (destruct e; [apply Forall_singleton; by right | apply Forall_nil_2]).
  destruct (0 <? K)%N; [|done].
  destruct (idsQuery (db f)) as [e'|rows]; simpl.
  - apply Forall_app. split; [done|]. apply Forall_singleton. by right.
  - pose proof (warmRows_log rows (bloom f)) as Hl.
    destruct (warmRows BF rows (bloom f)) as [b l]. simpl in *.
    rewrite !Forall_app. split_and!; [done| |].
    + eapply Forall_impl; [exact Hl|]. intros ? ?. by right.
    + apply Forall_singleton. by left.
Qed.

(** C7: whatever the count query, the stream and the scans answer,
    [Prepare] returns the factory it was given with at most the filter
    changed: the filter is the old one when a query fails or the count is
    0, and else has the identifiers of the rows that scanned; nothing above
    a warning is logged. *)
Theorem Prepare_never_aborts (f : Factory BF) :
  db (Prepare BF f).1 = db f ∧ store (Prepare BF f).1 = store f ∧
  size (Prepare BF f).1 = size f ∧ tick (Prepare BF f).1 = tick f ∧
  bloom (Prepare BF f).1 =
    match idsQuery (db f) with
    | inr rows =>
        if (0 <? (countScan (db f)).1)%N then warm BF (scanned rows) (bloom f)
        else bloom f
    | inl _ => bloom f
    end ∧
  Forall (λ e, level e = InfoLevel ∨ level e = WarnLevel) (Prepare BF f).2.
Proof.
  destruct (Prepare_frame f) as (? & ? & ? & ?).
  split_and!; try done; [apply Prepare_bloom | apply Prepare_log].
Qed.

End Warmup.

(** ** The running system *)

Section Running.

Context (BF : Bloom.Impl).

Implicit Types (f : Factory BF) (s : System BF).

Lemma setStatus_Some idx a f f' :
  setStatus BF idx a f = Some f' →
  idx < length (status (store f)) ∧
  status (store f') = <[idx := a]> (status (store f)) ∧
  buckets (store f') = buckets (store f) ∧
  capacity (store f') = capacity (store f) ∧
  bloom f' = bloom f ∧ tick f' = tick f ∧ db f' = db f ∧ size f' = size f.
Proof. unfold setStatus. case_decide; [|done]. by intros [= <-]. Qed.

Lemma setStatus_in_range idx a f :
  idx < length (status (store f)) → is_Some (setStatus BF idx a f).
Proof. intros H. unfold setStatus. rewrite decide_True by done. by eexists. Qed.

Lemma put_Some idx k id f f' :
  put BF idx k id f = Some f' →
  ∃ b, buckets (store f) !! idx = Some b ∧ k < length b ∧
       buckets (store f') = <[idx := <[k := id]> b]> (buckets (store f)) ∧
       status (store f') = status (store f) ∧
       capacity (store f') = capacity (store f) ∧
       bloom f' = bloom f ∧ tick f' = tick f ∧ db f' = db f ∧ size f' = size f.
Proof.
  unfold put. destruct (buckets (store f) !! idx) as [b|] eqn:Hb; [|done].
  case_decide; [|done]. intros [= <-]. by exists b.
Qed.

Lemma put_in_range idx k id f :
  store_wf (store f) → idx < length (status (store f)) →
  k < capacity (store f) → is_Some (put BF idx k id f).
Proof.
  intros [Hl Hb] Hidx Hk. unfold put.
  destruct (lookup_lt_is_Some_2 (buckets (store f)) idx) as [b Hbi]; [lia|].
  rewrite Hbi. eapply Forall_lookup_1 in Hb; eauto. simpl in Hb.
  rewrite decide_True by lia. by eexists.
Qed.

Lemma setStatus_wf idx a f f' :
  setStatus BF idx a f = Some f' → store_wf (store f) → store_wf (store f').
Proof.
  intros (_ & Hs & Hb & Hc & _)%setStatus_Some [Hl HF].
  split; rewrite ?Hs, ?Hb, ?Hc, ?length_insert; done.
Qed.

Lemma put_wf idx k id f f' :
  put BF idx k id f = Some f' → store_wf (store f) → store_wf (store f').
Proof.
  intros (b & Hbi & Hk & Hb & Hs & Hc & _)%put_Some [Hl HF].
  split; rewrite ?Hs, ?Hb, ?Hc, ?length_insert; [done|].
  apply Forall_insert; [done|]. rewrite length_insert.
  eapply Forall_lookup_1 in HF; eauto.
Qed.

(** Events that leave every status, the capacity and the bucket of every
    fill goroutine as they are keep the invariant. *)
Lemma Inv_frame s s' :
  Inv s →
  store_wf (store (fac s')) →
  status (store (fac s')) = status (store (fac s)) →
  capacity (store (fac s')) = capacity (store (fac s)) →
  (∀ l, sched s' = Some l →
     NoDup l ∧ ∀ i, i ∈ l → status (store (fac s)) !! i = Some BucketEmpty) →
  (∀ n t', tasks s' !! n = Some t' →
     ∃ t, tasks s !! n = Some t ∧ t_idx t' = t_idx t ∧
          fillCount t' ≤ capacity (store (fac s)) ∧
          (pc t' ≠ AtLoop → fillCount t' < capacity (store (fac s)))) →
  Inv s'.
Proof.
  intros [Hwf Hsc Hbusy Hdis Hcnt] Hwf' Hst Hcap Hsc' Htk.
  split; rewrite ?Hst, ?Hcap; try done.
  - intros n t' (t & Ht & -> & _)%Htk. eauto.
  - intros n m t' u' (t & Ht & -> & _)%Htk (u & Hu & -> & _)%Htk. eauto.
  - intros n t' (t & Ht & _ & H)%Htk. done.
Qed.

(** Replacing the program counter and the counter of goroutine [n]. *)
Lemma Inv_set_task s n idx k p k' p' f' :
  Inv s →
  tasks s !! n = Some {| t_idx := idx; fillCount := k; pc := p |} →
  store_wf (store f') →
  status (store f') = status (store (fac s)) →
  capacity (store f') = capacity (store (fac s)) →
  k' ≤ capacity (store (fac s)) →
  (p' ≠ AtLoop → k' < capacity (store (fac s))) →
  Inv (set_task BF n {| t_idx := idx; fillCount := k'; pc := p' |} f' s).
Proof.
  intros HI Hn Hwf Hst Hcap Hk Hp. apply (Inv_frame s); simpl; try done.
  - intros l Hl. by apply (inv_sched s HI).
  - intros j t' Hj. destruct (decide (j = n)) as [->|Hne].
    + rewrite list_lookup_insert_eq in Hj by (by eapply lookup_lt_Some).
      injection Hj as <-. eexists. split; [exact Hn|]. done.
    + rewrite list_lookup_insert_ne in Hj by done.
      exists t'. split; [done|]. split; [done|]. by apply (inv_count s HI j).
Qed.

Lemma Inv_same_tasks s n t :
  Inv s → tasks s !! n = Some t →
  ∃ t0, tasks s !! n = Some t0 ∧ t_idx t = t_idx t0 ∧
        fillCount t ≤ capacity (store (fac s)) ∧
        (pc t ≠ AtLoop → fillCount t < capacity (store (fac s))).
Proof. intros HI Ht. exists t. split_and!; try done; by apply (inv_count s HI n). Qed.

Lemma lookup_delete_Some (l : list Task) n j t :
  delete n l !! j = Some t →
  ∃ j', j' ≠ n ∧ l !! j' = Some t ∧ (j < n ∧ j' = j ∨ n ≤ j ∧ j' = S j).
Proof.
  intros H. destruct (decide (j < n)) as [Hlt|Hge].
  - rewrite list_lookup_delete_lt in H by done. exists j. split_and!; [lia|done|lia].
  - rewrite list_lookup_delete_ge in H by lia. exists (S j). split_and!; [lia|done|lia].
Qed.

Lemma Inv_Mark s idx rest f' :
  Inv s → sched s = Some (idx :: rest) →
  setStatus BF idx BucketBusy (fac s) = Some f' →
  Inv {| fac := f'; sched := Some rest;
         tasks := tasks s ++ [{| t_idx := idx; fillCount := 0; pc := AtLoop |}];
         handed := handed s |}.
Proof.
  intros HI Hs Hf. pose proof (setStatus_wf _ _ _ _ Hf (inv_wf s HI)) as Hwf.
  apply setStatus_Some in Hf as (Hlt & Hst & Hb & Hc & _).
  destruct (inv_sched s HI _ Hs) as [Hnd Hem].
  apply NoDup_cons in Hnd as [Hnotin Hnd].
  assert (Hidx : status (store (fac s)) !! idx = Some BucketEmpty)
    by (apply Hem; left).
  assert (Hold : ∀ n t, tasks s !! n = Some t → t_idx t ≠ idx).
  { intros n t Ht Heq. apply (inv_busy s HI) in Ht. congruence. }
  split; simpl; rewrite ?Hst, ?Hc; try done.
  - intros l [= <-]. split; [done|]. intros i Hi.
    rewrite list_lookup_insert_ne by (intros ->; done). apply Hem. by right.
  - intros n t [Ht|[_ Ht]]%lookup_app_Some.
    + rewrite list_lookup_insert_ne by (symmetry; eauto). by eapply inv_busy.
    + apply list_lookup_singleton_Some in Ht as [_ <-]. simpl.
      by apply list_lookup_insert_eq.
  - intros n m t u [Ht|[Hn Ht]]%lookup_app_Some [Hu|[Hm Hu]]%lookup_app_Some Heq.
    + by eapply inv_distinct.
    + apply list_lookup_singleton_Some in Hu as [_ <-]. by apply Hold in Ht.
    + apply list_lookup_singleton_Some in Ht as [_ <-]. symmetry in Heq.
      by apply Hold in Hu.
    + apply list_lookup_singleton_Some in Ht as [? _].
      apply list_lookup_singleton_Some in Hu as [? _]. lia.
  - intros n t [Ht|[_ Ht]]%lookup_app_Some.
    + by eapply inv_count.
    + apply list_lookup_singleton_Some in Ht as [_ <-]. simpl. split; [lia|done].
Qed.

Lemma Inv_Full s n idx k f' :
  Inv s → tasks s !! n = Some {| t_idx := idx; fillCount := k; pc := AtLoop |} →
  setStatus BF idx BucketFull (fac s) = Some f' →
  Inv {| fac := f'; sched := sched s; tasks := delete n (tasks s);
         handed := handed s |}.
Proof.
  intros HI Hn Hf. pose proof (setStatus_wf _ _ _ _ Hf (inv_wf s HI)) as Hwf.
  apply setStatus_Some in Hf as (Hlt & Hst & Hb & Hc & _).
  pose proof (inv_busy s HI _ _ Hn) as Hbusy. simpl in Hbusy.
  split; simpl; rewrite ?Hst, ?Hc; try done.
  - intros l Hl. destruct (inv_sched s HI _ Hl) as [Hnd Hem]. split; [done|].
    intros i Hi. specialize (Hem i Hi).
    rewrite list_lookup_insert_ne by congruence. done.
  - intros j t (j' & Hne & Ht & _)%lookup_delete_Some.
    rewrite list_lookup_insert_ne.
    + by eapply inv_busy.
    + intros Heq. apply Hne. by eapply (inv_distinct s HI j' n).
  - intros j m t u (j' & _ & Ht & Hj)%lookup_delete_Some
      (m' & _ & Hu & Hm)%lookup_delete_Some Heq.
    pose proof (inv_distinct s HI _ _ _ _ Ht Hu Heq). lia.
  - intros j t (j' & _ & Ht & _)%lookup_delete_Some. by eapply inv_count.
Qed.

Lemma Inv_Pop s :
  Inv s →
  Inv {| fac := set_store BF (Pop (store (fac s))).2 (fac s); sched := sched s;
         tasks := tasks s; handed := handed s |}.
Proof.
  intros HI. pose proof (Pop_wf _ (inv_wf s HI)) as Hwf.
  destruct (Pop_frame (store (fac s))) as (Hb & Hc & Hst).
  split; simpl; rewrite ?Hc; try done.
  - intros l Hl. destruct (inv_sched s HI _ Hl) as [Hnd Hem]. split; [done|].
    intros i Hi. specialize (Hem i Hi).
    destruct Hst as [->|(j & Hj & ->)]; [done|].
    rewrite list_lookup_insert_ne by congruence. done.
  - intros n t Ht. pose proof (inv_busy s HI _ _ Ht) as Hbusy.
    destruct Hst as [->|(j & Hj & ->)]; [done|].
    rewrite list_lookup_insert_ne by congruence. done.
  - by apply (inv_distinct s HI).
  - by apply (inv_count s HI).
Qed.

Lemma exec_Inv e s s' : Inv s → exec BF e s = Next s' → Inv s'.
Proof.
  intros HI He. destruct e as [| | | |n g|n|n|n| | |]; simpl in He.
  - (* EvRun *)
    destruct (sched s) eqn:Hs; [done|]. injection He as <-.
    apply (Inv_frame s); simpl; try done; [by apply (inv_wf s)| |].
    + intros l [= <-]. split; [constructor|]. by intros i ?%elem_of_nil.
    + intros n t. by apply Inv_same_tasks.
  - (* EvTimer *)
    destruct (running (tick (fac s))); [|done]. injection He as <-.
    apply (Inv_frame s); simpl; try done; [by apply (inv_wf s)| |].
    + by apply (inv_sched s).
    + intros n t. by apply Inv_same_tasks.
  - (* EvTick *)
    destruct (sched s) as [[|]|] eqn:Hs; try done.
    destruct (C (tick (fac s))); [|done]. injection He as <-.
    apply (Inv_frame s); simpl; try done; [by apply (inv_wf s)| |].
    + intros l [= <-]. split; [apply GetEmpty_NoDup|].
      intros i. by rewrite GetEmpty_spec.
    + intros n t. by apply Inv_same_tasks.
  - (* EvMark *)
    destruct (sched s) as [[|idx rest]|] eqn:Hs; try done.
    destruct (setStatus BF idx BucketBusy (fac s)) as [f'|] eqn:Hf; [|done].
    injection He as <-. by apply Inv_Mark.
  - (* EvGen *)
    destruct (tasks s !! n) as [[idx k [| |]]|] eqn:Hn; try done.
    case_decide; [|done].
    destruct (candidate BF (fac s) g) as [id|]; injection He as <-; [|done].
    eapply Inv_set_task; eauto; [by apply (inv_wf s) | lia].
  - (* EvStore *)
    destruct (tasks s !! n) as [[idx k [|id|]]|] eqn:Hn; try done.
    destruct (put BF idx k id (fac s)) as [f'|] eqn:Hf; [|done].
    injection He as <-.
    pose proof (put_wf _ _ _ _ _ Hf (inv_wf s HI)) as Hwf.
    apply put_Some in Hf as (b & _ & _ & _ & Hst & Hc & _).
    destruct (inv_count s HI _ _ Hn) as [Hle Hlt]. simpl in *.
    eapply Inv_set_task; eauto.
  - (* EvAdd *)
    destruct (tasks s !! n) as [[idx k [| |id]]|] eqn:Hn; try done.
    injection He as <-.
    destruct (inv_count s HI _ _ Hn) as [Hle Hlt]. simpl in *.
    eapply Inv_set_task; eauto; [by apply (inv_wf s) | by apply Hlt | done].
  - (* EvFull *)
    destruct (tasks s !! n) as [[idx k [| |]]|] eqn:Hn; try done.
    case_decide; [done|].
    destruct (setStatus BF idx BucketFull (fac s)) as [f'|] eqn:Hf; [|done].
    injection He as <-. by eapply Inv_Full.
  - (* EvGetBucket *)
    pose proof (GetBucket_pool BF (fac s)) as Hp.
    destruct (GetBucket BF (fac s)) as [r f']. simpl in Hp. subst f'.
    injection He as <-. apply Inv_Pop in HI.
    destruct HI as [H1 H2 H3 H4 H5]. by split.
  - (* EvGetLocalBucket *)
    pose proof (GetLocalBucket_pool BF (fac s)) as Hp.
    destruct (GetLocalBucket BF (fac s)) as [r f']. simpl in Hp. subst f'.
    injection He as <-. apply Inv_Pop in HI.
    destruct HI as [H1 H2 H3 H4 H5]. by split.
  - (* EvShutdown *)
    injection He as <-.
    apply (Inv_frame s); simpl; try done; [by apply (inv_wf s)| |].
    + by apply (inv_sched s).
    + intros n t. by apply Inv_same_tasks.
Qed.

Lemma run_Inv evs s s' : Inv s → run BF evs s = Next s' → Inv s'.
Proof.
  revert s. induction evs as [|e evs IH]; intros s HI Hr; simpl in Hr.
  - by injection Hr as <-.
  - destruct (exec BF e s) as [s1| |] eqn:He; try done.
    eapply IH; [|done]. by eapply exec_Inv.
Qed.

Lemma boot_Inv config d : Inv (boot BF config d).
Proof.
  destruct (Prepare_frame BF (NewFactory BF config d)) as (_ & Hst & _).
  split; unfold boot; simpl; rewrite ?Hst; try done.
  apply NewMemStore_wf.
Qed.

Lemma reachable_Inv config d s : reachable BF config d s → Inv s.
Proof. intros [evs Hr]. eapply run_Inv; [apply boot_Inv | done]. Qed.

(** What one event does to the statuses, in a state of a run: nothing, or
    one bucket makes the move of that event. *)
Lemma exec_status e s s' :
  Inv s → exec BF e s = Next s' →
  status (store (fac s')) = status (store (fac s)) ∨
  ∃ i a b, status (store (fac s)) !! i = Some a ∧
           status (store (fac s')) = <[i := b]> (status (store (fac s))) ∧
           moves e a b.
Proof.
  intros HI He. destruct e as [| | | |n g|n|n|n| | |]; simpl in He.
  - destruct (sched s); [done|]. injection He as <-. by left.
  - destruct (running (tick (fac s))); [|done]. injection He as <-. by left.
  - destruct (sched s) as [[|]|]; try done.
    destruct (C (tick (fac s))); [|done]. injection He as <-. by left.
  - destruct (sched s) as [[|idx rest]|] eqn:Hs; try done.
    destruct (setStatus BF idx BucketBusy (fac s)) as [f'|] eqn:Hf; [|done].
    injection He as <-. apply setStatus_Some in Hf as (_ & Hst & _).
    destruct (inv_sched s HI _ Hs) as [_ Hem]. right.
    exists idx, BucketEmpty, BucketBusy. split; [apply Hem; left|]. done.
  - destruct (tasks s !! n) as [[idx k [| |]]|]; try done.
    case_decide; [|done].
    destruct (candidate BF (fac s) g); injection He as <-; by left.
  - destruct (tasks s !! n) as [[idx k [|id|]]|]; try done.
    destruct (put BF idx k id (fac s)) as [f'|] eqn:Hf; [|done].
    injection He as <-. apply put_Some in Hf as (b & _ & _ & _ & Hst & _).
    by left.
  - destruct (tasks s !! n) as [[idx k [| |id]]|]; try done.
    injection He as <-. by left.
  - destruct (tasks s !! n) as [[idx k [| |]]|] eqn:Hn; try done.
    case_decide; [done|].
    destruct (setStatus BF idx BucketFull (fac s)) as [f'|] eqn:Hf; [|done].
    injection He as <-. apply setStatus_Some in Hf as (_ & Hst & _).
    right. exists idx, BucketBusy, BucketFull.
    split; [by apply (inv_busy s HI _ _ Hn)|]. done.
  - pose proof (GetBucket_pool BF (fac s)) as Hp.
    destruct (GetBucket BF (fac s)) as [r f']. simpl in Hp. subst f'.
    injection He as <-. simpl.
    destruct (Pop_frame (store (fac s))) as (_ & _ & [Hst|(i & Hi & Hst)]);
      [by left|].
    right. by exists i, BucketFull, BucketEmpty.
  - pose proof (GetLocalBucket_pool BF (fac s)) as Hp.
    destruct (GetLocalBucket BF (fac s)) as [r f']. simpl in Hp. subst f'.
    injection He as <-. simpl.
    destruct (Pop_frame (store (fac s))) as (_ & _ & [Hst|(i & Hi & Hst)]);
      [by left|].
    right. by exists i, BucketFull, BucketEmpty.
  - injection He as <-. by left.
Qed.

(** C4: in every state of a run, an event leaves the status of a bucket as
    it is or takes it from Empty to Busy (the scheduler marking it), from
    Busy to Full (its fill goroutine finishing) or from Full to Empty (an
    allocate); there is no other change, and no bucket appears or
    disappears. *)
Theorem status_transitions config d e s s' :
  reachable BF config d s → exec BF e s = Next s' →
  length (status (store (fac s'))) = length (status (store (fac s))) ∧
  ∀ i a b, status (store (fac s)) !! i = Some a →
           status (store (fac s')) !! i = Some b →
           a = b ∨ moves e a b.
Proof.
  intros HI%reachable_Inv He.
  destruct (exec_status e s s' HI He) as [->|(j & x & y & Hj & -> & Hm)].
  - split; [done|]. intros i a b Ha Hb. left. congruence.
  - split; [by rewrite length_insert|]. intros i a b Ha Hb.
    destruct (decide (i = j)) as [->|Hne].
    + rewrite list_lookup_insert_eq in Hb by (by eapply lookup_lt_Some).
      right. congruence.
    + rewrite list_lookup_insert_ne in Hb by done. left. congruence.
Qed.

(** C6: lines 95-98 write Busy without looking at the status, but in a run
    they are only reached for an index that is Empty at that moment; so a
    bucket that is not Empty keeps its status, and every bucket keeps its
    contents. *)
Theorem Mark_only_Empty config d s s' :
  reachable BF config d s → exec BF EvMark s = Next s' →
  (∃ idx rest, sched s = Some (idx :: rest) ∧
     status (store (fac s)) !! idx = Some BucketEmpty ∧
     status (store (fac s')) = <[idx := BucketBusy]> (status (store (fac s)))) ∧
  buckets (store (fac s')) = buckets (store (fac s)) ∧
  ∀ i, status (store (fac s)) !! i ≠ Some BucketEmpty →
       status (store (fac s')) !! i = status (store (fac s)) !! i.
Proof.
  intros HI%reachable_Inv He. simpl in He.
  destruct (sched s) as [[|idx rest]|] eqn:Hs; try done.
  destruct (setStatus BF idx BucketBusy (fac s)) as [f'|] eqn:Hf; [|done].
  injection He as <-. apply setStatus_Some in Hf as (_ & Hst & Hb & _).
  destruct (inv_sched s HI _ Hs) as [_ Hem]. simpl.
  assert (Hidx : status (store (fac s)) !! idx = Some BucketEmpty)
    by (apply Hem; left).
  split; [by exists idx, rest|]. split; [done|].
  intros i Hi. rewrite Hst. apply list_lookup_insert_ne. congruence.
Qed.

(** X20: no step of a run panics.  In every state of a run, whatever event
    comes next, no index is out of range: neither the scheduler, nor a fill
    goroutine, nor an allocate call panics. *)
Lemma run_never_panics config d e s :
  reachable BF config d s → exec BF e s ≠ Panic.
Proof.
  intros HI%reachable_Inv. destruct e as [| | | |n g|n|n|n| | |]; simpl.
  - by destruct (sched s).
  - by destruct (running (tick (fac s))).
  - destruct (sched s) as [[|]|]; try done. by destruct (C (tick (fac s))).
  - destruct (sched s) as [[|idx rest]|] eqn:Hs; try done.
    destruct (inv_sched s HI _ Hs) as [_ Hem].
    destruct (setStatus_in_range idx BucketBusy (fac s)) as [f' ->]; [|done].
    eapply lookup_lt_Some, Hem. left.
  - destruct (tasks s !! n) as [[idx k [| |]]|]; try done.
    case_decide; [|done]. by destruct (candidate BF (fac s) g).
  - destruct (tasks s !! n) as [[idx k [|id|]]|] eqn:Hn; try done.
    destruct (put_in_range idx k id (fac s)) as [f' ->]; try done.
    + by apply (inv_wf s).
    + eapply lookup_lt_Some. by apply (inv_busy s HI _ _ Hn).
    + by apply (inv_count s HI _ _ Hn).
  - by destruct (tasks s !! n) as [[idx k [| |id]]|].
  - destruct (tasks s !! n) as [[idx k [| |]]|] eqn:Hn; try done.
    case_decide; [done|].
    destruct (setStatus_in_range idx BucketFull (fac s)) as [f' ->]; [|done].
    eapply lookup_lt_Some. by apply (inv_busy s HI _ _ Hn).
  - by destruct (GetBucket BF (fac s)).
  - by destruct (GetLocalBucket BF (fac s)).
  - done.
Qed.

Lemma candidate_Shutdown f g :
  candidate BF (Shutdown BF f) g = candidate BF f g.
Proof. done. Qed.

Lemma put_Shutdown idx k id f :
  put BF idx k id (Shutdown BF f) = Shutdown BF <$> put BF idx k id f.
Proof.
  unfold put. simpl. destruct (buckets (store f) !! idx); [|done].
  by case_decide.
Qed.

Lemma setStatus_Shutdown idx a f :
  setStatus BF idx a (Shutdown BF f) = Shutdown BF <$> setStatus BF idx a f.
Proof. unfold setStatus. simpl. by case_decide. Qed.

(** C9: the event of [Shutdown] is always possible and touches the ticker
    only: the filter, the pool, the identifier size, the scheduler's
    pending range, the fill goroutines and the batches handed out stay as
    they are; afterwards the ticker sends no tick, while every step of a
    fill goroutine is possible exactly as before and has the same effect. *)
Theorem Shutdown_stops_only_the_tick s :
  let shut := λ s, set_fac BF (Shutdown BF (fac s)) s in
  exec BF EvShutdown s = Next (shut s) ∧
  (db (fac (shut s)) = db (fac s) ∧ bloom (fac (shut s)) = bloom (fac s) ∧
   store (fac (shut s)) = store (fac s) ∧ size (fac (shut s)) = size (fac s)) ∧
  (sched (shut s) = sched s ∧ tasks (shut s) = tasks s ∧
   handed (shut s) = handed s) ∧
  exec BF EvTimer (shut s) = Disabled ∧
  (∀ n g, exec BF (EvGen n g) (shut s) = outcome_map shut (exec BF (EvGen n g) s)) ∧
  (∀ n, exec BF (EvStore n) (shut s) = outcome_map shut (exec BF (EvStore n) s)) ∧
  (∀ n, exec BF (EvAdd n) (shut s) = outcome_map shut (exec BF (EvAdd n) s)) ∧
  (∀ n, exec BF (EvFull n) (shut s) = outcome_map shut (exec BF (EvFull n) s)).
Proof.
  simpl. split_and!; try done.
  - intros n g. destruct (tasks s !! n) as [[idx k [| |]]|]; try done.
    case_decide; [|done]. rewrite candidate_Shutdown.
    by destruct (candidate BF (fac s) g).
  - intros n. destruct (tasks s !! n) as [[idx k [|id|]]|]; try done.
    rewrite put_Shutdown. by destruct (put BF idx k id (fac s)).
  - intros n. by destruct (tasks s !! n) as [[idx k [| |id]]|].
  - intros n. destruct (tasks s !! n) as [[idx k [| |]]|]; try done.
    case_decide; [done|]. rewrite setStatus_Shutdown.
    by destruct (setStatus BF idx BucketFull (fac s)).
Qed.

End Running.

(** ** The fill loop *)

Section Fill.

Context (BF : Bloom.Impl).

Implicit Types (f : Factory BF).

Lemma accepted_cons_None f g gens :
  candidate BF f g = None →
  accepted BF (bloom f) (g :: gens) = accepted BF (bloom f) gens.
Proof.
  destruct g as [id [e|]]; simpl; [done|].
  repeat case_decide; try done; try congruence.
  by destruct (Bloom.Exists BF (fasterByte id) (bloom f)).
Qed.

Lemma accepted_cons_Some f g gens id :
  candidate BF f g = Some id →
  accepted BF (bloom f) (g :: gens) =
    id :: accepted BF (Bloom.Add BF (fasterByte id) (bloom f)) gens.
Proof.
  destruct g as [id' [e|]]; simpl; [done|].
  repeat case_decide; try done; try congruence;
    destruct (Bloom.Exists BF (fasterByte id') (bloom f)); congruence.
Qed.

Lemma fillLoop_cons g gens f idx k :
  k < capacity (store f) →
  fillLoop BF (g :: gens) f idx k =
    match candidate BF f g with
    | Some id =>
        match put BF idx k id f with
        | Some f' => fillLoop BF gens (remember BF id f') idx (S k)
        | None => Panicked
        end
    | None => fillLoop BF gens f idx k
    end.
Proof. intros Hk. cbn [fillLoop]. by rewrite decide_True. Qed.

Lemma fillLoop_nil f idx k :
  k < capacity (store f) → fillLoop BF [] f idx k = Spinning f k.
Proof. intros Hk. cbn [fillLoop]. by rewrite decide_True. Qed.

Lemma fillLoop_full gens f idx k :
  ¬ k < capacity (store f) →
  fillLoop BF gens f idx k =
    match setStatus BF idx BucketFull f with
    | Some f' => Filled f' gens
    | None => Panicked
    end.
Proof. intros Hk. destruct gens; cbn [fillLoop]; by rewrite decide_False. Qed.

(** An iteration whose candidate the filter knows changes nothing. *)
Lemma iteration_discards f idx k id e gens :
  k < capacity (store f) →
  Bloom.Exists BF (fasterByte id) (bloom f) = true →
  fillLoop BF ((id, e) :: gens) f idx k = fillLoop BF gens f idx k.
Proof.
  intros Hk Hex. rewrite fillLoop_cons by done.
  assert (Hc : candidate BF f (id, e) = None).
  { unfold candidate. destruct e; [done|]. case_decide; [|done]. by rewrite Hex. }
  by rewrite Hc.
Qed.

Lemma filled_from_nil f idx k b0 :
  buckets (store f) !! idx = Some b0 → filled_from f idx k [] f.
Proof.
  intros Hb. unfold filled_from. split_and!; try done.
  exists b0. split; [done|]. simpl. rewrite Nat.add_0_r, take_drop.
  symmetry. by apply list_insert_id.
Qed.

Lemma filled_from_status f idx k acc f1 f2 :
  filled_from f idx k acc f1 →
  db f2 = db f1 → size f2 = size f1 → tick f2 = tick f1 →
  capacity (store f2) = capacity (store f1) → bloom f2 = bloom f1 →
  buckets (store f2) = buckets (store f1) →
  filled_from f idx k acc f2.
Proof.
  intros (? & ? & ? & ? & ? & b0 & ? & ?) ? ? ? ? ? ?.
  unfold filled_from. split_and!; try congruence.
  exists b0. split; congruence.
Qed.

Lemma filled_from_cons f idx k id f1 acc f' :
  put BF idx k id f = Some f1 →
  filled_from (remember BF id f1) idx (S k) acc f' →
  filled_from f idx k (id :: acc) f'.
Proof.
  intros (b0 & Hb0 & Hk & Hb1 & Hst & Hc & Hbl & Htk & Hdb1 & Hsz1)%put_Some
    (Hdb & Hsz & Htk' & Hc' & Hbl' & b1 & Hb1' & Hbk).
  simpl in *.
  assert (Hidx : idx < length (buckets (store f))) by (by eapply lookup_lt_Some).
  rewrite Hb1, list_lookup_insert_eq in Hb1' by done. injection Hb1' as <-.
  unfold filled_from. split_and!; try congruence.
  - rewrite Hbl'. simpl. by rewrite Hbl.
  - exists b0. split; [done|]. rewrite Hbk, Hb1, list_insert_insert_eq.
    f_equal. rewrite drop_insert_lt by lia.
    rewrite (take_S_r _ _ id) by (by apply list_lookup_insert_eq).
    rewrite take_insert_ge by lia. rewrite <- app_assoc. simpl.
    by replace (k + S (length acc)) with (S (k + length acc)) by lia.
Qed.

Lemma wf_bucket f idx :
  store_wf (store f) → idx < length (status (store f)) →
  ∃ b0, buckets (store f) !! idx = Some b0 ∧ length b0 = capacity (store f).
Proof.
  intros [Hl Hb] Hidx.
  destruct (lookup_lt_is_Some_2 (buckets (store f)) idx) as [b0 Hb0]; [lia|].
  exists b0. split; [done|]. eapply Forall_lookup_1 in Hb; eauto.
Qed.

Lemma fillLoop_exit gens f idx k :
  store_wf (store f) → idx < length (status (store f)) →
  ¬ k < capacity (store f) →
  ∃ f', fillLoop BF gens f idx k = Filled f' gens ∧
        status (store f') = <[idx := BucketFull]> (status (store f)) ∧
        filled_from f idx k [] f'.
Proof.
  intros Hwf Hidx Hk. rewrite fillLoop_full by done.
  destruct (setStatus_in_range BF idx BucketFull f Hidx) as [f' Hf']. rewrite Hf'.
  apply setStatus_Some in Hf' as (_ & Hst & Hb & Hc & Hbl & Htk & Hdb & Hsz).
  exists f'. split; [done|]. split; [done|].
  destruct (wf_bucket f idx Hwf Hidx) as (b0 & Hb0 & _).
  by eapply filled_from_status; [by eapply filled_from_nil|..].
Qed.

(** The loop from counter [k] on, against the batch of the spec. *)
Lemma fillLoop_run idx gens : ∀ f k,
  store_wf (store f) → idx < length (status (store f)) →
  k ≤ capacity (store f) →
  match fillLoop BF gens f idx k with
  | Spinning f' k' =>
      k' = k + length (accepted BF (bloom f) gens) ∧
      k' < capacity (store f) ∧
      status (store f') = status (store f) ∧
      filled_from f idx k (accepted BF (bloom f) gens) f'
  | Filled f' rest =>
      ∃ used, gens = used ++ rest ∧
        k + length (accepted BF (bloom f) used) = capacity (store f) ∧
        (∀ p g q, used = p ++ g :: q →
           k + length (accepted BF (bloom f) p) < capacity (store f)) ∧
        status (store f') = <[idx := BucketFull]> (status (store f)) ∧
        filled_from f idx k (accepted BF (bloom f) used) f'
  | Panicked => False
  end.
Proof.
  induction gens as [|g gens IH]; intros f k Hwf Hidx Hk.
  - destruct (decide (k < capacity (store f))) as [Hlt|Hge].
    + rewrite fillLoop_nil by done. simpl. split_and!; [lia|done|done|].
      destruct (wf_bucket f idx Hwf Hidx) as (b0 & Hb0 & _).
      by eapply filled_from_nil.
    + destruct (fillLoop_exit [] f idx k Hwf Hidx Hge) as (f' & -> & Hst & Hff).
      exists []. simpl. split_and!; [done|lia| |done|done].
      intros p g q Hp. by destruct p.
  - destruct (decide (k < capacity (store f))) as [Hlt|Hge].
    + rewrite fillLoop_cons by done.
      destruct (candidate BF f g) as [id|] eqn:Hcand.
      * destruct (put_in_range BF idx k id f Hwf Hidx Hlt) as [f1 Hput].
        rewrite Hput. pose proof (put_wf _ _ _ _ _ _ Hput Hwf) as Hwf1.
        pose proof Hput as
          (b0 & _ & _ & _ & Hst1 & Hc1 & Hbl1 & _)%put_Some.
        specialize (IH (remember BF id f1) (S k)). simpl in IH.
        rewrite Hst1, Hc1, Hbl1 in IH.
        specialize (IH Hwf1 Hidx ltac:(lia)).
        destruct (fillLoop BF gens (remember BF id f1) idx (S k))
          as [f' rest|f' k'|]; [| |done].
        -- destruct IH as (used & -> & Hlen & Hmin & Hst & Hff).
           exists (g :: used). rewrite (accepted_cons_Some f g used id Hcand).
           simpl. split_and!; [done|lia| |done|by eapply filled_from_cons].
           intros [|g0 p] g1 q Hp; simpl in Hp; [simpl; lia|].
           injection Hp as <- ->.
           rewrite (accepted_cons_Some f g p id Hcand). simpl.
           specialize (Hmin p g1 q eq_refl). lia.
        -- destruct IH as (-> & Hlt' & Hst & Hff).
           rewrite (accepted_cons_Some f g gens id Hcand). simpl.
           split_and!; [lia|done|done|by eapply filled_from_cons].
      * specialize (IH f k Hwf Hidx Hk).
        destruct (fillLoop BF gens f idx k) as [f' rest|f' k'|]; [| |done].
        -- destruct IH as (used & -> & Hlen & Hmin & Hst & Hff).
           exists (g :: used). rewrite (accepted_cons_None f g used Hcand).
           split_and!; try done.
           intros [|g0 p] g1 q Hp; simpl in Hp; [simpl; lia|].
           injection Hp as <- ->.
           rewrite (accepted_cons_None f g p Hcand). by eapply Hmin.
        -- by rewrite (accepted_cons_None f g gens Hcand).
    + destruct (fillLoop_exit (g :: gens) f idx k Hwf Hidx Hge)
        as (f' & -> & Hst & Hff).
      exists []. simpl. split_and!; [done|lia| |done|done].
      intros p g0 q Hp. by destruct p.
Qed.

Lemma accepted_from (b : Bloom.t BF) gens id :
  id ∈ accepted BF b gens → (id, None) ∈ gens ∧ id ≠ "".
Proof.
  revert b. induction gens as [|[x [e|]] gens IH]; intros b Hin; simpl in Hin.
  - by apply elem_of_nil in Hin.
  - destruct (IH _ Hin) as [? ?]. split; [by right | done].
  - case_decide as Hx.
    { destruct (IH _ Hin) as [? ?]. split; [by right | done]. }
    destruct (Bloom.Exists BF (fasterByte x) b).
    { destruct (IH _ Hin) as [? ?]. split; [by right | done]. }
    apply elem_of_cons in Hin as [->|Hin]; [split; [by left | done]|].
    destruct (IH _ Hin) as [? ?]. split; [by right | done].
Qed.

(** The call returns as soon as the generator has given [capacity]
    candidates that are accepted. *)
Lemma populateBucket_returns gens f idx :
  store_wf (store f) → idx < length (status (store f)) →
  capacity (store f) ≤ length (accepted BF (bloom f) gens) →
  ∃ f' rest, populateBucket BF gens f idx = Filled f' rest.
Proof.
  intros Hwf Hidx Hlen. unfold populateBucket.
  pose proof (fillLoop_run idx gens f 0 Hwf Hidx ltac:(lia)) as H.
  destruct (fillLoop BF gens f idx 0) as [f' rest|f' k|]; [by eauto| |done].
  destruct H as (-> & Hlt & _). simpl in Hlt. lia.
Qed.

(** C2: [populateBucket] on a bucket of a well-formed pool never fails.  An
    iteration whose candidate the filter knows leaves everything as it is.
    When the call returns, it has consumed the answers of the generator up
    to the first moment at which [capacity] candidates were accepted, the
    bucket holds exactly these, in order, each of them generated, not empty
    and added to the filter, and the bucket is Full.  While fewer are
    accepted the loop goes on, and the status is untouched; the call does
    return once [capacity] of the answers are accepted. *)
Theorem populateBucket_fills gens f idx :
  store_wf (store f) → idx < length (status (store f)) →
  (∀ k id e gens', k < capacity (store f) →
     Bloom.Exists BF (fasterByte id) (bloom f) = true →
     fillLoop BF ((id, e) :: gens') f idx k = fillLoop BF gens' f idx k) ∧
  (capacity (store f) ≤ length (accepted BF (bloom f) gens) →
     ∃ f' rest, populateBucket BF gens f idx = Filled f' rest) ∧
  match populateBucket BF gens f idx with
  | Filled f' rest =>
      ∃ used, gens = used ++ rest ∧
        let batch := accepted BF (bloom f) used in
        length batch = capacity (store f) ∧
        (∀ p g q, used = p ++ g :: q →
           length (accepted BF (bloom f) p) < capacity (store f)) ∧
        buckets (store f') = <[idx := batch]> (buckets (store f)) ∧
        bloom f' = warm BF batch (bloom f) ∧
        status (store f') = <[idx := BucketFull]> (status (store f)) ∧
        ∀ id, id ∈ batch → (id, None) ∈ used ∧ id ≠ ""
  | Spinning f' k =>
      let batch := accepted BF (bloom f) gens in
      k = length batch ∧ k < capacity (store f) ∧
      status (store f') = status (store f) ∧
      bloom f' = warm BF batch (bloom f) ∧
      ∃ b0, buckets (store f) !! idx = Some b0 ∧
            buckets (store f') = <[idx := batch ++ drop k b0]> (buckets (store f))
  | Panicked => False
  end.
Proof.
  intros Hwf Hidx. split.
  { intros k id e gens' Hk Hex. by apply iteration_discards. }
  split; [by apply populateBucket_returns|].
  unfold populateBucket.
  pose proof (fillLoop_run idx gens f 0 Hwf Hidx ltac:(lia)) as H.
  destruct (fillLoop BF gens f idx 0) as [f' rest|f' k|]; [| |done].
  - destruct H as (used & -> & Hlen & Hmin & Hst &
                   (_ & _ & _ & _ & Hbl & b0 & Hb0 & Hbk)).
    simpl in *. exists used. split_and!; try done.
    + destruct (wf_bucket f idx Hwf Hidx) as (b0' & Hb0' & Hl0).
      assert (b0' = b0) as -> by congruence.
      rewrite Hbk, drop_ge by lia. by rewrite app_nil_r.
    + intros id Hin. by eapply accepted_from.
  - destruct H as (-> & Hlt & Hst & (_ & _ & _ & _ & Hbl & b0 & Hb0 & Hbk)).
    simpl in *. split_and!; try done. by exists b0.
Qed.

Section Laws.

Hypothesis HL : Bloom.Laws BF.

Lemma Exists_mono_false k k' (b : Bloom.t BF) :
  Bloom.Exists BF k (Bloom.Add BF k' b) = false → Bloom.Exists BF k b = false.
Proof.
  intros H. destruct (Bloom.Exists BF k b) eqn:Hb; [|done].
  by rewrite (Bloom.Exists_mono _ HL) in H.
Qed.

Lemma accepted_unknown (b : Bloom.t BF) gens id :
  id ∈ accepted BF b gens → Bloom.Exists BF (fasterByte id) b = false.
Proof.
  revert b. induction gens as [|[x [e|]] gens IH]; intros b Hin; simpl in Hin.
  - by apply elem_of_nil in Hin.
  - by apply IH.
  - case_decide as Hx; [by apply IH|].
    destruct (Bloom.Exists BF (fasterByte x) b) eqn:Hex; [by apply IH|].
    apply elem_of_cons in Hin as [->|Hin]; [done|].
    eapply Exists_mono_false. by apply IH.
Qed.

Lemma accepted_NoDup (b : Bloom.t BF) gens : NoDup (accepted BF b gens).
Proof.
  revert b. induction gens as [|[x [e|]] gens IH]; intros b; simpl.
  - constructor.
  - apply IH.
  - case_decide; [apply IH|].
    destruct (Bloom.Exists BF (fasterByte x) b) eqn:Hex; [apply IH|].
    constructor; [|apply IH].
    intros Hf%accepted_unknown.
    by rewrite (Bloom.Exists_Add _ HL) in Hf.
Qed.

(** Under the contract of the filter, the batch of a fill is made of
    distinct identifiers, none of which the filter knew before and all of
    which it knows afterwards. *)
Lemma batch_fresh (b : Bloom.t BF) gens :
  NoDup (accepted BF b gens) ∧
  ∀ id, id ∈ accepted BF b gens →
        Bloom.Exists BF (fasterByte id) b = false ∧
        Bloom.Exists BF (fasterByte id) (warm BF (accepted BF b gens) b) = true.
Proof.
  split; [apply accepted_NoDup|]. intros id Hin.
  split; [by eapply accepted_unknown | by apply warm_Exists].
Qed.

End Laws.

End Fill.

(** ** Uniqueness when the accept steps do not overlap *)

Lemma concat_insert (lv : list (list string)) (i : nat) (x y : list string) :
  lv !! i = Some x →
  ∃ rest, concat lv ≡ₚ x ++ rest ∧ concat (<[i := y]> lv) ≡ₚ y ++ rest.
Proof.
  revert i. induction lv as [|a lv IH]; intros [|i] Hi; simpl in *; try done.
  - injection Hi as ->. by exists (concat lv).
  - destruct (IH i Hi) as (rest & H1 & H2). exists (a ++ rest). split.
    + rewrite H1. apply Permutation_app_swap_app.
    + rewrite H2. apply Permutation_app_swap_app.
Qed.

Section Unique.

Context (BF : Bloom.Impl) (HL : Bloom.Laws BF).

Implicit Types (f : Factory BF) (s : System BF).

(** Events that touch neither pool, filter, goroutines nor handed batches. *)
Lemma Fresh_frame s s' lv :
  Fresh s lv →
  store (fac s') = store (fac s) → bloom (fac s') = bloom (fac s) →
  tasks s' = tasks s → handed s' = handed s →
  Fresh s' lv.
Proof.
  intros [H1 H2 H3 H4 H5 H6 H7 H8] Hst Hbl Htk Hh.
  split; rewrite ?Hst, ?Hbl, ?Htk, ?Hh; done.
Qed.

Lemma boot_Fresh config d :
  Fresh (boot BF config d) (replicate (BucketSize BF config) []).
Proof.
  destruct (Prepare_frame BF (NewFactory BF config d)) as (_ & Hst & _).
  assert (Hnil : concat (replicate (BucketSize BF config) ([] : list string)) = []).
  { induction (BucketSize BF config); simpl; done. }
  split; unfold boot; simpl; rewrite ?Hst, ?Hnil; simpl; try done.
  - by intros i b [? _]%lookup_replicate.
  - intros i [_ Hi]%lookup_replicate. by apply lookup_replicate_2.
  - constructor.
  - by intros id ?%elem_of_nil.
Qed.

Lemma quiet_spec s n t : quiet s = true → tasks s !! n = Some t → pc t = AtLoop.
Proof.
  unfold quiet. rewrite forallb_forall. intros Hq Ht.
  assert (Hin : In t (tasks s)) by (apply list_elem_of_In; by eapply list_elem_of_lookup_2).
  specialize (Hq t Hin). by destruct (pc t).
Qed.

Lemma candidate_Some f g id :
  candidate BF f g = Some id → Bloom.Exists BF (fasterByte id) (bloom f) = false.
Proof.
  destruct g as [x [e|]]; simpl; [done|]. case_decide; [|done].
  destruct (Bloom.Exists BF (fasterByte x) (bloom f)) eqn:Hex; [done|].
  by intros [= <-].
Qed.

Lemma Fresh_Mark s lv idx rest f' :
  Inv s → Fresh s lv → sched s = Some (idx :: rest) →
  setStatus BF idx BucketBusy (fac s) = Some f' →
  Fresh {| fac := f'; sched := Some rest;
           tasks := tasks s ++ [{| t_idx := idx; fillCount := 0; pc := AtLoop |}];
           handed := handed s |} lv.
Proof.
  intros HI [H1 H2 H3 H4 H5 H6 H7 H8] Hs
    (Hlt & Hst & Hb & Hc & Hbl & _)%setStatus_Some.
  destruct (inv_sched s HI _ Hs) as [_ Hem].
  assert (Hidx : status (store (fac s)) !! idx = Some BucketEmpty)
    by (apply Hem; left).
  split; simpl; rewrite ?Hst, ?Hb, ?Hbl; try done.
  - intros i b Hi Hbi. destruct (decide (i = idx)) as [->|Hne].
    + by rewrite list_lookup_insert_eq in Hi.
    + rewrite list_lookup_insert_ne in Hi by done. eauto.
  - intros n t b [Ht|[_ Ht]]%lookup_app_Some Hbi; [eauto|].
    apply list_lookup_singleton_Some in Ht as [_ <-]. simpl in *. eauto.
  - intros i Hi. destruct (decide (i = idx)) as [->|Hne].
    + by rewrite list_lookup_insert_eq in Hi.
    + rewrite list_lookup_insert_ne in Hi by done. eauto.
  - intros n m t u [Ht|[_ Ht]]%lookup_app_Some [Hu|[_ Hu]]%lookup_app_Some ? ?;
      [eauto|..].
    + by apply list_lookup_singleton_Some in Hu as [_ <-].
    + by apply list_lookup_singleton_Some in Ht as [_ <-].
    + by apply list_lookup_singleton_Some in Ht as [_ <-].
  - intros n t id [Ht|[_ Ht]]%lookup_app_Some Hpc; [eauto|].
    apply list_lookup_singleton_Some in Ht as [_ <-]. by destruct Hpc.
  - intros n t id [Ht|[_ Ht]]%lookup_app_Some Hpc; [eauto|].
    by apply list_lookup_singleton_Some in Ht as [_ <-].
Qed.

Lemma Fresh_Gen s lv n idx k id g :
  Fresh s lv → quiet s = true →
  tasks s !! n = Some {| t_idx := idx; fillCount := k; pc := AtLoop |} →
  candidate BF (fac s) g = Some id →
  Fresh (set_task BF n {| t_idx := idx; fillCount := k; pc := AtStore id |} (fac s) s) lv.
Proof.
  intros [H1 H2 H3 H4 H5 H6 H7 H8] Hq Hn Hex%candidate_Some.
  assert (Hlt : n < length (tasks s)) by (by eapply lookup_lt_Some).
  assert (Hother : ∀ m t, m ≠ n → <[n := {| t_idx := idx; fillCount := k;
                      pc := AtStore id |}]> (tasks s) !! m = Some t → pc t = AtLoop).
  { intros m t Hne Ht. rewrite list_lookup_insert_ne in Ht by done.
    by eapply quiet_spec. }
  split; simpl; try done.
  - intros m t b Ht Hb. destruct (decide (m = n)) as [->|Hne].
    + rewrite list_lookup_insert_eq in Ht by done. injection Ht as <-.
      by apply (H2 n _ b Hn).
    + rewrite list_lookup_insert_ne in Ht by done. eauto.
  - intros m m' t u Ht Hu Hpt Hpu.
    destruct (decide (m = n)) as [->|Hne]; [|by apply Hother in Ht].
    destruct (decide (m' = n)) as [->|Hne']; [done|by apply Hother in Hu].
  - intros m t id' Ht Hpc.
    destruct (decide (m = n)) as [->|Hne].
    + rewrite list_lookup_insert_eq in Ht by done. injection Ht as <-.
      simpl in Hpc. destruct Hpc as [[= <-]|?]; done.
    + apply Hother in Ht; [|done]. rewrite Ht in Hpc. by destruct Hpc.
  - intros m t id' Ht Hpc.
    destruct (decide (m = n)) as [->|Hne].
    + rewrite list_lookup_insert_eq in Ht by done. by injection Ht as <-.
    + apply Hother in Ht; [|done]. congruence.
Qed.

Lemma Fresh_Store s lv n idx k id f' :
  Inv s → Fresh s lv →
  tasks s !! n = Some {| t_idx := idx; fillCount := k; pc := AtStore id |} →
  put BF idx k id (fac s) = Some f' →
  Fresh (set_task BF n {| t_idx := idx; fillCount := k; pc := AtAdd id |} f' s) lv.
Proof.
  intros HI [H1 H2 H3 H4 H5 H6 H7 H8] Hn
    (b & Hb & Hk & Hbk & Hst & Hc & Hbl & _)%put_Some.
  assert (Hlt : n < length (tasks s)) by (by eapply lookup_lt_Some).
  assert (Hidx : idx < length (buckets (store (fac s)))) by (by eapply lookup_lt_Some).
  pose proof (inv_busy s HI _ _ Hn) as Hbusy. simpl in Hbusy.
  assert (Hold : ∀ m t, m ≠ n → tasks s !! m = Some t → t_idx t ≠ idx).
  { intros m t Hne Ht Heq. apply Hne. by eapply (inv_distinct s HI m n). }
  assert (Halone : ∀ m t, m ≠ n → tasks s !! m = Some t → pc t = AtLoop).
  { intros m t Hne Ht. destruct (pc t) eqn:Hpc; [done| |];
      exfalso; apply Hne; eapply (H6 m n); eauto; by rewrite ?Hpc. }
  split; simpl; rewrite ?Hst, ?Hbk, ?Hbl; try done.
  - intros i b' Hi Hbi. rewrite list_lookup_insert_ne in Hbi by congruence. eauto.
  - intros m t b' Ht Hbi. destruct (decide (m = n)) as [->|Hne].
    + rewrite list_lookup_insert_eq in Ht by done. injection Ht as <-. simpl in *.
      rewrite list_lookup_insert_eq in Hbi by done. injection Hbi as <-.
      rewrite take_insert_ge by lia. by apply (H2 n _ b Hn).
    + rewrite list_lookup_insert_ne in Ht by done.
      rewrite list_lookup_insert_ne in Hbi by (symmetry; eauto). eauto.
  - intros m m' t u Ht Hu Hpt Hpu.
    destruct (decide (m = n)) as [->|Hne], (decide (m' = n)) as [->|Hne']; try done.
    + rewrite list_lookup_insert_ne in Hu by done. by apply Halone in Hu.
    + rewrite list_lookup_insert_ne in Ht by done. by apply Halone in Ht.
    + rewrite list_lookup_insert_ne in Ht by done. by apply Halone in Ht.
  - intros m t id' Ht Hpc. destruct (decide (m = n)) as [->|Hne].
    + rewrite list_lookup_insert_eq in Ht by done. injection Ht as <-.
      simpl in Hpc. apply (H7 n _ id' Hn). simpl.
      destruct Hpc as [?|[= <-]]; [done|by left].
    + rewrite list_lookup_insert_ne in Ht by done. eauto.
  - intros m t id' Ht Hpc. destruct (decide (m = n)) as [->|Hne].
    + rewrite list_lookup_insert_eq in Ht by done. injection Ht as <-.
      simpl in *. injection Hpc as <-. exists (<[k := id]> b).
      split; by apply list_lookup_insert_eq.
    + rewrite list_lookup_insert_ne in Ht by done.
      apply Halone in Ht; [|done]. congruence.
Qed.

Lemma Fresh_Add s lv n idx k id :
  Inv s → Fresh s lv →
  tasks s !! n = Some {| t_idx := idx; fillCount := k; pc := AtAdd id |} →
  ∃ lv', Fresh (set_task BF n {| t_idx := idx; fillCount := S k; pc := AtLoop |}
                  (remember BF id (fac s)) s) lv'.
Proof.
  intros HI [H1 H2 H3 H4 H5 H6 H7 H8] Hn.
  assert (Hlt : n < length (tasks s)) by (by eapply lookup_lt_Some).
  destruct (H8 n _ id Hn eq_refl) as (b & Hb & Hbk). simpl in Hb, Hbk.
  pose proof (H2 n _ b Hn Hb) as Hlv. simpl in Hlv.
  pose proof (inv_busy s HI _ _ Hn) as Hbusy. simpl in Hbusy.
  assert (Hold : ∀ m t, m ≠ n → tasks s !! m = Some t → t_idx t ≠ idx).
  { intros m t Hne Ht Heq. apply Hne. by eapply (inv_distinct s HI m n). }
  assert (Halone : ∀ m t, m ≠ n → tasks s !! m = Some t → pc t = AtLoop).
  { intros m t Hne Ht. destruct (pc t) eqn:Hpc; [done| |];
      exfalso; apply Hne; eapply (H6 m n); eauto; by rewrite ?Hpc. }
  assert (Hafter : ∀ m t, <[n := {| t_idx := idx; fillCount := S k; pc := AtLoop |}]>
                            (tasks s) !! m = Some t → pc t = AtLoop).
  { intros m t Ht. destruct (decide (m = n)) as [->|Hne].
    - rewrite list_lookup_insert_eq in Ht by done. by injection Ht as <-.
    - rewrite list_lookup_insert_ne in Ht by done. eauto. }
  assert (Hnew : Bloom.Exists BF (fasterByte id) (bloom (fac s)) = false)
    by (apply (H7 n _ id Hn); by right).
  destruct (concat_insert lv idx _ (take k b ++ [id]) Hlv) as (rest & Hp1 & Hp2).
  assert (Hperm : concat (handed s) ++ concat (<[idx := take k b ++ [id]]> lv)
                  ≡ₚ id :: (concat (handed s) ++ concat lv)).
  { rewrite Hp1, Hp2. rewrite <- (app_assoc (take k b)). simpl.
    rewrite !(app_assoc (concat (handed s))). symmetry.
    apply Permutation_middle. }
  exists (<[idx := take k b ++ [id]]> lv).
  split; simpl; try done.
  - intros i b' Hi Hbi. rewrite list_lookup_insert_ne by congruence. eauto.
  - intros m t b' Ht Hbi. destruct (decide (m = n)) as [->|Hne].
    + rewrite list_lookup_insert_eq in Ht by done. injection Ht as <-. simpl in *.
      assert (b' = b) as -> by congruence.
      rewrite list_lookup_insert_eq by (by eapply lookup_lt_Some).
      by rewrite (take_S_r _ _ id).
    + rewrite list_lookup_insert_ne in Ht by done.
      rewrite list_lookup_insert_ne by (symmetry; eauto). eauto.
  - intros i Hi. rewrite list_lookup_insert_ne by congruence. eauto.
  - rewrite Hperm. apply NoDup_cons. split; [|done].
    intros Hin. apply H5 in Hin. congruence.
  - intros id' Hin. rewrite Hperm in Hin. apply elem_of_cons in Hin as [->|Hin].
    + apply (Bloom.Exists_Add _ HL).
    + apply (Bloom.Exists_mono _ HL). eauto.
  - intros m m' t u Ht Hu Hpt. by apply Hafter in Ht.
  - intros m t id' Ht Hpc. apply Hafter in Ht. rewrite Ht in Hpc. by destruct Hpc.
  - intros m t id' Ht Hpc. apply Hafter in Ht. congruence.
Qed.

Lemma Fresh_Full s lv n idx k f' :
  Inv s → Fresh s lv →
  tasks s !! n = Some {| t_idx := idx; fillCount := k; pc := AtLoop |} →
  ¬ k < capacity (store (fac s)) →
  setStatus BF idx BucketFull (fac s) = Some f' →
  Fresh {| fac := f'; sched := sched s; tasks := delete n (tasks s);
           handed := handed s |} lv.
Proof.
  intros HI [H1 H2 H3 H4 H5 H6 H7 H8] Hn Hk
    (Hlt & Hst & Hb & Hc & Hbl & _)%setStatus_Some.
  destruct (wf_bucket BF (fac s) idx (inv_wf s HI) Hlt) as (b & Hbi & Hlen).
  split; simpl; rewrite ?Hst, ?Hb, ?Hbl; try done.
  - intros i b' Hi Hbi'. destruct (decide (i = idx)) as [->|Hne].
    + assert (b' = b) as -> by congruence.
      pose proof (H2 n _ b Hn Hbi) as Hlv. simpl in Hlv.
      pose proof (inv_count s HI _ _ Hn) as [Hle _]. simpl in Hle.
      rewrite Hlv. by rewrite take_ge by lia.
    + rewrite list_lookup_insert_ne in Hi by done. eauto.
  - intros j t b' (j' & _ & Ht & _)%lookup_delete_Some Hbi'. eauto.
  - intros i Hi. destruct (decide (i = idx)) as [->|Hne].
    + by rewrite list_lookup_insert_eq in Hi.
    + rewrite list_lookup_insert_ne in Hi by done. eauto.
  - intros j m t u (j' & _ & Ht & Hj)%lookup_delete_Some
      (m' & _ & Hu & Hm)%lookup_delete_Some Hpt Hpu.
    pose proof (H6 _ _ _ _ Ht Hu Hpt Hpu). lia.
  - intros j t id (j' & _ & Ht & _)%lookup_delete_Some Hpc. eauto.
  - intros j t id (j' & _ & Ht & _)%lookup_delete_Some Hpc. eauto.
Qed.

Lemma Fresh_Pop s lv hs :
  Inv s → Fresh s lv →
  concat hs = (Pop (store (fac s))).1.1 ++ concat (handed s) →
  ∃ lv', Fresh {| fac := set_store BF (Pop (store (fac s))).2 (fac s);
                  sched := sched s; tasks := tasks s; handed := hs |} lv'.
Proof.
  intros HI [H1 H2 H3 H4 H5 H6 H7 H8] Hhs.
  destruct (Pop (store (fac s))) as [[ids [|]] m] eqn:HP; simpl in *.
  - apply Pop_found in HP as (i & Hi & _ & -> & Hb & Hc & Hst).
    assert (Hlt : i < length (status (store (fac s)))) by (by eapply lookup_lt_Some).
    destruct (wf_bucket BF (fac s) i (inv_wf s HI) Hlt) as (b & Hbi & _).
    rewrite Hbi in Hhs. simpl in Hhs.
    pose proof (H1 i b Hi Hbi) as Hlv.
    destruct (concat_insert lv i _ [] Hlv) as (rest & Hp1 & Hp2).
    assert (Hperm : concat hs ++ concat (<[i := []]> lv)
                    ≡ₚ concat (handed s) ++ concat lv).
    { rewrite Hhs, Hp1, Hp2. simpl. rewrite <- app_assoc.
      apply Permutation_app_swap_app. }
    exists (<[i := []]> lv). split; simpl; rewrite ?Hst, ?Hb; try done.
    + intros j b' Hj Hbj. destruct (decide (j = i)) as [->|Hne].
      * by rewrite list_lookup_insert_eq in Hj.
      * rewrite list_lookup_insert_ne in Hj by done.
        rewrite list_lookup_insert_ne by done. eauto.
    + intros n t b' Ht Hbt. pose proof (inv_busy s HI _ _ Ht) as Hbusy.
      rewrite list_lookup_insert_ne by congruence. eauto.
    + intros j Hj. destruct (decide (j = i)) as [->|Hne].
      * apply list_lookup_insert_eq. by eapply lookup_lt_Some.
      * rewrite list_lookup_insert_ne in Hj by done.
        rewrite list_lookup_insert_ne by done. eauto.
    + by rewrite Hperm.
    + intros id Hin. rewrite Hperm in Hin. eauto.
  - apply Pop_not_found in HP as (_ & -> & ->). simpl in Hhs.
    exists lv. split; simpl; rewrite ?Hhs; done.
Qed.

Lemma exec_Fresh e s s' lv :
  Inv s → Fresh s lv →
  match e with EvGen _ _ => quiet s | _ => true end = true →
  exec BF e s = Next s' → ∃ lv', Fresh s' lv'.
Proof.
  intros HI HF Hq He. destruct e as [| | | |n g|n|n|n| | |]; simpl in He.
  - destruct (sched s); [done|]. injection He as <-.
    exists lv. by apply (Fresh_frame s).
  - destruct (running (tick (fac s))); [|done]. injection He as <-.
    exists lv. by apply (Fresh_frame s).
  - destruct (sched s) as [[|]|]; try done.
    destruct (C (tick (fac s))); [|done]. injection He as <-.
    exists lv. by apply (Fresh_frame s).
  - destruct (sched s) as [[|idx rest]|] eqn:Hs; try done.
    destruct (setStatus BF idx BucketBusy (fac s)) as [f'|] eqn:Hf; [|done].
    injection He as <-. exists lv. by apply Fresh_Mark.
  - destruct (tasks s !! n) as [[idx k [| |]]|] eqn:Hn; try done.
    case_decide; [|done].
    destruct (candidate BF (fac s) g) as [id|] eqn:Hc; injection He as <-;
      exists lv; [|done]. by eapply Fresh_Gen.
  - destruct (tasks s !! n) as [[idx k [|id|]]|] eqn:Hn; try done.
    destruct (put BF idx k id (fac s)) as [f'|] eqn:Hf; [|done].
    injection He as <-. exists lv. by apply Fresh_Store.
  - destruct (tasks s !! n) as [[idx k [| |id]]|] eqn:Hn; try done.
    injection He as <-. by eapply Fresh_Add.
  - destruct (tasks s !! n) as [[idx k [| |]]|] eqn:Hn; try done.
    case_decide; [done|].
    destruct (setStatus BF idx BucketFull (fac s)) as [f'|] eqn:Hf; [|done].
    injection He as <-. exists lv. by eapply Fresh_Full.
  - pose proof (GetBucket_pool BF (fac s)) as Hp.
    pose proof (GetBucket_result BF (fac s)) as Hr.
    destruct (GetBucket BF (fac s)) as [r f']. simpl in Hp, Hr. subst f' r.
    injection He as <-. eapply Fresh_Pop; try done.
    by destruct (Pop (store (fac s))).1.1.
  - pose proof (GetLocalBucket_pool BF (fac s)) as Hp.
    pose proof (GetLocalBucket_result BF (fac s)) as Hr.
    destruct (GetLocalBucket BF (fac s)) as [r f']. simpl in Hp, Hr. subst f' r.
    injection He as <-. eapply Fresh_Pop; try done.
    by destruct (Pop (store (fac s))).1.1.
  - injection He as <-. exists lv. by apply (Fresh_frame s).
Qed.

Lemma run_Fresh evs : ∀ s lv,
  Inv s → Fresh s lv → serial evs s = true →
  ∀ s', run BF evs s = Next s' → ∃ lv', Fresh s' lv'.
Proof.
  induction evs as [|e evs IH]; intros s lv HI HF Hser s' Hr; simpl in *.
  - injection Hr as <-. by exists lv.
  - apply andb_true_iff in Hser as [Hq Hser].
    destruct (exec BF e s) as [s1| |] eqn:He; try done.
    destruct (exec_Fresh e s s1 lv HI HF Hq He) as (lv1 & HF1).
    eapply (IH s1 lv1); eauto. by eapply exec_Inv.
Qed.

(** X19: in the runs in which no goroutine enters lines 120-125 while
    another is between its test and its [Add], the identifiers handed out
    are distinct, within and across batches. *)
Theorem unique_when_serial config d evs s :
  run BF evs (boot BF config d) = Next s →
  serial evs (boot BF config d) = true →
  NoDup (concat (handed s)).
Proof.
  intros Hr Hser.
  destruct (run_Fresh evs _ _ (boot_Inv BF config d) (boot_Fresh config d) Hser s Hr)
    as (lv & HF).
  pose proof (fr_NoDup s lv HF) as Hnd. by apply NoDup_app in Hnd as (? & _).
Qed.

End Unique.

(** ** Further properties of the running system *)

Section Steps.

Context (BF : Bloom.Impl).

Implicit Types (f : Factory BF) (s : System BF).

Lemma exec_step e s s' : exec BF e s = Next s' → step s e s'.
Proof.
  intros He. destruct e as [| | | |n g|n|n|n| | |]; simpl in He.
  - destruct (sched s) eqn:Hs; [done|]. injection He as <-. by constructor.
  - destruct (running (tick (fac s))) eqn:Hr; [|done]. injection He as <-.
    by constructor.
  - destruct (sched s) as [[|]|] eqn:Hs; try done.
    destruct (C (tick (fac s))) eqn:HC; [|done]. injection He as <-.
    by constructor.
  - destruct (sched s) as [[|idx rest]|] eqn:Hs; try done.
    destruct (setStatus BF idx BucketBusy (fac s)) as [f'|] eqn:Hf; [|done].
    injection He as <-. by econstructor.
  - destruct (tasks s !! n) as [[idx k [| |]]|] eqn:Hn; try done.
    case_decide; [|done].
    destruct (candidate BF (fac s) g) as [id|] eqn:Hc; injection He as <-.
    + by eapply step_Gen_accept.
    + by eapply step_Gen_discard.
  - destruct (tasks s !! n) as [[idx k [|id|]]|] eqn:Hn; try done.
    destruct (put BF idx k id (fac s)) as [f'|] eqn:Hf; [|done].
    injection He as <-. by eapply step_Store.
  - destruct (tasks s !! n) as [[idx k [| |id]]|] eqn:Hn; try done.
    injection He as <-. by eapply step_Add.
  - destruct (tasks s !! n) as [[idx k [| |]]|] eqn:Hn; try done.
    case_decide; [done|].
    destruct (setStatus BF idx BucketFull (fac s)) as [f'|] eqn:Hf; [|done].
    injection He as <-. by eapply step_Full.
  - pose proof (GetBucket_pool BF (fac s)) as Hp.
    pose proof (GetBucket_result BF (fac s)) as Hr.
    destruct (GetBucket BF (fac s)) as [r f']. simpl in Hp, Hr. subst f' r.
    injection He as <-.
    destruct (Pop (store (fac s))).1.1 eqn:Hids.
    + pose proof (step_GetBucket s) as H. by rewrite Hids in H.
    + pose proof (step_GetBucket s) as H. by rewrite Hids in H.
  - pose proof (GetLocalBucket_pool BF (fac s)) as Hp.
    pose proof (GetLocalBucket_result BF (fac s)) as Hr.
    destruct (GetLocalBucket BF (fac s)) as [r f']. simpl in Hp, Hr. subst f' r.
    injection He as <-.
    destruct (Pop (store (fac s))).1.1 eqn:Hids.
    + pose proof (step_GetLocalBucket s) as H. by rewrite Hids in H.
    + pose proof (step_GetLocalBucket s) as H. by rewrite Hids in H.
  - injection He as <-. constructor.
Qed.

Lemma Pop_nonempty (m : MemStore) :
  store_wf m → (Pop m).1.1 ≠ [] → length (Pop m).1.1 = capacity m.
Proof.
  intros Hwf Hne. destruct (Pop_batch m Hwf) as [HF HN].
  destruct (decide (BucketFull ∈ status m)) as [Hin|Hno]; [by apply HF|].
  by destruct (HN Hno).
Qed.

Lemma Pop_none (m : MemStore) : BucketFull ∉ status m → Pop m = ([], false, m).
Proof. intros H%(firstFull_None _ 0). unfold Pop. by rewrite H. Qed.

(** What an event leaves alone in any state, and what it may add to the
    batches handed out. *)
Lemma step_shape e s s' :
  store_wf (store (fac s)) → step s e s' →
  capacity (store (fac s')) = capacity (store (fac s)) ∧
  length (status (store (fac s'))) = length (status (store (fac s))) ∧
  size (fac s') = size (fac s) ∧ db (fac s') = db (fac s) ∧
  (handed s' = handed s ∨
   ∃ ids, handed s' = ids :: handed s ∧ length ids = capacity (store (fac s))).
Proof.
  intros Hwf Hstep.
  destruct Hstep as [ | | |idx rest f' Hs Hf| | |n idx k id f' Hn Hf|
                     |n idx k f' Hn Hk Hf| | | ]; simpl;
    try (split_and!; try done; by left).
  - apply setStatus_Some in Hf as (_ & -> & _ & -> & _ & _ & -> & ->).
    rewrite length_insert. split_and!; try done. by left.
  - apply put_Some in Hf as (b & _ & _ & _ & -> & -> & _ & _ & -> & ->).
    split_and!; try done. by left.
  - apply setStatus_Some in Hf as (_ & -> & _ & -> & _ & _ & -> & ->).
    rewrite length_insert. split_and!; try done. by left.
  - destruct (Pop_frame (store (fac s))) as (_ & -> & Hst).
    pose proof (Pop_nonempty _ Hwf) as Hlen.
    split_and!; try done.
    + destruct Hst as [->|(i & _ & ->)]; [done|]. by rewrite length_insert.
    + destruct (Pop (store (fac s))).1.1 eqn:Hids; [by left|].
      right. eexists. split; [done|]. by apply Hlen.
  - destruct (Pop_frame (store (fac s))) as (_ & -> & Hst).
    pose proof (Pop_nonempty _ Hwf) as Hlen.
    split_and!; try done.
    + destruct Hst as [->|(i & _ & ->)]; [done|]. by rewrite length_insert.
    + destruct (Pop (store (fac s))).1.1 eqn:Hids; [by left|].
      right. eexists. split; [done|]. by apply Hlen.
Qed.

Lemma run_shape evs : ∀ s s',
  Inv s → run BF evs s = Next s' →
  capacity (store (fac s')) = capacity (store (fac s)) ∧
  length (status (store (fac s'))) = length (status (store (fac s))) ∧
  size (fac s') = size (fac s) ∧ db (fac s') = db (fac s) ∧
  ∀ b, b ∈ handed s' → b ∈ handed s ∨ length b = capacity (store (fac s)).
Proof.
  induction evs as [|e evs IH]; intros s s' HI Hr; simpl in Hr.
  - injection Hr as <-. split_and!; try done. by left.
  - destruct (exec BF e s) as [s1| |] eqn:He; try done.
    pose proof (exec_Inv BF e s s1 HI He) as HI1.
    destruct (step_shape e s s1 (inv_wf s HI) (exec_step e s s1 He))
      as (Hc & Hl & Hsz & Hdb & Hh).
    destruct (IH s1 s' HI1 Hr) as (Hc' & Hl' & Hsz' & Hdb' & Hh').
    split_and!; try congruence.
    intros b Hb. destruct (Hh' b Hb) as [Hin|Hlen]; [|right; congruence].
    destruct Hh as [Heq|(ids & Heq & Hids)]; rewrite Heq in Hin; [by left|].
    apply elem_of_cons in Hin as [->|Hin]; [by right | by left].
Qed.

(** X1: in every run the pool keeps the number of buckets and the
    capacity of its configuration, the factory keeps its identifier size,
    and every batch handed to a consumer has exactly [BucketCapacity]
    identifiers. *)
Theorem pool_keeps_its_shape config d s :
  reachable BF config d s →
  capacity (store (fac s)) = BucketCapacity BF config ∧
  length (status (store (fac s))) = BucketSize BF config ∧
  size (fac s) = IDSize BF config ∧
  ∀ b, b ∈ handed s → length b = BucketCapacity BF config.
Proof.
  intros [evs Hr].
  destruct (run_shape evs _ _ (boot_Inv BF config d) Hr) as (Hc & Hl & Hsz & _ & Hh).
  destruct (Prepare_frame BF (NewFactory BF config d)) as (_ & Hst & Hsz0 & _).
  unfold boot in *. simpl in *. rewrite Hst in Hc, Hl, Hh. rewrite Hsz0 in Hsz.
  simpl in *. rewrite length_replicate in Hl. split_and!; try done.
  intros b Hb. destruct (Hh b Hb) as [Hin|Hlen]; [|done].
  by apply elem_of_nil in Hin.
Qed.

(** Only the goroutine that fills a bucket writes to it. *)
Lemma step_buckets e s s' :
  Inv s → step s e s' →
  ∀ i, status (store (fac s)) !! i ≠ Some BucketBusy →
       buckets (store (fac s')) !! i = buckets (store (fac s)) !! i.
Proof.
  intros HI Hstep i Hi.
  destruct Hstep as [ | | |idx rest f' Hs Hf| | |n idx k id f' Hn Hf|
                     |n idx k f' Hn Hk Hf| | | ]; simpl; try done.
  - by apply setStatus_Some in Hf as (_ & _ & -> & _).
  - apply put_Some in Hf as (b & _ & _ & -> & _).
    pose proof (inv_busy s HI _ _ Hn) as Hbusy. simpl in Hbusy.
    apply list_lookup_insert_ne. congruence.
  - by apply setStatus_Some in Hf as (_ & _ & -> & _).
  - by destruct (Pop_frame (store (fac s))) as (-> & _).
  - by destruct (Pop_frame (store (fac s))) as (-> & _).
Qed.

Lemma step_bloom (HL : Bloom.Laws BF) e s s' key :
  step s e s' →
  Bloom.Exists BF key (bloom (fac s)) = true →
  Bloom.Exists BF key (bloom (fac s')) = true.
Proof.
  intros Hstep Hex.
  destruct Hstep as [ | | |idx rest f' Hs Hf| | |n idx k id f' Hn Hf|
                     |n idx k f' Hn Hk Hf| | | ]; simpl; try done.
  - by apply setStatus_Some in Hf as (_ & _ & _ & _ & -> & _).
  - by apply put_Some in Hf as (b & _ & _ & _ & _ & _ & -> & _).
  - by apply (Bloom.Exists_mono _ HL).
  - by apply setStatus_Some in Hf as (_ & _ & _ & _ & -> & _).
Qed.

Lemma Prepare_keeps (HL : Bloom.Laws BF) key f :
  Bloom.Exists BF key (bloom f) = true →
  Bloom.Exists BF key (bloom (Prepare BF f).1) = true.
Proof.
  intros Hex. rewrite Prepare_bloom.
  destruct (idsQuery (db f)) as [?|rows]; [done|].
  destruct (0 <? (countScan (db f)).1)%N; [|done]. by apply warm_mono.
Qed.

Lemma run_bloom (HL : Bloom.Laws BF) key evs : ∀ s s',
  run BF evs s = Next s' →
  Bloom.Exists BF key (bloom (fac s)) = true →
  Bloom.Exists BF key (bloom (fac s')) = true.
Proof.
  induction evs as [|e evs IH]; intros s s' Hr Hex; simpl in Hr.
  - by injection Hr as <-.
  - destruct (exec BF e s) as [s1| |] eqn:He; try done.
    eapply IH; [done|]. eapply step_bloom; [done| |done]. by apply exec_step.
Qed.

(** X3: the filter never forgets.  A key that the filter knows stays known
    through [Prepare] and through every event of a run: the factory only
    ever calls [Add] on it. *)
Theorem filter_never_forgets (HL : Bloom.Laws BF) key :
  (∀ f, Bloom.Exists BF key (bloom f) = true →
        Bloom.Exists BF key (bloom (Prepare BF f).1) = true) ∧
  (∀ evs s s', run BF evs s = Next s' →
        Bloom.Exists BF key (bloom (fac s)) = true →
        Bloom.Exists BF key (bloom (fac s')) = true).
Proof.
  split; [intros f; by apply Prepare_keeps | intros evs; by apply run_bloom].
Qed.

Lemma step_before_Run e s s' :
  sched s = None → tasks s = [] → BucketFull ∉ status (store (fac s)) →
  e ≠ EvRun → step s e s' →
  sched s' = None ∧ tasks s' = [] ∧ store (fac s') = store (fac s) ∧
  bloom (fac s') = bloom (fac s) ∧ handed s' = handed s.
Proof.
  intros Hs Ht Hno Hne Hstep.
  destruct Hstep as [ | | |idx rest f' Hs' Hf|n g idx k id Hn|n g idx k Hn
                     |n idx k id f' Hn Hf|n idx k id Hn|n idx k f' Hn Hk Hf| | | ];
    simpl; try done; try congruence;
    try (by rewrite Ht in Hn).
  - by rewrite (Pop_none _ Hno).
  - by rewrite (Pop_none _ Hno).
Qed.

(** X4: until [Run] is called nothing is handed out.  In a run without the
    event of [Run], whatever ticks, allocate calls and [Shutdown] it has, no
    fill goroutine exists, the pool and the filter are as [Prepare] left
    them, and every allocate has failed. *)
Theorem nothing_is_handed_before_Run config d evs s :
  EvRun ∉ evs → run BF evs (boot BF config d) = Next s →
  handed s = [] ∧ tasks s = [] ∧ sched s = None ∧
  store (fac s) = NewMemStore (BucketSize BF config) (BucketCapacity BF config) ∧
  bloom (fac s) = bloom (fac (boot BF config d)).
Proof.
  intros Hno Hr.
  assert (Hgen : ∀ evs s0 s1, EvRun ∉ evs →
            sched s0 = None → tasks s0 = [] → BucketFull ∉ status (store (fac s0)) →
            run BF evs s0 = Next s1 →
            sched s1 = None ∧ tasks s1 = [] ∧ store (fac s1) = store (fac s0) ∧
            bloom (fac s1) = bloom (fac s0) ∧ handed s1 = handed s0).
  { clear. induction evs as [|e evs IH]; intros s0 s1 Hno Hs Ht Hf Hr; simpl in Hr.
    - by injection Hr as <-.
    - apply not_elem_of_cons in Hno as [Hne Hno].
      destruct (exec BF e s0) as [s2| |] eqn:He; try done.
      destruct (step_before_Run e s0 s2 Hs Ht Hf ltac:(done) (exec_step _ _ _ He))
        as (Hs2 & Ht2 & Hst2 & Hbl2 & Hh2).
      rewrite <- Hst2 in Hf.
      destruct (IH s2 s1 Hno Hs2 Ht2 Hf Hr) as (? & ? & ? & ? & ?).
      split_and!; congruence. }
  destruct (Prepare_frame BF (NewFactory BF config d)) as (_ & Hst & _).
  assert (Hfull : BucketFull ∉ status (store (fac (boot BF config d)))).
  { unfold boot. simpl. rewrite Hst. simpl.
    by intros [? _]%elem_of_replicate. }
  destruct (Hgen evs (boot BF config d) s Hno eq_refl eq_refl Hfull Hr)
    as (? & ? & Hst' & ? & ?).
  split_and!; try done. rewrite Hst'. unfold boot. simpl. by rewrite Hst.
Qed.

Lemma step_stopped e s s' :
  Inv s → stopped s → step s e s' →
  stopped s' ∧ length (tasks s') ≤ length (tasks s) ∧
  ∀ i, status (store (fac s)) !! i = Some BucketEmpty →
       status (store (fac s')) !! i = Some BucketEmpty.
Proof.
  intros HI (Hrun & HC & Hs) Hstep. unfold stopped.
  destruct Hstep as [ | | |idx rest f' Hs' Hf|n g idx k id Hn|n g idx k Hn
                     |n idx k id f' Hn Hf|n idx k id Hn|n idx k f' Hn Hk Hf| | | ];
    simpl; try congruence.
  - split_and!; eauto.
  - destruct Hs; congruence.
  - rewrite length_insert. split_and!; eauto.
  - split_and!; eauto.
  - apply put_Some in Hf as (b & _ & _ & _ & -> & _ & _ & -> & _).
    rewrite length_insert. split_and!; eauto.
  - rewrite length_insert. split_and!; eauto.
  - apply setStatus_Some in Hf as (_ & -> & _ & _ & _ & -> & _).
    pose proof (inv_busy s HI _ _ Hn) as Hbusy. simpl in Hbusy.
    split_and!; eauto.
    + rewrite length_delete by eauto. lia.
    + intros i Hi. rewrite list_lookup_insert_ne by congruence. done.
  - split_and!; eauto.
    destruct (Pop_frame (store (fac s))) as (_ & _ & [->|(j & Hj & ->)]); [done|].
    intros i Hi. destruct (decide (i = j)) as [->|Hne].
    + apply list_lookup_insert_eq. by eapply lookup_lt_Some.
    + by rewrite list_lookup_insert_ne.
  - split_and!; eauto.
    destruct (Pop_frame (store (fac s))) as (_ & _ & [->|(j & Hj & ->)]); [done|].
    intros i Hi. destruct (decide (i = j)) as [->|Hne].
    + apply list_lookup_insert_eq. by eapply lookup_lt_Some.
    + by rewrite list_lookup_insert_ne.
  - split_and!; eauto.
Qed.

(** X5: once the ticker is stopped, no tick waits in its channel and the
    scheduler has no index left to mark, no fill is ever started again: in
    every continuation of the run the Empty buckets stay Empty and the
    number of fill goroutines does not grow. *)
Theorem stopped_never_refills config d s evs s' :
  reachable BF config d s → stopped s → run BF evs s = Next s' →
  stopped s' ∧ length (tasks s') ≤ length (tasks s) ∧
  ∀ i, status (store (fac s)) !! i = Some BucketEmpty →
       status (store (fac s')) !! i = Some BucketEmpty.
Proof.
  intros HI%reachable_Inv. revert s HI.
  induction evs as [|e evs IH]; intros s HI Hst Hr; simpl in Hr.
  - injection Hr as <-. split_and!; eauto.
  - destruct (exec BF e s) as [s1| |] eqn:He; try done.
    destruct (step_stopped e s s1 HI Hst (exec_step _ _ _ He)) as (Hst1 & Hl1 & He1).
    destruct (IH s1 (exec_Inv BF _ _ _ HI He) Hst1 Hr) as (Hst' & Hl' & He').
    split_and!; [done|lia|eauto].
Qed.

Lemma marks_all l : ∀ s,
  Inv s → sched s = Some l →
  ∃ s', run BF (replicate (length l) EvMark) s = Next s' ∧ Inv s' ∧
        sched s' = Some [] ∧
        length (tasks s') = length (tasks s) + length l ∧
        buckets (store (fac s')) = buckets (store (fac s)) ∧
        (∀ i, i ∈ l → status (store (fac s')) !! i = Some BucketBusy) ∧
        (∀ i, i ∉ l → status (store (fac s')) !! i = status (store (fac s)) !! i).
Proof.
  induction l as [|idx rest IH]; intros s HI Hs; simpl.
  - exists s. split_and!; try done; try lia. by intros i ?%elem_of_nil.
  - rewrite Hs. destruct (inv_sched s HI _ Hs) as [_ Hem].
    assert (Hidx : status (store (fac s)) !! idx = Some BucketEmpty)
      by (apply Hem; left).
    destruct (setStatus_in_range BF idx BucketBusy (fac s)) as [f' Hf];
      [by eapply lookup_lt_Some|].
    rewrite Hf. pose proof (Inv_Mark BF s idx rest f' HI Hs Hf) as HI1.
    destruct (IH _ HI1 eq_refl) as (s' & Hr & HI' & Hs' & Hl & Hb & Hin & Hout).
    apply setStatus_Some in Hf as (Hlt & Hst & Hbk & _).
    simpl in *. rewrite length_app in Hl. simpl in Hl.
    exists s'. split_and!; try done; [lia|congruence| |].
    + intros i Hi. destruct (decide (i ∈ rest)) as [Hr'|Hr']; [by apply Hin|].
      apply elem_of_cons in Hi as [->|Hi]; [|done].
      rewrite (Hout idx Hr'), Hst. by apply list_lookup_insert_eq.
    + intros i [Hne Hr']%not_elem_of_cons.
      rewrite (Hout i Hr'), Hst. by apply list_lookup_insert_ne.
Qed.

(** X6: a pass of the scheduler is always possible and leaves no bucket
    Empty.  In a state of a run in which the scheduler waits and a tick is
    there, the tick can be received and lines 94-99 run for every index of
    the snapshot; with nothing in between, this starts exactly one fill
    goroutine per Empty bucket, marks those buckets Busy, and leaves every
    other status and all contents as they are. *)
Theorem scheduler_pass_marks_all config d s :
  reachable BF config d s → sched s = Some [] → C (tick (fac s)) = true →
  ∃ s', run BF (EvTick :: replicate (length (GetEmpty (store (fac s)))) EvMark) s
          = Next s' ∧
        sched s' = Some [] ∧
        length (tasks s') = length (tasks s) + length (GetEmpty (store (fac s))) ∧
        buckets (store (fac s')) = buckets (store (fac s)) ∧
        (∀ i, status (store (fac s')) !! i ≠ Some BucketEmpty) ∧
        (∀ i, status (store (fac s)) !! i ≠ Some BucketEmpty →
              status (store (fac s')) !! i = status (store (fac s)) !! i).
Proof.
  intros HI%reachable_Inv Hs HC.
  destruct (exec BF EvTick s) as [s1| |] eqn:He; simpl in He; rewrite Hs, HC in He;
    try done.
  injection He as Hs1.
  assert (He : exec BF EvTick s = Next s1) by (simpl; by rewrite Hs, HC, Hs1).
  pose proof (exec_Inv BF _ _ _ HI He) as HI1.
  destruct (marks_all (GetEmpty (store (fac s))) s1 HI1) as
    (s' & Hr & _ & Hs' & Hl & Hb & Hin & Hout); [by rewrite <- Hs1|].
  exists s'. simpl. rewrite Hs, HC, Hs1. rewrite <- Hs1 in Hb, Hl, Hout. simpl in *.
  split_and!; try done.
  - intros i Hi. destruct (decide (i ∈ GetEmpty (store (fac s)))) as [Hg|Hg].
    + rewrite (Hin i Hg) in Hi. done.
    + rewrite (Hout i Hg) in Hi. by apply GetEmpty_spec in Hi.
  - intros i Hi. apply Hout. by rewrite GetEmpty_spec.
Qed.

End Steps.

(** ** What is handed out, in every run *)

Section Issued.

Context (BF : Bloom.Impl).

Variables (P : Bloom.t BF → string → Prop) (H : string → Prop)
  (G : System BF → Prop).

Hypothesis P_mono : ∀ b key id, P b id → P (Bloom.Add BF key b) id.
Hypothesis P_add : ∀ b id, H id → P (Bloom.Add BF (fasterByte id) b) id.
Hypothesis G_step : ∀ e s s', G s → step s e s' → G s'.
Hypothesis G_accept : ∀ s g id, G s → candidate BF (fac s) g = Some id → H id.

Implicit Types (f : Factory BF) (s : System BF).

(** An allocate moves the first Full bucket from the pool to the batches
    handed out. *)
Lemma Live_Pop s lv :
  Inv s → Live P H s lv →
  ∃ lv', Live P H
           {| fac := set_store BF (Pop (store (fac s))).2 (fac s);
              sched := sched s; tasks := tasks s;
              handed := match (Pop (store (fac s))).1.1 with
                        | [] => handed s
                        | _ :: _ => (Pop (store (fac s))).1.1 :: handed s
                        end |} lv'.
Proof.
  intros HI [L1 L2 L3 L4 L5 L6].
  destruct (Pop (store (fac s))) as [[ids [|]] m] eqn:HP; simpl in *.
  - apply Pop_found in HP as (i & Hi & _ & -> & Hb & Hc & Hst).
    assert (Hlt : i < length (status (store (fac s)))) by (by eapply lookup_lt_Some).
    destruct (wf_bucket BF (fac s) i (inv_wf s HI) Hlt) as (b & Hbi & _).
    rewrite Hbi. simpl.
    pose proof (L1 i b Hi Hbi) as Hlv.
    destruct (concat_insert lv i _ [] Hlv) as (rest & Hp1 & Hp2).
    assert (Hperm : concat (match b with [] => handed s | _ :: _ => b :: handed s end)
                      ++ concat (<[i := []]> lv)
                    ≡ₚ concat (handed s) ++ concat lv).
    { rewrite Hp1, Hp2. destruct b as [|x b]; [done|].
      change (concat ((x :: b) :: handed s)) with ((x :: b) ++ concat (handed s)).
      rewrite <- app_assoc. apply Permutation_app_swap_app. }
    exists (<[i := []]> lv). split; simpl; rewrite ?Hst, ?Hb; try done.
    + intros j b' Hj Hbj. destruct (decide (j = i)) as [->|Hne].
      * by rewrite list_lookup_insert_eq in Hj.
      * rewrite list_lookup_insert_ne in Hj by done.
        rewrite list_lookup_insert_ne by done. eauto.
    + intros n t b' Ht Hbt. pose proof (inv_busy s HI _ _ Ht) as Hbusy.
      rewrite list_lookup_insert_ne by congruence. eauto.
    + intros j Hj. destruct (decide (j = i)) as [->|Hne].
      * apply list_lookup_insert_eq. by eapply lookup_lt_Some.
      * rewrite list_lookup_insert_ne in Hj by done.
        rewrite list_lookup_insert_ne by done. eauto.
    + intros id Hin. rewrite Hperm in Hin. eauto.
  - apply Pop_not_found in HP as (_ & -> & ->). exists lv. by split.
Qed.

Lemma step_Live e s s' lv :
  Inv s → Live P H s lv → G s → step s e s' → ∃ lv', Live P H s' lv'.
Proof.
  intros HI [L1 L2 L3 L4 L5 L6] HG Hstep.
  destruct Hstep as [ | | |idx rest f' Hs Hf|n g idx k id Hn Hk Hc|n g idx k Hn
                     |n idx k id f' Hn Hf|n idx k id Hn|n idx k f' Hn Hk Hf| | | ].
  - exists lv. by split.
  - exists lv. by split.
  - exists lv. by split.
  - (* lines 95-98 *)
    apply setStatus_Some in Hf as (Hlt & Hst & Hb & Hc & Hbl & _).
    destruct (inv_sched s HI _ Hs) as [_ Hem].
    assert (Hidx : status (store (fac s)) !! idx = Some BucketEmpty)
      by (apply Hem; left).
    exists lv. split; simpl; rewrite ?Hst, ?Hb, ?Hbl; try done.
    + intros i b Hi Hbi. destruct (decide (i = idx)) as [->|Hne].
      * by rewrite list_lookup_insert_eq in Hi.
      * rewrite list_lookup_insert_ne in Hi by done. eauto.
    + intros m t b [Ht|[_ Ht]]%lookup_app_Some Hbi; [eauto|].
      apply list_lookup_singleton_Some in Ht as [_ <-]. simpl in *. eauto.
    + intros i Hi. destruct (decide (i = idx)) as [->|Hne].
      * by rewrite list_lookup_insert_eq in Hi.
      * rewrite list_lookup_insert_ne in Hi by done. eauto.
    + intros m t id [Ht|[_ Ht]]%lookup_app_Some Hpc; [eauto|].
      by apply list_lookup_singleton_Some in Ht as [_ <-].
    + intros m t id [Ht|[_ Ht]]%lookup_app_Some Hpc; [eauto|].
      apply list_lookup_singleton_Some in Ht as [_ <-]. by destruct Hpc.
  - (* lines 119-122, the candidate is accepted *)
    assert (Hlt : n < length (tasks s)) by (by eapply lookup_lt_Some).
    exists lv. split; simpl; try done.
    + intros m t b Ht Hb. destruct (decide (m = n)) as [->|Hne].
      * rewrite list_lookup_insert_eq in Ht by done. injection Ht as <-.
        by apply (L2 n _ b Hn).
      * rewrite list_lookup_insert_ne in Ht by done. eauto.
    + intros m t id' Ht Hpc. destruct (decide (m = n)) as [->|Hne].
      * rewrite list_lookup_insert_eq in Ht by done. by injection Ht as <-.
      * rewrite list_lookup_insert_ne in Ht by done. eauto.
    + intros m t id' Ht Hpc. destruct (decide (m = n)) as [->|Hne].
      * rewrite list_lookup_insert_eq in Ht by done. injection Ht as <-.
        simpl in Hpc. destruct Hpc as [[= <-]|?]; [|done]. by eapply G_accept.
      * rewrite list_lookup_insert_ne in Ht by done. eauto.
  - exists lv. by split.
  - (* line 123 *)
    apply put_Some in Hf as (b & Hb & Hk & Hbk & Hst & Hc & Hbl & _).
    assert (Hlt : n < length (tasks s)) by (by eapply lookup_lt_Some).
    assert (Hidx : idx < length (buckets (store (fac s))))
      by (by eapply lookup_lt_Some).
    pose proof (inv_busy s HI _ _ Hn) as Hbusy. simpl in Hbusy.
    assert (Hold : ∀ m t, m ≠ n → tasks s !! m = Some t → t_idx t ≠ idx).
    { intros m t Hne Ht Heq. apply Hne. by eapply (inv_distinct s HI m n). }
    exists lv. split; simpl; rewrite ?Hst, ?Hbk, ?Hbl; try done.
    + intros i b' Hi Hbi. rewrite list_lookup_insert_ne in Hbi by congruence. eauto.
    + intros m t b' Ht Hbi. destruct (decide (m = n)) as [->|Hne].
      * rewrite list_lookup_insert_eq in Ht by done. injection Ht as <-. simpl in *.
        rewrite list_lookup_insert_eq in Hbi by done. injection Hbi as <-.
        rewrite take_insert_ge by lia. by apply (L2 n _ b Hn).
      * rewrite list_lookup_insert_ne in Ht by done.
        rewrite list_lookup_insert_ne in Hbi by (symmetry; eauto). eauto.
    + intros m t id' Ht Hpc. destruct (decide (m = n)) as [->|Hne].
      * rewrite list_lookup_insert_eq in Ht by done. injection Ht as <-.
        simpl in *. injection Hpc as <-. exists (<[k := id]> b).
        split; by apply list_lookup_insert_eq.
      * rewrite list_lookup_insert_ne in Ht by done.
        destruct (L4 m t id' Ht Hpc) as (b' & Hb' & Hk').
        exists b'. split; [|done].
        rewrite list_lookup_insert_ne by (symmetry; eauto). done.
    + intros m t id' Ht Hpc. destruct (decide (m = n)) as [->|Hne].
      * rewrite list_lookup_insert_eq in Ht by done. injection Ht as <-.
        simpl in Hpc. apply (L6 n _ id' Hn). simpl.
        destruct Hpc as [?|[= <-]]; [done|by left].
      * rewrite list_lookup_insert_ne in Ht by done. eauto.
  - (* lines 124-125 *)
    assert (Hlt : n < length (tasks s)) by (by eapply lookup_lt_Some).
    destruct (L4 n _ id Hn eq_refl) as (b & Hb & Hbk). simpl in Hb, Hbk.
    pose proof (L2 n _ b Hn Hb) as Hlv. simpl in Hlv.
    pose proof (inv_busy s HI _ _ Hn) as Hbusy. simpl in Hbusy.
    assert (Hold : ∀ m t, m ≠ n → tasks s !! m = Some t → t_idx t ≠ idx).
    { intros m t Hne Ht Heq. apply Hne. by eapply (inv_distinct s HI m n). }
    assert (Hnew : H id) by (apply (L6 n _ id Hn); by right).
    destruct (concat_insert lv idx _ (take k b ++ [id]) Hlv) as (rest & Hp1 & Hp2).
    assert (Hperm : concat (handed s) ++ concat (<[idx := take k b ++ [id]]> lv)
                    ≡ₚ id :: (concat (handed s) ++ concat lv)).
    { rewrite Hp1, Hp2. rewrite <- (app_assoc (take k b)). simpl.
      rewrite !(app_assoc (concat (handed s))). symmetry.
      apply Permutation_middle. }
    exists (<[idx := take k b ++ [id]]> lv). split; simpl; try done.
    + intros i b' Hi Hbi. rewrite list_lookup_insert_ne by congruence. eauto.
    + intros m t b' Ht Hbi. destruct (decide (m = n)) as [->|Hne].
      * rewrite list_lookup_insert_eq in Ht by done. injection Ht as <-. simpl in *.
        assert (b' = b) as -> by congruence.
        rewrite list_lookup_insert_eq by (by eapply lookup_lt_Some).
        by rewrite (take_S_r _ _ id).
      * rewrite list_lookup_insert_ne in Ht by done.
        rewrite list_lookup_insert_ne by (symmetry; eauto). eauto.
    + intros i Hi. rewrite list_lookup_insert_ne by congruence. eauto.
    + intros m t id' Ht Hpc. destruct (decide (m = n)) as [->|Hne].
      * rewrite list_lookup_insert_eq in Ht by done. by injection Ht as <-.
      * rewrite list_lookup_insert_ne in Ht by done. eauto.
    + intros id' Hin. rewrite Hperm in Hin. apply elem_of_cons in Hin as [->|Hin].
      * by apply P_add.
      * apply P_mono. eauto.
    + intros m t id' Ht Hpc. destruct (decide (m = n)) as [->|Hne].
      * rewrite list_lookup_insert_eq in Ht by done. injection Ht as <-.
        by destruct Hpc.
      * rewrite list_lookup_insert_ne in Ht by done. eauto.
  - (* lines 129-131 *)
    apply setStatus_Some in Hf as (Hlt & Hst & Hb & Hc & Hbl & _).
    destruct (wf_bucket BF (fac s) idx (inv_wf s HI) Hlt) as (b & Hbi & Hlen).
    exists lv. split; simpl; rewrite ?Hst, ?Hb, ?Hbl; try done.
    + intros i b' Hi Hbi'. destruct (decide (i = idx)) as [->|Hne].
      * assert (b' = b) as -> by congruence.
        pose proof (L2 n _ b Hn Hbi) as Hlv. simpl in Hlv.
        pose proof (inv_count s HI _ _ Hn) as [Hle _]. simpl in Hle.
        rewrite Hlv. by rewrite take_ge by lia.
      * rewrite list_lookup_insert_ne in Hi by done. eauto.
    + intros j t b' (j' & _ & Ht & _)%lookup_delete_Some Hbi'. eauto.
    + intros i Hi. destruct (decide (i = idx)) as [->|Hne].
      * by rewrite list_lookup_insert_eq in Hi.
      * rewrite list_lookup_insert_ne in Hi by done. eauto.
    + intros j t id (j' & _ & Ht & _)%lookup_delete_Some Hpc. eauto.
    + intros j t id (j' & _ & Ht & _)%lookup_delete_Some Hpc. eauto.
  - by eapply Live_Pop.
  - by eapply Live_Pop.
  - exists lv. by split.
Qed.

Lemma run_Live evs : ∀ s lv,
  Inv s → Live P H s lv → G s →
  ∀ s', run BF evs s = Next s' → ∃ lv', Live P H s' lv'.
Proof.
  induction evs as [|e evs IH]; intros s lv HI HL HG s' Hr; simpl in Hr.
  - injection Hr as <-. by exists lv.
  - destruct (exec BF e s) as [s1| |] eqn:He; try done.
    pose proof (exec_step BF _ _ _ He) as Hstep.
    destruct (step_Live e s s1 lv HI HL HG Hstep) as (lv1 & HL1).
    eapply (IH s1 lv1); eauto. by eapply exec_Inv.
Qed.

Lemma boot_Live config d :
  Live P H (boot BF config d) (replicate (BucketSize BF config) []).
Proof.
  destruct (Prepare_frame BF (NewFactory BF config d)) as (_ & Hst & _).
  assert (Hnil : concat (replicate (BucketSize BF config) ([] : list string)) = []).
  { induction (BucketSize BF config); simpl; done. }
  split; unfold boot; simpl; rewrite ?Hst, ?Hnil; simpl; try done.
  - by intros i b [? _]%lookup_replicate.
  - intros i [_ Hi]%lookup_replicate. by apply lookup_replicate_2.
  - by intros id ?%elem_of_nil.
Qed.

(** The identifiers handed out, and those of the Full buckets, in a state
    of a run. *)
Lemma reachable_issued config d s :
  G (boot BF config d) → reachable BF config d s →
  (∀ id, id ∈ concat (handed s) → P (bloom (fac s)) id) ∧
  (∀ i b id, status (store (fac s)) !! i = Some BucketFull →
             buckets (store (fac s)) !! i = Some b → id ∈ b →
             P (bloom (fac s)) id).
Proof.
  intros HG [evs Hr].
  destruct (run_Live evs _ _ (boot_Inv BF config d) (boot_Live config d) HG s Hr)
    as (lv & HL).
  split.
  - intros id Hin. apply (lv_issued _ _ _ _ HL). apply elem_of_app. by left.
  - intros i b id Hi Hb Hin. apply (lv_issued _ _ _ _ HL). apply elem_of_app. right.
    pose proof (lv_full _ _ _ _ HL i b Hi Hb) as Hlv.
    apply list_elem_of_In, in_concat. exists b.
    split; apply list_elem_of_In; [by eapply list_elem_of_lookup_2 | done].
Qed.

End Issued.

Section Handed.

Context (BF : Bloom.Impl).

Implicit Types (f : Factory BF) (s : System BF).

Lemma candidate_nonempty f g id : candidate BF f g = Some id → id ≠ "".
Proof.
  destruct g as [x [e|]]; simpl; [done|]. case_decide; [|done].
  destruct (Bloom.Exists BF (fasterByte x) (bloom f)); [done|]. by intros [= <-].
Qed.

Lemma candidate_known f id e :
  Bloom.Exists BF (fasterByte id) (bloom f) = true → candidate BF f (id, e) = None.
Proof. intros Hex. unfold candidate. destruct e; [done|]. case_decide; [|done]. by rewrite Hex. Qed.

(** X8: no empty identifier is ever handed out.  In every run, the batches
    handed to consumers and the Full buckets of the pool hold no empty
    string, although the slots of a new pool are empty strings. *)
Theorem handed_identifiers_not_empty config d s :
  reachable BF config d s →
  (∀ id, id ∈ concat (handed s) → id ≠ "") ∧
  (∀ i b id, status (store (fac s)) !! i = Some BucketFull →
             buckets (store (fac s)) !! i = Some b → id ∈ b → id ≠ "").
Proof.
  intros Hr.
  apply (reachable_issued BF (λ _ id, id ≠ "") (λ id, id ≠ "") (λ _, True))
    with (config := config) (d := d); try done.
  intros s0 g id _. apply candidate_nonempty.
Qed.

Section Laws.

Hypothesis HL : Bloom.Laws BF.

(** What the filter knew when the process started stays known, and what is
    handed out was not known then and is known now. *)
Lemma reachable_fresh config d s :
  reachable BF config d s →
  let b0 := bloom (fac (boot BF config d)) in
  let fresh := λ b id, Bloom.Exists BF (fasterByte id) b0 = false ∧
                       Bloom.Exists BF (fasterByte id) b = true in
  (∀ id, id ∈ concat (handed s) → fresh (bloom (fac s)) id) ∧
  (∀ i b id, status (store (fac s)) !! i = Some BucketFull →
             buckets (store (fac s)) !! i = Some b → id ∈ b →
             fresh (bloom (fac s)) id).
Proof.
  intros Hr b0 fresh.
  apply (reachable_issued BF fresh
           (λ id, Bloom.Exists BF (fasterByte id) b0 = false)
           (λ s0, ∀ key, Bloom.Exists BF key b0 = true →
                         Bloom.Exists BF key (bloom (fac s0)) = true))
    with (config := config) (d := d); try done.
  - intros b key id [? ?]. split; [done|]. by apply (Bloom.Exists_mono _ HL).
  - intros b id ?. split; [done|]. apply (Bloom.Exists_Add _ HL).
  - intros e s0 s1 HG Hstep key Hk. eapply step_bloom; eauto.
  - intros s0 g id HG Hc%candidate_Some.
    destruct (Bloom.Exists BF (fasterByte id) b0) eqn:Hb0; [|done].
    apply HG in Hb0. congruence.
Qed.

(** X9: an identifier of the history is never handed out.  When the count
    query of [Prepare] leaves K > 0 and the stream delivers its rows, no
    identifier that scanned is in any batch handed out, nor in any Full
    bucket, in any run, also when fill goroutines race. *)
Theorem history_is_never_handed_out config d K e rows s :
  countScan d = (K, e) → (0 < K)%N → idsQuery d = inr rows →
  reachable BF config d s →
  ∀ id, ScanOk id ∈ rows →
    (id ∉ concat (handed s)) ∧
    ∀ i b, status (store (fac s)) !! i = Some BucketFull →
           buckets (store (fac s)) !! i = Some b → id ∉ b.
Proof.
  intros HK Hpos Hq Hr id Hin.
  destruct (reachable_fresh config d s Hr) as [Hh Hf].
  assert (Hb0 : Bloom.Exists BF (fasterByte id) (bloom (fac (boot BF config d))) = true).
  { unfold boot. simpl. rewrite Prepare_bloom. simpl. rewrite Hq, HK. simpl.
    apply N.ltb_lt in Hpos. rewrite Hpos. apply (warm_Exists BF HL).
    unfold scanned. apply list_elem_of_omap. by exists (ScanOk id). }
  split.
  - intros Hid. destruct (Hh id Hid) as [Hno _]. congruence.
  - intros i b Hi Hb Hid. destruct (Hf i b id Hi Hb Hid) as [Hno _]. congruence.
Qed.

(** X10: an identifier that was handed out is discarded by every later
    test.  The filter knows every identifier of every batch handed out, so
    from then on line 122 rejects it whenever the generator gives it. *)
Theorem handed_identifiers_are_discarded config d s id :
  reachable BF config d s → id ∈ concat (handed s) →
  Bloom.Exists BF (fasterByte id) (bloom (fac s)) = true ∧
  ∀ evs s' e, run BF evs s = Next s' → candidate BF (fac s') (id, e) = None.
Proof.
  intros Hr Hin. destruct (reachable_fresh config d s Hr) as [Hh _].
  destruct (Hh id Hin) as [_ Hnow]. split; [done|].
  intros evs s' e Hrun. apply candidate_known.
  by eapply run_bloom.
Qed.

End Laws.

End Handed.

Section Fillers.

Context (BF : Bloom.Impl).

Implicit Types (f : Factory BF) (s : System BF).

Lemma step_filler e s s' :
  Inv s →
  (∀ i, status (store (fac s)) !! i = Some BucketBusy →
        ∃ n t, tasks s !! n = Some t ∧ t_idx t = i) →
  step s e s' →
  ∀ i, status (store (fac s')) !! i = Some BucketBusy →
       ∃ n t, tasks s' !! n = Some t ∧ t_idx t = i.
Proof.
  intros HI Hall Hstep i.
  assert (Hset : ∀ n t t', tasks s !! n = Some t → t_idx t' = t_idx t →
            status (store (fac s)) !! i = Some BucketBusy →
            ∃ m u, <[n := t']> (tasks s) !! m = Some u ∧ t_idx u = i).
  { intros n t t' Hn Hidx Hi. destruct (Hall i Hi) as (m & u & Hm & Hu).
    destruct (decide (m = n)) as [->|Hne].
    - exists n, t'. split; [apply list_lookup_insert_eq; by eapply lookup_lt_Some|].
      congruence.
    - exists m, u. by rewrite list_lookup_insert_ne. }
  destruct Hstep as [ | | |idx rest f' Hs Hf|n g idx k id Hn Hk Hc|n g idx k Hn
                     |n idx k id f' Hn Hf|n idx k id Hn|n idx k f' Hn Hk Hf| | | ];
    simpl; try (by apply Hall).
  - apply setStatus_Some in Hf as (Hlt & -> & _). intros Hi.
    destruct (decide (i = idx)) as [->|Hne].
    + exists (length (tasks s)), {| t_idx := idx; fillCount := 0; pc := AtLoop |}.
      split; [|done]. by apply list_lookup_middle.
    + rewrite list_lookup_insert_ne in Hi by done.
      destruct (Hall i Hi) as (m & u & Hm & Hu). exists m, u.
      split; [by apply lookup_app_l_Some | done].
  - intros Hi. by eapply Hset.
  - apply put_Some in Hf as (b & _ & _ & _ & -> & _). intros Hi. by eapply Hset.
  - intros Hi. by eapply Hset.
  - apply setStatus_Some in Hf as (Hlt & -> & _). intros Hi.
    destruct (decide (i = idx)) as [->|Hne].
    + by rewrite list_lookup_insert_eq in Hi.
    + rewrite list_lookup_insert_ne in Hi by done.
      destruct (Hall i Hi) as (m & u & Hm & Hu).
      assert (m ≠ n) by (intros ->; rewrite Hn in Hm; injection Hm as <-; done).
      destruct (decide (m < n)).
      * exists m, u. by rewrite list_lookup_delete_lt.
      * exists (m - 1), u. rewrite list_lookup_delete_ge by lia.
        by replace (S (m - 1)) with m by lia.
  - destruct (Pop_frame (store (fac s))) as (_ & _ & [->|(j & Hj & ->)]);
      [by apply Hall|].
    intros Hi. destruct (decide (i = j)) as [->|Hne].
    + rewrite list_lookup_insert_eq in Hi by (by eapply lookup_lt_Some). done.
    + rewrite list_lookup_insert_ne in Hi by done. by apply Hall.
  - destruct (Pop_frame (store (fac s))) as (_ & _ & [->|(j & Hj & ->)]);
      [by apply Hall|].
    intros Hi. destruct (decide (i = j)) as [->|Hne].
    + rewrite list_lookup_insert_eq in Hi by (by eapply lookup_lt_Some). done.
    + rewrite list_lookup_insert_ne in Hi by done. by apply Hall.
Qed.

(** With lines 95-98 as one step, a bucket is Busy exactly when a fill
    goroutine works on it, and no two goroutines work on the same bucket. *)
Lemma Busy_iff_filler config d s :
  reachable BF config d s →
  (∀ i, status (store (fac s)) !! i = Some BucketBusy ↔
        ∃ n t, tasks s !! n = Some t ∧ t_idx t = i) ∧
  (∀ n m t u, tasks s !! n = Some t → tasks s !! m = Some u →
              t_idx t = t_idx u → n = m).
Proof.
  intros Hr. pose proof (reachable_Inv BF _ _ _ Hr) as HI.
  split; [|by apply (inv_distinct s HI)].
  intros i. split; [|by intros (n & t & Ht & <-); eapply inv_busy].
  destruct Hr as [evs Hr]. revert i.
  assert (Hgen : ∀ evs s0 s1, Inv s0 →
            (∀ i, status (store (fac s0)) !! i = Some BucketBusy →
                  ∃ n t, tasks s0 !! n = Some t ∧ t_idx t = i) →
            run BF evs s0 = Next s1 →
            ∀ i, status (store (fac s1)) !! i = Some BucketBusy →
                 ∃ n t, tasks s1 !! n = Some t ∧ t_idx t = i).
  { clear. induction evs as [|e evs IH]; intros s0 s1 HI0 H0 Hr; simpl in Hr.
    - by injection Hr as <-.
    - destruct (exec BF e s0) as [s2| |] eqn:He; try done.
      eapply (IH s2); [by eapply exec_Inv| |done].
      eapply step_filler; eauto. by apply exec_step. }
  eapply Hgen; [apply boot_Inv| |done].
  destruct (Prepare_frame BF (NewFactory BF config d)) as (_ & Hst & _).
  unfold boot. simpl. rewrite Hst. simpl.
  by intros i [? _]%lookup_replicate.
Qed.

(** X18: a fill goroutine is never blocked and never panics.  In every
    state of a run each goroutine can take its next step: at the loop it
    can consume any answer of the generator while its counter is below the
    capacity, and mark its bucket Full once it is not; after an accepted
    candidate it can store it and then add it to the filter. *)
Theorem fill_goroutine_is_never_blocked config d s n t :
  reachable BF config d s → tasks s !! n = Some t →
  match pc t with
  | AtLoop =>
      if decide (fillCount t < capacity (store (fac s))) then
        ∀ g, ∃ s', exec BF (EvGen n g) s = Next s'
      else
        ∃ s', exec BF (EvFull n) s = Next s' ∧
              status (store (fac s')) !! t_idx t = Some BucketFull
  | AtStore id => ∃ s', exec BF (EvStore n) s = Next s'
  | AtAdd id => ∃ s', exec BF (EvAdd n) s = Next s'
  end.
Proof.
  intros HI%reachable_Inv Hn. destruct t as [idx k [|id|id]]; simpl.
  - case_decide as Hk.
    + intros g. rewrite Hn, decide_True by done.
      destruct (candidate BF (fac s) g); by eexists.
    + rewrite Hn, decide_False by done.
      destruct (setStatus_in_range BF idx BucketFull (fac s)) as [f' Hf].
      { eapply lookup_lt_Some. by apply (inv_busy s HI _ _ Hn). }
      rewrite Hf. eexists. split; [done|]. simpl.
      apply setStatus_Some in Hf as (Hlt & -> & _). by apply list_lookup_insert_eq.
  - rewrite Hn.
    destruct (put_in_range BF idx k id (fac s)) as [f' ->]; [| | |by eexists].
    + by apply (inv_wf s).
    + eapply lookup_lt_Some. by apply (inv_busy s HI _ _ Hn).
    + by apply (inv_count s HI _ _ Hn).
  - rewrite Hn. by eexists.
Qed.

End Fillers.

(** ** Lines 95-98 as two steps *)

Section Fine.

Context (BF : Bloom.Impl).

Implicit Types (s : FineSystem BF) (f : Factory BF).

Lemma run_snoc evs e (s0 s1 s2 : System BF) :
  run BF evs s0 = Next s1 → exec BF e s1 = Next s2 → run BF (evs ++ [e]) s0 = Next s2.
Proof.
  revert s0. induction evs as [|e0 evs IH]; intros s0 Hr He; simpl in *.
  - injection Hr as ->. by rewrite He.
  - destruct (exec BF e0 s0) as [s'| |]; try done. by apply IH.
Qed.

Lemma reachable_exec config d e (s1 s2 : System BF) :
  reachable BF config d s1 → exec BF e s1 = Next s2 → reachable BF config d s2.
Proof. intros [evs Hr] He. exists (evs ++ [e]). by eapply run_snoc. Qed.

Lemma settle_held s idx rest :
  held s = true → sched (sys s) = Some (idx :: rest) →
  idx < length (status (store (fac (sys s)))) →
  settle s =
    {| fac := set_store BF
                {| buckets := buckets (store (fac (sys s)));
                   status := <[idx := BucketBusy]> (status (store (fac (sys s))));
                   capacity := capacity (store (fac (sys s))) |} (fac (sys s));
       sched := Some rest; tasks := tasks (sys s); handed := handed (sys s) |}.
Proof.
  intros Hh Hs Hlt. unfold settle, setStatus. rewrite Hh, Hs.
  by rewrite decide_True by done.
Qed.

Lemma settle_free s : held s = false → settle s = sys s.
Proof. intros Hh. unfold settle. by rewrite Hh. Qed.

Lemma execFine_free e s :
  held s = false →
  execFine (Ev e) s =
    match e with
    | EvMark => FineDisabled
    | _ => fine false (exec BF e (sys s))
    end.
Proof.
  intros Hh. destruct e; unfold execFine; rewrite Hh; try reflexivity.
  by destruct (sched (sys s)) as [[|]|].
Qed.

Lemma marking_free s : held s = false → marking s = None.
Proof. intros Hh. unfold marking. by rewrite Hh. Qed.

(** [settle] changes the status of the bucket being marked, and nothing
    else of the pool, the filter, the goroutines or the batches. *)
Lemma settle_frame s :
  FineInv s →
  buckets (store (fac (settle s))) = buckets (store (fac (sys s))) ∧
  capacity (store (fac (settle s))) = capacity (store (fac (sys s))) ∧
  bloom (fac (settle s)) = bloom (fac (sys s)) ∧
  tick (fac (settle s)) = tick (fac (sys s)) ∧
  tasks (settle s) = tasks (sys s) ∧
  handed (settle s) = handed (sys s) ∧
  status (store (fac (settle s))) =
    match marking s with
    | Some idx => <[idx := BucketBusy]> (status (store (fac (sys s))))
    | None => status (store (fac (sys s)))
    end.
Proof.
  intros HF. destruct (held s) eqn:Hh.
  - destruct (HF Hh) as (idx & rest & Hs & He).
    rewrite (settle_held s idx rest Hh Hs) by (by eapply lookup_lt_Some).
    unfold marking. by rewrite Hh, Hs.
  - by rewrite settle_free, marking_free.
Qed.

(** A step of the finer system is a step of [exec] between the settled
    states, or none: line 96 is where [exec] has lines 95-98, lines 97-98
    change nothing any more, and a step of lines 119-125 taken before line
    97 is the same step taken after it. *)
Lemma execFine_settle e s s' :
  FineInv s → Inv (settle s) → execFine e s = FineNext s' →
  FineInv s' ∧
  (settle s' = settle s ∨ ∃ e', exec BF e' (settle s) = Next (settle s')).
Proof.
  intros HF HI He. destruct (held s) eqn:Hh.
  - (* the scheduler holds the mutex *)
    destruct (HF Hh) as (idx & rest & Hs & Hem).
    assert (Hlt : idx < length (status (store (fac (sys s)))))
      by (by eapply lookup_lt_Some).
    pose proof (settle_held s idx rest Hh Hs Hlt) as Hset.
    destruct e as [|e]; simpl in He; rewrite ?Hs, ?Hh in He; [done|].
    destruct e as [| | | |n g|n|n|n| | |]; simpl in He;
      rewrite ?Hs, ?Hh in He; try done.
    + (* EvTimer *)
      destruct (running (tick (fac (sys s)))) eqn:Hrun; [|done].
      injection He as <-. split.
      { intros _. by exists idx, rest. }
      right. exists EvTimer.
      rewrite Hset, (settle_held _ idx rest) by done. simpl.
      by rewrite Hrun.
    + (* EvMark *)
      unfold setStatus in He. rewrite decide_True in He by done.
      injection He as <-. split; [done|]. left.
      by rewrite settle_free, Hset.
    + (* EvGen *)
      destruct (tasks (sys s) !! n) as [[i k [| |]]|] eqn:Hn; try done.
      case_decide; [|done].
      destruct (candidate BF (fac (sys s)) g) as [id|] eqn:Hc.
      * injection He as <-. split.
        { intros _. by exists idx, rest. }
        right. exists (EvGen n g).
        rewrite Hset, (settle_held _ idx rest) by done. simpl.
        rewrite Hn. rewrite decide_True by done.
        change (candidate BF _ g) with (candidate BF (fac (sys s)) g).
        by rewrite Hc.
      * injection He as <-. split.
        { intros _. by exists idx, rest. }
        right. exists (EvGen n g).
        rewrite Hset, (settle_held _ idx rest) by done. simpl.
        rewrite Hn. rewrite decide_True by done.
        change (candidate BF _ g) with (candidate BF (fac (sys s)) g).
        by rewrite Hc.
    + (* EvStore *)
      destruct (tasks (sys s) !! n) as [[i k [|id|]]|] eqn:Hn; try done.
      destruct (put BF i k id (fac (sys s))) as [f'|] eqn:Hp; [|done].
      injection He as <-.
      unfold put in Hp.
      destruct (buckets (store (fac (sys s))) !! i) as [b|] eqn:Hb; [|done].
      case_decide; [|done]. injection Hp as <-. split.
      { intros _. by exists idx, rest. }
      right. exists (EvStore n).
      rewrite Hset, (settle_held _ idx rest) by done. simpl.
      rewrite Hn. unfold put. simpl. rewrite Hb. by rewrite decide_True by done.
    + (* EvAdd *)
      destruct (tasks (sys s) !! n) as [[i k [| |id]]|] eqn:Hn; try done.
      injection He as <-. split.
      { intros _. by exists idx, rest. }
      right. exists (EvAdd n).
      rewrite Hset, (settle_held _ idx rest) by done. simpl.
      by rewrite Hn.
    + (* EvShutdown *)
      injection He as <-. split.
      { intros _. by exists idx, rest. }
      right. exists EvShutdown.
      by rewrite Hset, (settle_held _ idx rest) by done.
  - (* the mutex is free *)
    rewrite (settle_free s) in * by done.
    destruct e as [|e]; [simpl in He; rewrite ?Hh in He|].
    + (* EvGo *)
      destruct (sched (sys s)) as [[|idx rest]|] eqn:Hs; try done.
      injection He as <-.
      destruct (inv_sched _ HI _ Hs) as [_ Hem].
      assert (Hidx : status (store (fac (sys s))) !! idx = Some BucketEmpty)
        by (apply Hem; left).
      split; [intros _; by exists idx, rest|].
      right. exists EvMark.
      rewrite (settle_held _ idx rest) by (try done; by eapply lookup_lt_Some).
      simpl. rewrite Hs. unfold setStatus.
      by rewrite decide_True by (by eapply lookup_lt_Some).
    + assert (Hfine : ∃ s1 : System BF, exec BF e (sys s) = Next s1 ∧
                            s' = {| sys := s1; held := false |}).
      { rewrite execFine_free in He by done.
        destruct e; try done;
          match type of He with
          | fine _ ?o = _ => destruct o as [s1| |] eqn:Ho; [|done..]
          end; injection He as <-; by exists s1. }
      destruct Hfine as (s1 & He1 & ->). split; [done|].
      right. exists e. by rewrite settle_free.
Qed.

Lemma runFine_settle config d evs s s' :
  FineInv s → reachable BF config d (settle s) → runFine evs s = FineNext s' →
  FineInv s' ∧ reachable BF config d (settle s').
Proof.
  revert s. induction evs as [|e evs IH]; intros s HF Hr Hrun; simpl in Hrun.
  - by injection Hrun as <-.
  - destruct (execFine e s) as [s1| |] eqn:He; try done.
    destruct (execFine_settle e s s1 HF (reachable_Inv BF _ _ _ Hr) He)
      as [HF1 [Heq|[e' He']]].
    + apply (IH s1); [done| |done]. by rewrite Heq.
    + apply (IH s1); [done| |done]. by eapply reachable_exec.
Qed.

(** Every state of the finer runs is, once lines 97-98 have run, a state
    of the runs of [exec]. *)
Lemma reachableFine_settle config d s :
  reachableFine config d s → FineInv s ∧ reachable BF config d (settle s).
Proof.
  intros [evs Hr]. apply (runFine_settle config d evs (bootFine config d)); [done| |done].
  by exists [].
Qed.

(** Conversely, every run of [exec] is a run of the finer system. *)
Lemma run_refine evs (s0 s1 : System BF) :
  run BF evs s0 = Next s1 →
  runFine (refine evs) {| sys := s0; held := false |}
    = FineNext {| sys := s1; held := false |}.
Proof.
  revert s0. induction evs as [|e evs IH]; intros s0 Hr; simpl in Hr.
  - by injection Hr as <-.
  - destruct (exec BF e s0) as [s'| |] eqn:He; try done.
    assert (Hone : ∀ e', e' ≠ EvMark → exec BF e' s0 = Next s' →
              runFine (Ev e' :: refine evs) {| sys := s0; held := false |}
                = FineNext {| sys := s1; held := false |}).
    { intros e' Hne He'. cbn [runFine]. rewrite execFine_free by done.
      cbn [sys]. destruct e'; try done; rewrite He'; simpl; by apply IH. }
    destruct e; try (by apply Hone).
    simpl in He. destruct (sched s0) as [[|idx rest]|] eqn:Hs; try done.
    destruct (setStatus BF idx BucketBusy (fac s0)) as [f'|] eqn:Hf; [|done].
    injection He as <-. simpl. rewrite Hs. simpl. rewrite Hf. by apply IH.
Qed.

Lemma reachable_refine config d (s0 : System BF) :
  reachable BF config d s0 → reachableFine config d {| sys := s0; held := false |}.
Proof. intros [evs Hr]. exists (refine evs). by apply run_refine. Qed.

(** The states of the finer runs are those of [exec], but for the status
    of the bucket that is being marked: it is Empty where [exec] has it
    Busy already. *)
Theorem fine_runs_settle config d s :
  reachableFine config d s →
  reachable BF config d (settle s) ∧
  tasks (settle s) = tasks (sys s) ∧
  handed (settle s) = handed (sys s) ∧
  buckets (store (fac (settle s))) = buckets (store (fac (sys s))) ∧
  bloom (fac (settle s)) = bloom (fac (sys s)) ∧
  (∀ i, marking s ≠ Some i →
        status (store (fac (settle s))) !! i = status (store (fac (sys s))) !! i) ∧
  (∀ i, marking s = Some i →
        status (store (fac (sys s))) !! i = Some BucketEmpty ∧
        status (store (fac (settle s))) !! i = Some BucketBusy).
Proof.
  intros Hr. destruct (reachableFine_settle config d s Hr) as [HF Hs].
  destruct (settle_frame s HF) as (Hb & _ & Hbl & _ & Ht & Hh & Hst).
  split_and!; try done.
  - intros i Hi. rewrite Hst. destruct (marking s) as [idx|]; [|done].
    apply list_lookup_insert_ne. congruence.
  - intros i Hi. rewrite Hst, Hi.
    assert (He : status (store (fac (sys s))) !! i = Some BucketEmpty).
    { unfold marking in Hi. destruct (held s) eqn:Hh'; [|done].
      destruct (HF Hh') as (idx & rest & Hsc & He). rewrite Hsc in Hi. congruence. }
    split; [done|]. apply list_lookup_insert_eq. by eapply lookup_lt_Some.
Qed.

(** X2: in a run, with line 96 and line 97 as separate steps, a step
    changes the contents of a bucket only if the bucket is Busy or is the
    one the scheduler is marking at that moment, its goroutine started and
    its status still Empty: what a Full bucket holds stays as it is until it
    is handed out, and an Empty bucket is written to only between line 96
    and line 97. *)
Theorem buckets_are_written_by_their_filler config d e s s' :
  reachableFine config d s → execFine e s = FineNext s' →
  ∀ i, status (store (fac (sys s))) !! i ≠ Some BucketBusy →
       marking s ≠ Some i →
       buckets (store (fac (sys s'))) !! i = buckets (store (fac (sys s))) !! i.
Proof.
  intros Hr He i Hi Hm.
  destruct (reachableFine_settle config d s Hr) as [HF Hs].
  pose proof (reachable_Inv BF _ _ _ Hs) as HI.
  destruct (execFine_settle e s s' HF HI He) as [HF' Hsim].
  destruct (settle_frame s HF) as (Hb & _ & _ & _ & _ & _ & Hst).
  destruct (settle_frame s' HF') as (Hb' & _).
  rewrite <- Hb, <- Hb'.
  destruct Hsim as [->|[e' He']]; [done|].
  apply (step_buckets BF e' _ _ HI (exec_step BF _ _ _ He')).
  rewrite Hst. destruct (marking s) as [idx|]; [|done].
  rewrite list_lookup_insert_ne by congruence. done.
Qed.

(** X17: in every run, with line 96 and line 97 as separate steps, a fill
    goroutine works on a bucket exactly when the bucket is Busy or is the
    one the scheduler is marking at that moment, which is still Empty; and no
    two goroutines work on the same bucket.  So no bucket is filled twice at
    a time, none is left Busy without a goroutine, and a Full bucket has
    none. *)
Theorem buckets_have_one_filler config d s :
  reachableFine config d s →
  (∀ i, (∃ n t, tasks (sys s) !! n = Some t ∧ t_idx t = i) ↔
        status (store (fac (sys s))) !! i = Some BucketBusy ∨ marking s = Some i) ∧
  (∀ i, marking s = Some i → status (store (fac (sys s))) !! i = Some BucketEmpty) ∧
  (∀ n m t u, tasks (sys s) !! n = Some t → tasks (sys s) !! m = Some u →
              t_idx t = t_idx u → n = m).
Proof.
  intros Hr.
  destruct (fine_runs_settle config d s Hr) as (Hs & Ht & _ & _ & _ & Hout & Hin).
  destruct (Busy_iff_filler BF config d (settle s) Hs) as [Hbusy Hdist].
  rewrite Ht in Hbusy, Hdist. split_and!; [|intros i Hi; by destruct (Hin i Hi)|done].
  intros i. rewrite <- Hbusy. destruct (decide (marking s = Some i)) as [Hm|Hm].
  - split; [by right|]. intros _. by destruct (Hin i Hm).
  - rewrite (Hout i Hm). split; [by left|]. by intros [?|?].
Qed.

End Fine.

(** ** Further properties of the filter key, the allocate calls and the fill *)

(** X11: two identifiers have the same filter key exactly when they are
    the same identifier: the key neither merges two identifiers nor splits
    one. *)
Theorem fasterByte_tells_identifiers_apart (s1 s2 : string) :
  fasterByte s1 = fasterByte s2 ↔ s1 = s2.
Proof. split; [apply fasterByte_inj | by intros ->]. Qed.

Section More.

Context (BF : Bloom.Impl).

Implicit Types (f : Factory BF) (s : System BF).

Lemma set_store_id f : set_store BF (store f) f = f.
Proof. by destruct f. Qed.

(** X12: with at least one slot per bucket, an allocate that fails leaves
    the factory exactly as it was, so a caller may try again at will. *)
Theorem failed_allocate_changes_nothing f :
  store_wf (store f) → 0 < capacity (store f) →
  (∀ e, (GetLocalBucket BF f).1.2 = Some e → (GetLocalBucket BF f).2 = f) ∧
  (∀ st, (GetBucket BF f).1.2 = Some st → (GetBucket BF f).2 = f).
Proof.
  intros Hwf Hc.
  assert (Hnil : (Pop (store f)).1.1 = [] → set_store BF (Pop (store f)).2 f = f).
  { intros Hids. destruct (Pop_batch _ Hwf) as [HF _].
    destruct (decide (BucketFull ∈ status (store f))) as [Hin|Hno].
    - destruct (HF Hin) as [Hlen _]. rewrite Hids in Hlen. simpl in Hlen. lia.
    - rewrite (Pop_none _ Hno). apply set_store_id. }
  rewrite GetLocalBucket_pool, GetBucket_pool, GetLocalBucket_result,
    GetBucket_result.
  split; intros e He; apply Hnil; by destruct (Pop (store f)).1.1.
Qed.

(** X16: a fill that runs alone puts [capacity] distinct identifiers into
    its bucket, none of them empty, none known to the filter before the
    call and all known to it afterwards. *)
Theorem populateBucket_batch_is_fresh (HL : Bloom.Laws BF) gens f idx f' rest :
  store_wf (store f) → idx < length (status (store f)) →
  populateBucket BF gens f idx = Filled f' rest →
  ∃ batch, buckets (store f') !! idx = Some batch ∧
           length batch = capacity (store f) ∧ NoDup batch ∧
           ∀ id, id ∈ batch →
                 id ≠ "" ∧
                 Bloom.Exists BF (fasterByte id) (bloom f) = false ∧
                 Bloom.Exists BF (fasterByte id) (bloom f') = true.
Proof.
  intros Hwf Hidx Hfill. unfold populateBucket in Hfill.
  pose proof (fillLoop_run BF idx gens f 0 Hwf Hidx ltac:(lia)) as H.
  rewrite Hfill in H.
  destruct H as (used & -> & Hlen & _ & _ & (_ & _ & _ & _ & Hbl & b0 & Hb0 & Hbk)).
  simpl in *.
  destruct (wf_bucket BF f idx Hwf Hidx) as (b0' & Hb0' & Hl0).
  assert (b0' = b0) as -> by congruence.
  destruct (batch_fresh BF HL (bloom f) used) as [Hnd Hfresh].
  exists (accepted BF (bloom f) used). split_and!; try done.
  - rewrite Hbk, drop_ge by lia. rewrite app_nil_r.
    apply list_lookup_insert_eq. by eapply lookup_lt_Some.
  - intros id Hin. destruct (Hfresh id Hin) as [? ?].
    destruct (accepted_from BF _ _ _ Hin) as [_ ?]. split_and!; try done.
    by rewrite Hbl.
Qed.

End More.

(** ** The route handlers *)

Section HandlerFacts.

Context {Link : Type} (zero : Link) (ID : Link → string)
  (NewLink : string → string → string → Link).
Context {B I K R : Type} (Sto : @Handler.Store Link B) (Dep : @Handler.Deps Link I K R).

Implicit Types (c : @Handler.Ctx Link) (w : @Handler.World B I K R).

(** X13: the body of a 200 reply of [Get] is always the link that the cache
    [Scan] left, never the one the backend gave.  After a cache error and a
    successful backend lookup, the backend's link is written to the cache
    and the reply still carries the link of the failed [Scan]. *)
Theorem Get_replies_with_the_scanned_link c w :
  let id := Handler.Params c "id" in
  let scan := Handler.HGetAllScan Dep (Handler.cache w) id zero in
  (∀ code body, (Handler.Get zero Sto Dep c w).1 = Handler.JSON code body →
     code = Handler.StatusOK ∧ body = Handler.LinkBody scan.1) ∧
  (∀ e l' b, String.length id ≠ 0 → scan.2 = Some e →
     Handler.Store_Get Sto id (Handler.backend w) = ((l', None), b) →
     (Handler.Get zero Sto Dep c w).1 = Handler.JSON Handler.StatusOK (Handler.LinkBody scan.1) ∧
     Handler.cache (Handler.Get zero Sto Dep c w).2 = Handler.HSet Dep id l' (Handler.cache w)).
Proof.
  intros id scan. subst id scan. unfold Handler.Get. split.
  - intros code body. case_decide; [done|].
    destruct (Handler.HGetAllScan Dep (Handler.cache w) (Handler.Params c "id") zero)
      as [l [e|]]; simpl.
    + destruct (Handler.Store_Get Sto (Handler.Params c "id") (Handler.backend w))
        as [[l' [e'|]] b]; simpl; [done|]. by intros [= <- <-].
    + by intros [= <- <-].
  - intros e l' b Hid Hscan HG. rewrite decide_False by done.
    destruct (Handler.HGetAllScan Dep (Handler.cache w) (Handler.Params c "id") zero)
      as [l oe]. simpl in *. subst oe. by rewrite HG.
Qed.

(** X14: [Delete] and [Update] call the backend only and never the cache,
    whatever the backend answers; so a link that the cache serves is served
    by [Get] exactly as before after it was deleted or updated. *)
Theorem Delete_and_Update_leave_the_cache c c' w :
  Handler.cache (Handler.Delete Sto c w).2 = Handler.cache w ∧
  Handler.cache (Handler.Update Sto c w).2 = Handler.cache w ∧
  ∀ l, String.length (Handler.Params c' "id") ≠ 0 →
       Handler.HGetAllScan Dep (Handler.cache w) (Handler.Params c' "id") zero = (l, None) →
       (Handler.Get zero Sto Dep c' w).1 = Handler.JSON Handler.StatusOK (Handler.LinkBody l) ∧
       (Handler.Get zero Sto Dep c' (Handler.Delete Sto c w).2).1
         = Handler.JSON Handler.StatusOK (Handler.LinkBody l) ∧
       (Handler.Get zero Sto Dep c' (Handler.Update Sto c w).2).1
         = Handler.JSON Handler.StatusOK (Handler.LinkBody l).
Proof.
  assert (HD : Handler.cache (Handler.Delete Sto c w).2 = Handler.cache w).
  { unfold Handler.Delete. case_decide; [done|].
    by destruct (Handler.Store_Delete Sto (Handler.Params c "id") (Handler.backend w))
      as [[e|] b]. }
  assert (HU : Handler.cache (Handler.Update Sto c w).2 = Handler.cache w).
  { unfold Handler.Update. destruct (Handler.BodyLink c) as [l [e|]]; [done|].
    by destruct (Handler.Store_Update Sto l (Handler.backend w)) as [[e|] b]. }
  split_and!; try done. intros l Hid Hscan.
  assert (Hget : ∀ w0, Handler.cache w0 = Handler.cache w →
            (Handler.Get zero Sto Dep c' w0).1
              = Handler.JSON Handler.StatusOK (Handler.LinkBody l)).
  { intros w0 Hc. unfold Handler.Get. rewrite decide_False by done.
    by rewrite Hc, Hscan. }
  split_and!; by apply Hget.
Qed.

(** X15: [Create] writes neither to the backend nor to the cache; a body
    that does not parse is answered with ErrBadRequest and costs no
    identifier; and a link is queued exactly when the reply is 200: it is
    the link made of the identifier just reserved, whose [ID] the reply
    carries. *)
Theorem Create_reserves_after_parsing c w :
  let out := Handler.Create ID NewLink Dep c w in
  Handler.backend out.2 = Handler.backend w ∧
  Handler.cache out.2 = Handler.cache w ∧
  (∀ e, (Handler.BodyCreate c).2 = Some e →
        out = (Handler.Error Handler.ErrBadRequest, w)) ∧
  (∀ code body, out.1 = Handler.JSON code body →
     ∃ id, (Handler.GetID Dep (Handler.reserve w)).1 = (id, None) ∧
           let link := NewLink id (Handler.Target (Handler.BodyCreate c).1)
                         (Handler.Tag (Handler.BodyCreate c).1) in
           Handler.ingestor out.2 = Handler.Push Dep link (Handler.ingestor w) ∧
           code = Handler.StatusOK ∧
           body = Handler.MapBody [("status", "Link Created"); ("id", ID link)]) ∧
  (∀ e, out.1 = Handler.Error e → Handler.ingestor out.2 = Handler.ingestor w).
Proof.
  intros out. subst out. unfold Handler.Create.
  destruct (Handler.BodyCreate c) as [req [e|]]; simpl.
  { split_and!; try done. }
  destruct (Handler.GetID Dep (Handler.reserve w)) as [[id [e|]] r]; simpl.
  { split_and!; try done. }
  split_and!; try done.
  intros code body [= <- <-]. by exists id.
Qed.

End HandlerFacts.

(** ** The examples, evaluated *)

Lemma stateAfter_reachable config d evs s :
  run SmallBloom evs (boot SmallBloom config d) = Next s →
  reachable SmallBloom config d (stateAfter config d evs).
Proof. intros H. exists evs. unfold stateAfter. by rewrite H. Qed.

(** C1 does not hold of the code: in the run [race] the two fill goroutines
    both accept "aaaa", because the test of line 122 and the [Add] of line
    124 are separate steps, and the two allocate calls that follow hand out
    "aaaa" twice. *)
Theorem race_hands_out_twice :
  ∃ s, run SmallBloom race (boot SmallBloom (smallConfig 2 1) dbEmpty) = Next s ∧
       handed s = [["aaaa"]; ["aaaa"]].
Proof. eexists. split; vm_compute; reflexivity. Qed.

(** The run [race] is not serial; a run that fills and empties one bucket
    is, and hands out distinct identifiers. *)
Example race_is_not_serial :
  serial race (boot SmallBloom (smallConfig 2 1) dbEmpty) = false.
Proof. vm_compute. reflexivity. Qed.

Example scenario_A :
  let s := stateAfter (smallConfig 1 3) dbEmpty scenarioA in
  serial scenarioA (boot SmallBloom (smallConfig 1 3) dbEmpty) = true ∧
  handed s = [["abcd"; "ijkl"; "mnop"]] ∧
  status (store (fac s)) = [BucketEmpty] ∧
  NoDup (concat (handed s)).
Proof.
  intros s. split_and!; [vm_compute; reflexivity..|].
  replace (handed s) with [["abcd"; "ijkl"; "mnop"]] by (vm_compute; reflexivity).
  apply (bool_decide_unpack _). vm_compute. reflexivity.
Qed.

(** Scenario B: the scheduler was never started; both allocate calls fail. *)
Example scenario_B :
  let f := fac (boot SmallBloom (smallConfig 1 3) dbEmpty) in
  (GetLocalBucket SmallBloom f).1 = ([], Some "factory: it's empty here") ∧
  (GetBucket SmallBloom f).1 =
    (None, Some {| code := ResourceExhausted; msg := "factory: it's empty here" |}).
Proof. split; vm_compute; reflexivity. Qed.

(** [populateBucket_fills] at the factory of scenario C. *)
Lemma populateBucket_fills_witness :
  store_wf (store warmed) ∧ 0 < length (status (store warmed)) ∧
  populateBucket SmallBloom answers warmed 0 ≠ Panicked.
Proof.
  assert (Hwf : store_wf (store warmed)) by (split; [done | by repeat constructor]).
  assert (Hidx : 0 < length (status (store warmed))) by (simpl; lia).
  split_and!; [done..|]. intros Heq.
  destruct (populateBucket_fills SmallBloom answers warmed 0 Hwf Hidx) as (_ & _ & H).
  by rewrite Heq in H.
Defined.

(** Scenario C: the batch holds neither identifier of the history; "qrst" is
    left over. *)
Example scenario_C :
  ∃ f', populateBucket SmallBloom answers warmed 0 = Filled f' [("qrst", None)] ∧
        buckets (store f') = [["wxyz"; "ijkl"; "mnop"]] ∧
        status (store f') = [BucketFull].
Proof. eexists. split_and!; vm_compute; reflexivity. Qed.

(** With buckets of no slots, a run reaches a well-formed pool whose bucket
    is Full, [Pop] finds it, and both allocate calls fail all the same. *)
Lemma Allocate_fails_beside_a_Full_bucket :
  let s := stateAfter (smallConfig 1 0) dbEmpty filledWithoutSlots in
  reachable SmallBloom (smallConfig 1 0) dbEmpty s ∧
  store_wf (store (fac s)) ∧
  BucketFull ∈ status (store (fac s)) ∧
  (Pop (store (fac s))).1 = ([], true) ∧
  (GetLocalBucket SmallBloom (fac s)).1 = ([], Some "factory: it's empty here") ∧
  (GetBucket SmallBloom (fac s)).1 =
    (None, Some {| code := ResourceExhausted; msg := "factory: it's empty here" |}).
Proof.
  intros s. split_and!.
  - eapply stateAfter_reachable. vm_compute. reflexivity.
  - split; [done | by repeat constructor].
  - apply list_elem_of_lookup. by exists 0.
  - vm_compute. reflexivity.
  - vm_compute. reflexivity.
  - vm_compute. reflexivity.
Qed.

(** [Allocate_exhausted] at a pool of one filled bucket of one slot. *)
Lemma Allocate_exhausted_witness :
  let f := fac (stateAfter (smallConfig 1 1) dbEmpty oneFilled) in
  store_wf (store f) ∧
  (GetBucket SmallBloom f).1 = (Some {| Ids := ["aaaa"] |}, None) ∧
  (GetLocalBucket SmallBloom f).1 = (["aaaa"], None).
Proof.
  intros f.
  assert (Hwf : store_wf (store f)) by (split; [done | by repeat constructor]).
  split; [done|].
  destruct (Allocate_exhausted SmallBloom f Hwf) as (_ & H & _).
  by apply H.
Defined.

(** [status_transitions] at the first marking of a run. *)
Lemma status_transitions_witness :
  let s := stateAfter (smallConfig 2 1) dbEmpty ticked in
  let s' := stateAfter (smallConfig 2 1) dbEmpty (ticked ++ [EvMark]) in
  reachable SmallBloom (smallConfig 2 1) dbEmpty s ∧
  exec SmallBloom EvMark s = Next s' ∧
  ∀ i a b, status (store (fac s)) !! i = Some a →
           status (store (fac s')) !! i = Some b →
           a = b ∨ moves EvMark a b.
Proof.
  intros s s'.
  assert (Hr : reachable SmallBloom (smallConfig 2 1) dbEmpty s)
    by (eapply stateAfter_reachable; vm_compute; reflexivity).
  assert (He : exec SmallBloom EvMark s = Next s') by (vm_compute; reflexivity).
  split_and!; [done..|].
  apply (status_transitions SmallBloom _ _ _ _ _ Hr He).
Defined.

(** [Prepare_covers_history] at the record store of scenario C. *)
Lemma Prepare_covers_history_witness :
  let f := NewFactory SmallBloom (smallConfig 1 3) dbTwo in
  countScan (db f) = (2%N, None) ∧ (0 < 2)%N ∧
  idsQuery (db f) = inr [ScanOk "abcd"; ScanOk "efgh"] ∧
  Bloom.Exists SmallBloom (fasterByte "abcd") (bloom (Prepare SmallBloom f).1) = true ∧
  Bloom.Exists SmallBloom (fasterByte "efgh") (bloom (Prepare SmallBloom f).1) = true.
Proof.
  intros f.
  destruct (Prepare_covers_history SmallBloom (PositionBloom_laws _) f 2%N None
              [ScanOk "abcd"; ScanOk "efgh"] eq_refl eq_refl eq_refl) as [_ H].
  split_and!; [done|done|done| |].
  - apply H. apply list_elem_of_lookup. by exists 0.
  - apply H. apply list_elem_of_lookup. by exists 1.
Defined.

(** [Mark_only_Empty] at the second marking of a run. *)
Lemma Mark_only_Empty_witness :
  let s := stateAfter (smallConfig 2 1) dbEmpty (ticked ++ [EvMark]) in
  let s' := stateAfter (smallConfig 2 1) dbEmpty (ticked ++ [EvMark; EvMark]) in
  reachable SmallBloom (smallConfig 2 1) dbEmpty s ∧
  exec SmallBloom EvMark s = Next s' ∧
  buckets (store (fac s')) = buckets (store (fac s)) ∧
  ∀ i, status (store (fac s)) !! i ≠ Some BucketEmpty →
       status (store (fac s')) !! i = status (store (fac s)) !! i.
Proof.
  intros s s'.
  assert (Hr : reachable SmallBloom (smallConfig 2 1) dbEmpty s)
    by (eapply stateAfter_reachable; vm_compute; reflexivity).
  assert (He : exec SmallBloom EvMark s = Next s') by (vm_compute; reflexivity).
  split_and!; [done..| |];
    by destruct (Mark_only_Empty SmallBloom _ _ _ _ Hr He) as (_ & ? & ?).
Defined.

(** ** The further properties at concrete runs *)

(** A cache that fails on every read: [Get] stores the backend's link in
    the cache and replies 200 with the zero link. *)
Example Get_after_a_cache_error :
  Handler.Get "" demoStore demoDeps (demoCtx "abc") demoWorld =
    (Handler.JSON 200 (Handler.LinkBody ""),
     {| Handler.backend := tt; Handler.ingestor := [];
        Handler.cache := [("abc", "backend:abc")]; Handler.reserve := tt |}).
Proof. vm_compute. reflexivity. Qed.

(** [pool_keeps_its_shape] at the end of scenario A. *)
Lemma pool_keeps_its_shape_witness :
  let s := stateAfter (smallConfig 1 3) dbEmpty scenarioA in
  reachable SmallBloom (smallConfig 1 3) dbEmpty s ∧
  capacity (store (fac s)) = 3 ∧ length (status (store (fac s))) = 1 ∧
  size (fac s) = 4 ∧ ∀ b, b ∈ handed s → length b = 3.
Proof.
  intros s.
  assert (Hr : reachable SmallBloom (smallConfig 1 3) dbEmpty s)
    by (eapply stateAfter_reachable; vm_compute; reflexivity).
  split; [done|]. apply (pool_keeps_its_shape SmallBloom _ _ _ Hr).
Defined.

(** [filter_never_forgets] at an identifier of the history, over a tick of
    the scheduler. *)
Lemma filter_never_forgets_witness :
  let s := boot SmallBloom (smallConfig 1 3) dbTwo in
  let s' := stateAfter (smallConfig 1 3) dbTwo ticked in
  run SmallBloom ticked s = Next s' ∧
  Bloom.Exists SmallBloom (fasterByte "abcd") (bloom (fac s)) = true ∧
  Bloom.Exists SmallBloom (fasterByte "abcd") (bloom (fac s')) = true.
Proof.
  intros s s'.
  assert (Hr : run SmallBloom ticked s = Next s') by (vm_compute; reflexivity).
  assert (Hex : Bloom.Exists SmallBloom (fasterByte "abcd") (bloom (fac s)) = true)
    by (vm_compute; reflexivity).
  split_and!; [done..|].
  destruct (filter_never_forgets SmallBloom (PositionBloom_laws _) (fasterByte "abcd"))
    as [_ H].
  exact (H _ _ _ Hr Hex).
Defined.

(** [nothing_is_handed_before_Run] at three calls on a new factory. *)
Lemma nothing_is_handed_before_Run_witness :
  let s := stateAfter (smallConfig 1 3) dbEmpty callsOnly in
  (EvRun ∉ callsOnly) ∧
  run SmallBloom callsOnly (boot SmallBloom (smallConfig 1 3) dbEmpty) = Next s ∧
  handed s = [] ∧ store (fac s) = NewMemStore 1 3.
Proof.
  intros s.
  assert (Hno : EvRun ∉ callsOnly).
  { intros H. repeat (apply elem_of_cons in H as [H|H]; [discriminate H|]).
    by apply elem_of_nil in H. }
  assert (Hr : run SmallBloom callsOnly (boot SmallBloom (smallConfig 1 3) dbEmpty) = Next s)
    by (vm_compute; reflexivity).
  split_and!; [done..| |];
    by destruct (nothing_is_handed_before_Run SmallBloom _ _ _ _ Hno Hr)
      as (? & _ & _ & ? & _).
Defined.

(** [stopped_never_refills] after [Run] and [Shutdown]. *)
Lemma stopped_never_refills_witness :
  let s := stateAfter (smallConfig 1 3) dbEmpty [EvRun; EvShutdown] in
  let s' := stateAfter (smallConfig 1 3) dbEmpty ([EvRun; EvShutdown] ++ callsOnly) in
  reachable SmallBloom (smallConfig 1 3) dbEmpty s ∧ stopped s ∧
  run SmallBloom callsOnly s = Next s' ∧
  stopped s' ∧ status (store (fac s')) !! 0 = Some BucketEmpty.
Proof.
  intros s s'.
  assert (Hr : reachable SmallBloom (smallConfig 1 3) dbEmpty s)
    by (eapply stateAfter_reachable; vm_compute; reflexivity).
  assert (Hst : stopped s) by (split_and!; [done|done|by right]).
  assert (Hrun : run SmallBloom callsOnly s = Next s') by (vm_compute; reflexivity).
  destruct (stopped_never_refills SmallBloom _ _ _ _ _ Hr Hst Hrun) as (Hst' & _ & He).
  split_and!; [done..|]. by apply He.
Defined.

(** [scheduler_pass_marks_all] at the first tick over two buckets. *)
Lemma scheduler_pass_marks_all_witness :
  let s := stateAfter (smallConfig 2 1) dbEmpty [EvRun; EvTimer] in
  reachable SmallBloom (smallConfig 2 1) dbEmpty s ∧
  sched s = Some [] ∧ C (tick (fac s)) = true ∧
  ∃ s', run SmallBloom [EvTick; EvMark; EvMark] s = Next s' ∧
        length (tasks s') = 2 ∧
        ∀ i, status (store (fac s')) !! i ≠ Some BucketEmpty.
Proof.
  intros s.
  assert (Hr : reachable SmallBloom (smallConfig 2 1) dbEmpty s)
    by (eapply stateAfter_reachable; vm_compute; reflexivity).
  destruct (scheduler_pass_marks_all SmallBloom _ _ _ Hr eq_refl eq_refl)
    as (s' & Hrun & _ & Hlen & _ & Hne & _).
  split_and!; [done..|]. by exists s'.
Defined.

(** [handed_identifiers_not_empty] at the end of scenario A. *)
Lemma handed_identifiers_not_empty_witness :
  let s := stateAfter (smallConfig 1 3) dbEmpty scenarioA in
  reachable SmallBloom (smallConfig 1 3) dbEmpty s ∧
  "ijkl" ∈ concat (handed s) ∧ "ijkl" ≠ "".
Proof.
  intros s.
  assert (Hr : reachable SmallBloom (smallConfig 1 3) dbEmpty s)
    by (eapply stateAfter_reachable; vm_compute; reflexivity).
  assert (Hin : "ijkl" ∈ concat (handed s))
    by (apply list_elem_of_lookup; by exists 1).
  split_and!; [done..|].
  destruct (handed_identifiers_not_empty SmallBloom _ _ _ Hr) as [H _].
  by apply H.
Defined.

(** [history_is_never_handed_out] at the run [afterHistory]. *)
Lemma history_is_never_handed_out_witness :
  let s := stateAfter (smallConfig 1 3) dbTwo afterHistory in
  countScan dbTwo = (2%N, None) ∧ (0 < 2)%N ∧
  idsQuery dbTwo = inr [ScanOk "abcd"; ScanOk "efgh"] ∧
  reachable SmallBloom (smallConfig 1 3) dbTwo s ∧
  ScanOk "abcd" ∈ [ScanOk "abcd"; ScanOk "efgh"] ∧
  handed s = [["wxyz"; "ijkl"; "mnop"]] ∧
  "abcd" ∉ concat (handed s).
Proof.
  intros s.
  assert (Hr : reachable SmallBloom (smallConfig 1 3) dbTwo s)
    by (eapply stateAfter_reachable; vm_compute; reflexivity).
  assert (Hin : ScanOk "abcd" ∈ [ScanOk "abcd"; ScanOk "efgh"])
    by (apply list_elem_of_lookup; by exists 0).
  split_and!; [done..| |].
  - vm_compute. reflexivity.
  - by destruct (history_is_never_handed_out SmallBloom (PositionBloom_laws _)
                   (smallConfig 1 3) dbTwo 2%N None _ s eq_refl eq_refl eq_refl Hr
                   "abcd" Hin) as [H _].
Defined.

(** [handed_identifiers_are_discarded] at the end of scenario A. *)
Lemma handed_identifiers_are_discarded_witness :
  let s := stateAfter (smallConfig 1 3) dbEmpty scenarioA in
  reachable SmallBloom (smallConfig 1 3) dbEmpty s ∧
  "mnop" ∈ concat (handed s) ∧
  candidate SmallBloom (fac s) ("mnop", None) = None.
Proof.
  intros s.
  assert (Hr : reachable SmallBloom (smallConfig 1 3) dbEmpty s)
    by (eapply stateAfter_reachable; vm_compute; reflexivity).
  assert (Hin : "mnop" ∈ concat (handed s))
    by (apply list_elem_of_lookup; by exists 2).
  split_and!; [done..|].
  destruct (handed_identifiers_are_discarded SmallBloom (PositionBloom_laws _)
              _ _ _ _ Hr Hin) as [_ H].
  exact (H [] s None eq_refl).
Defined.

(** [failed_allocate_changes_nothing] at a new factory. *)
Lemma failed_allocate_changes_nothing_witness :
  let f := fac (boot SmallBloom (smallConfig 1 3) dbEmpty) in
  store_wf (store f) ∧ 0 < capacity (store f) ∧
  (GetLocalBucket SmallBloom f).1.2 = Some "factory: it's empty here" ∧
  (GetLocalBucket SmallBloom f).2 = f.
Proof.
  intros f.
  assert (Hwf : store_wf (store f)) by (split; [done | by repeat constructor]).
  assert (Hc : 0 < capacity (store f)) by (simpl; lia).
  assert (He : (GetLocalBucket SmallBloom f).1.2 = Some "factory: it's empty here")
    by reflexivity.
  split_and!; [done..|].
  destruct (failed_allocate_changes_nothing SmallBloom f Hwf Hc) as [H _].
  exact (H _ He).
Defined.

(** [populateBucket_batch_is_fresh] at the factory of scenario C. *)
Lemma populateBucket_batch_is_fresh_witness :
  let f' := match populateBucket SmallBloom answers warmed 0 with
            | Filled f' _ => f'
            | _ => warmed
            end in
  store_wf (store warmed) ∧ 0 < length (status (store warmed)) ∧
  populateBucket SmallBloom answers warmed 0 = Filled f' [("qrst", None)] ∧
  ∃ batch, buckets (store f') !! 0 = Some batch ∧ NoDup batch.
Proof.
  intros f'.
  assert (Hwf : store_wf (store warmed)) by (split; [done | by repeat constructor]).
  assert (Hidx : 0 < length (status (store warmed))) by (simpl; lia).
  assert (Hfill : populateBucket SmallBloom answers warmed 0 = Filled f' [("qrst", None)])
    by (vm_compute; reflexivity).
  split_and!; [done..|].
  destruct (populateBucket_batch_is_fresh SmallBloom (PositionBloom_laws _)
              _ _ _ _ _ Hwf Hidx Hfill) as (batch & Hb & _ & Hnd & _).
  by exists batch.
Defined.

(** [fill_goroutine_is_never_blocked] at a goroutine that has just
    started. *)
Lemma fill_goroutine_is_never_blocked_witness :
  let s := stateAfter (smallConfig 2 1) dbEmpty (ticked ++ [EvMark]) in
  reachable SmallBloom (smallConfig 2 1) dbEmpty s ∧
  tasks s !! 0 = Some {| t_idx := 0; fillCount := 0; pc := AtLoop |} ∧
  ∀ g, ∃ s', exec SmallBloom (EvGen 0 g) s = Next s'.
Proof.
  intros s.
  assert (Hr : reachable SmallBloom (smallConfig 2 1) dbEmpty s)
    by (eapply stateAfter_reachable; vm_compute; reflexivity).
  assert (Ht : tasks s !! 0 = Some {| t_idx := 0; fillCount := 0; pc := AtLoop |})
    by reflexivity.
  split_and!; [done..|].
  exact (fill_goroutine_is_never_blocked SmallBloom _ _ _ _ _ Hr Ht).
Defined.

(** [unique_when_serial] at scenario A. *)
Lemma unique_when_serial_witness :
  let s := stateAfter (smallConfig 1 3) dbEmpty scenarioA in
  run SmallBloom scenarioA (boot SmallBloom (smallConfig 1 3) dbEmpty) = Next s ∧
  serial scenarioA (boot SmallBloom (smallConfig 1 3) dbEmpty) = true ∧
  NoDup (concat (handed s)).
Proof.
  intros s.
  assert (Hr : run SmallBloom scenarioA (boot SmallBloom (smallConfig 1 3) dbEmpty) = Next s)
    by (vm_compute; reflexivity).
  assert (Hs : serial scenarioA (boot SmallBloom (smallConfig 1 3) dbEmpty) = true)
    by (vm_compute; reflexivity).
  split_and!; [done..|].
  exact (unique_when_serial SmallBloom (PositionBloom_laws _) _ _ _ _ Hr Hs).
Defined.

(** [run_never_panics] at the first marking of a run. *)
Lemma run_never_panics_witness :
  let s := stateAfter (smallConfig 2 1) dbEmpty ticked in
  reachable SmallBloom (smallConfig 2 1) dbEmpty s ∧
  exec SmallBloom EvMark s ≠ Panic.
Proof.
  intros s.
  assert (Hr : reachable SmallBloom (smallConfig 2 1) dbEmpty s)
    by (eapply stateAfter_reachable; vm_compute; reflexivity).
  split; [done|]. exact (run_never_panics SmallBloom _ _ EvMark _ Hr).
Defined.

Lemma fineAfter_reachable config d evs s :
  runFine evs (bootFine config d) = FineNext s →
  reachableFine config d (fineAfter config d evs).
Proof. intros H. exists evs. unfold fineAfter. by rewrite H. Qed.

(** Between line 96 and line 97 the goroutine of bucket 0 stores its first
    identifier while the status of the bucket is still Empty. *)
Example written_while_Empty :
  let s := fineAfter (smallConfig 2 1) dbEmpty (early ++ [Ev (EvStore 0)]) in
  marking s = Some 0 ∧
  status (store (fac (sys s))) = [BucketEmpty; BucketEmpty] ∧
  buckets (store (fac (sys s))) = [["aaaa"]; [""]].
Proof. split_and!; vm_compute; reflexivity. Qed.

(** [buckets_are_written_by_their_filler] at that store: bucket 1, neither
    Busy nor being marked, keeps its contents. *)
Lemma buckets_are_written_by_their_filler_witness :
  let s := fineAfter (smallConfig 2 1) dbEmpty early in
  let s' := fineAfter (smallConfig 2 1) dbEmpty (early ++ [Ev (EvStore 0)]) in
  reachableFine (smallConfig 2 1) dbEmpty s ∧
  execFine (Ev (EvStore 0)) s = FineNext s' ∧
  status (store (fac (sys s))) !! 1 ≠ Some BucketBusy ∧
  marking s ≠ Some 1 ∧
  buckets (store (fac (sys s'))) !! 1 = buckets (store (fac (sys s))) !! 1.
Proof.
  intros s s'.
  assert (Hr : reachableFine (smallConfig 2 1) dbEmpty s)
    by (eapply fineAfter_reachable; vm_compute; reflexivity).
  assert (He : execFine (Ev (EvStore 0)) s = FineNext s') by (vm_compute; reflexivity).
  assert (Hst : status (store (fac (sys s))) !! 1 ≠ Some BucketBusy) by done.
  assert (Hm : marking s ≠ Some 1) by done.
  split_and!; [done..|].
  apply (buckets_are_written_by_their_filler SmallBloom _ _ _ _ _ Hr He 1 Hst Hm).
Defined.

(** [buckets_have_one_filler] between line 96 and line 97 for bucket 0. *)
Lemma buckets_have_one_filler_witness :
  let s := fineAfter (smallConfig 2 1) dbEmpty early in
  reachableFine (smallConfig 2 1) dbEmpty s ∧
  marking s = Some 0 ∧
  status (store (fac (sys s))) !! 0 = Some BucketEmpty ∧
  ∃ n t, tasks (sys s) !! n = Some t ∧ t_idx t = 0.
Proof.
  intros s.
  assert (Hr : reachableFine (smallConfig 2 1) dbEmpty s)
    by (eapply fineAfter_reachable; vm_compute; reflexivity).
  assert (Hm : marking s = Some 0) by reflexivity.
  destruct (buckets_have_one_filler SmallBloom _ _ _ Hr) as (Hiff & Hem & _).
  split_and!; [done..| |].
  - by apply Hem.
  - apply Hiff. by right.
Defined.
